(** * OpenX2Argoverse: road-network documents to map artifacts

    A shallow embedding of the conversion scripts

      - [xodr2npy_area&image2city.py]        (module [Area])
      - [xodr2npy_area&image2city_multi.py]  (module [AreaMulti])
      - [xodr2npy_hight.py]                  (module [Hight])
      - [xodr2npy_hight_multi.py]            (module [HightMulti])
      - [xodr2npy_bbox.py]                   (module [BBox])
      - [xodr2xml&pyn_lanid.py]              (module [Lanid])
      - [xodr2xml&pyn_lanid_multi.py]        (module [LanidMulti])

    Python floats are modelled by exact rationals ([Q]); [float('inf')] and
    [float('-inf')], which only occur as the initial values of the running
    bounds, are modelled by [None].  [np.cos] and [np.sin] are numpy library
    functions: every module takes them as section variables [cos], [sin]. *)

From Stdlib Require Import QArith Qminmax Qround Qabs ZArith List String Bool Lia Lqa.
Import ListNotations.
Open Scope Q_scope.

(* ------------------------------------------------------------------ *)
(** ** Python and numpy primitives *)

Module Py.

(** [int(x)] on a float: truncation toward zero. *)
Definition int (q : Q) : Z := Z.quot (Qnum q) (Zpos (Qden q)).

(** [np.ceil(x)] followed by [int]. *)
Definition ceil (q : Q) : Z := Qceiling q.

(** [range(n)]: [0, 1, ..., n-1]; empty when [n <= 0]. *)
Definition range (n : Z) : list Z := map Z.of_nat (seq 0 (Z.to_nat n)).

(** [np.arange(start, stop, step)]: [ceil((stop - start) / step)] values
    [start + k * step]. *)
Definition arange (start stop step : Q) : list Q :=
  map (fun k => start + inject_Z k * step)
      (range (Qceiling ((stop - start) / step))).

(** [abs(x)]. *)
Definition abs (q : Q) : Q := Qabs q.

(** [min(m, a, b)] where the running value [m] starts at [float('inf')],
    written [None]. *)
Definition min3 (m : option Q) (a b : Q) : option Q :=
  match m with
  | None => Some (Qmin a b)
  | Some v => Some (Qmin (Qmin v a) b)
  end.

(** [max(m, a, b)] where the running value [m] starts at [float('-inf')],
    written [None]. *)
Definition max3 (m : option Q) (a b : Q) : option Q :=
  match m with
  | None => Some (Qmax a b)
  | Some v => Some (Qmax (Qmax v a) b)
  end.

(** [m -= w] and [m += w] on a running bound: an infinity stays one. *)
Definition sub (m : option Q) (w : Q) : option Q := option_map (fun v => v - w) m.
Definition add (m : option Q) (w : Q) : option Q := option_map (fun v => v + w) m.

(** [min(a, b)] and [max(a, b)] for the global bounds of a batch. *)
Definition min2 (m : option Q) (a : Q) : option Q :=
  match m with None => Some a | Some v => Some (Qmin v a) end.
Definition max2 (m : option Q) (a : Q) : option Q :=
  match m with None => Some a | Some v => Some (Qmax v a) end.

End Py.

(* ------------------------------------------------------------------ *)
(** ** The parsed road-network document *)

(** A [<geometry>] element: attributes [x], [y], [hdg], [length] (the last two
    default to 0 in the scripts) and the attribute [a] of its first
    [<elevation>] descendant, when there is one. *)
Record geometry := mkGeometry {
  g_x : Q;
  g_y : Q;
  g_hdg : Q;
  g_length : Q;
  g_elevation : option Q
}.

(** A [<lane>] element: its [type], [width], [l_neighbor_id] and
    [r_neighbor_id] attributes, the attribute [a] of its first [<width>]
    descendant (0 when the element has no [a]) and the [left] and [right]
    attributes of its [<neighbors>] child. *)
Record lane := mkLane {
  lane_type : option string;
  lane_width_attr : option string;
  lane_width_a : option Q;
  lane_l_neighbor_id : option string;
  lane_r_neighbor_id : option string;
  lane_neighbors : option (option string * option string)
}.

(** A [<laneSection>] element: the attribute [a] of its first [<laneOffset>]
    descendant and its [<lane>] descendants in document order. *)
Record laneSection := mkLaneSection {
  ls_laneOffset_a : option Q;
  ls_lanes : list lane
}.

(** A [<road>] element: its geometry primitives, its lane sections and the
    [elementId] of the first [link/predecessor] and [link/successor] below
    it. *)
Record road := mkRoad {
  r_geometry : list geometry;
  r_laneSections : list laneSection;
  r_predecessor : option string;
  r_successor : option string
}.

Definition document := list road.

(** [d.get(k, default)]. *)
Definition get_default {A} (o : option A) (d : A) : A :=
  match o with Some v => v | None => d end.

(* ------------------------------------------------------------------ *)
(** ** Grids: [np.zeros((rows, cols))] and guarded cell writes *)

Module Grid.

Definition t (A : Type) := list (list A).

(** [np.zeros((rows, cols))] / [np.full((rows, cols), v)]; a negative
    dimension raises. *)
Definition full {A} (rows cols : Z) (v : A) : option (t A) :=
  if (rows <? 0)%Z || (cols <? 0)%Z then None
  else Some (repeat (repeat v (Z.to_nat cols)) (Z.to_nat rows)).

Fixpoint upd {A} (n : nat) (f : A -> A) (l : list A) : list A :=
  match l, n with
  | [], _ => []
  | a :: l', O => f a :: l'
  | a :: l', S n' => a :: upd n' f l'
  end.

(** [g[row, col] = v] for indices already checked to be in range. *)
Definition set {A} (g : t A) (row col : Z) (v : A) : t A :=
  upd (Z.to_nat row) (upd (Z.to_nat col) (fun _ => v)) g.

(** [g[row, col]]; [d] outside the array. *)
Definition get {A} (g : t A) (row col : Z) (d : A) : A :=
  if (row <? 0)%Z || (col <? 0)%Z then d
  else nth (Z.to_nat col) (nth (Z.to_nat row) g []) d.

(** The guarded write of the rasterizers:
    [if 0 <= col < cols and 0 <= row < rows: g[row, col] = v]. *)
Definition write {A} (rows cols : Z) (v : A) (g : t A) (rc : Z * Z) : t A :=
  let '(row, col) := rc in
  if ((0 <=? col)%Z && (col <? cols)%Z && (0 <=? row)%Z && (row <? rows)%Z)%bool
  then set g row col v else g.

End Grid.

(* ------------------------------------------------------------------ *)
(** ** [xodr2npy_area&image2city.py] *)

Module Area.
Section WithTrig.
Variables cos sin : Q -> Q.

Definition bounds_acc : Type := option Q * option Q * option Q * option Q.

(** Lines 23-35: one geometry primitive folded into the running bounds. *)
Definition bounds_geometry (acc : bounds_acc) (g : geometry) : bounds_acc :=
  let '(min_x, max_x, min_y, max_y) := acc in
  let x_start := g_x g in
  let y_start := g_y g in
  let hdg := g_hdg g in
  let length := g_length g in
  let x_end := x_start + length * cos hdg in
  let y_end := y_start + length * sin hdg in
  (Py.min3 min_x x_start x_end, Py.max3 max_x x_start x_end,
   Py.min3 min_y y_start y_end, Py.max3 max_y y_start y_end).

(** Lines 39-54: one lane of a lane section inflates the running bounds. *)
Definition bounds_lane (ls : laneSection) (acc : bounds_acc) (l : lane) : bounds_acc :=
  let '(min_x, max_x, min_y, max_y) := acc in
  let lane_offset := get_default (ls_laneOffset_a ls) 0 in
  let lane_width := get_default (lane_width_a l) 0 in
  let total_width := Py.abs lane_offset + Py.abs lane_width in
  (Py.sub min_x total_width, Py.add max_x total_width,
   Py.sub min_y total_width, Py.add max_y total_width).

Definition bounds_road (acc : bounds_acc) (r : road) : bounds_acc :=
  let acc1 := fold_left bounds_geometry (r_geometry r) acc in
  fold_left (fun a ls => fold_left (bounds_lane ls) (ls_lanes ls) a)
            (r_laneSections r) acc1.

Definition bounds_scan (doc : document) : bounds_acc :=
  fold_left bounds_road doc (None, None, None, None).

(** [calculate_map_bounds]: [(min_x, max_x, min_y, max_y)]. *)
Definition calculate_map_bounds (doc : document) : Q * Q * Q * Q :=
  match bounds_scan doc with
  | (Some min_x, Some max_x, Some min_y, Some max_y) => (min_x, max_x, min_y, max_y)
  | _ => (0, 1, 0, 1)
  end.

(** [calculate_transform_matrix]. *)
Definition calculate_transform_matrix (min_x min_y : Q) : list (list Q) :=
  [ [1; 0; - min_x];
    [0; 1; - min_y];
    [0; 0; 1] ].

(** Lines 117-132: the cells one lane of one geometry primitive writes, in
    the order the loops visit them, as [(grid_y, grid_x)]. *)
Definition lane_cells (resolution x_start y_start hdg length : Q) (l : lane)
  : list (Z * Z) :=
  let lane_width := get_default (lane_width_a l) 0 in
  if Qeq_bool lane_width 0
     || negb (match lane_type l with Some t => String.eqb t "driving" | None => false end)
  then []
  else
    flat_map (fun i =>
      let x := x_start + inject_Z i * resolution * cos hdg in
      let y := y_start + inject_Z i * resolution * sin hdg in
      map (fun w =>
             let grid_x := Py.int ((x + w * sin hdg) / resolution) in
             let grid_y := Py.int ((y - w * cos hdg) / resolution) in
             (grid_y, grid_x))
          (Py.arange (- lane_width) (lane_width + resolution) resolution))
      (Py.range (Py.int (length / resolution))).

(** Lines 108-132: all cells of a document, in loop order. *)
Definition document_cells (resolution offset_x offset_y : Q) (doc : document)
  : list (Z * Z) :=
  flat_map (fun r =>
    flat_map (fun g =>
      let x_start := g_x g + offset_x in
      let y_start := g_y g + offset_y in
      flat_map (fun ls =>
        flat_map (lane_cells resolution x_start y_start (g_hdg g) (g_length g))
                 (ls_lanes ls))
        (r_laneSections r))
      (r_geometry r))
    doc.

(** [parse_xodr_to_driveable_area]: the grid and the transform matrix;
    [None] for the [(None, None)] of the exception handler (a division by
    a zero resolution or a negative array dimension raises). *)
Definition parse_xodr_to_driveable_area (doc : document) (resolution : Q)
  : option (Grid.t Z * list (list Q)) :=
  if Qeq_bool resolution 0 then None else
  let '(min_x, max_x, min_y, max_y) := calculate_map_bounds doc in
  let width := max_x - min_x in
  let height := max_y - min_y in
  let grid_width := Py.int (width / resolution) in
  let grid_height := Py.int (height / resolution) in
  match Grid.full grid_height grid_width 0%Z with
  | None => None
  | Some zeros =>
      let offset_x := - min_x in
      let offset_y := - min_y in
      let driveable_area :=
        fold_left (Grid.write grid_height grid_width 1%Z)
                  (document_cells resolution offset_x offset_y doc) zeros in
      Some (driveable_area, calculate_transform_matrix min_x min_y)
  end.

End WithTrig.
End Area.

(* ------------------------------------------------------------------ *)
(** ** [xodr2npy_area&image2city_multi.py] *)

Module AreaMulti.
Section WithTrig.
Variables cos sin : Q -> Q.

(** The file repeats [calculate_map_bounds] of the single-document script
    line for line. *)
Definition calculate_map_bounds := Area.calculate_map_bounds cos sin.

Definition global_acc : Type := option Q * option Q * option Q * option Q.

(** Lines 181-185: the bounds of one document folded into the global ones. *)
Definition global_bounds_step (acc : global_acc) (doc : document) : global_acc :=
  let '(global_min_x, global_max_x, global_min_y, global_max_y) := acc in
  let '(min_x, max_x, min_y, max_y) := calculate_map_bounds doc in
  (Py.min2 global_min_x min_x, Py.max2 global_max_x max_x,
   Py.min2 global_min_y min_y, Py.max2 global_max_y max_y).

Definition global_bounds (docs : list document) : global_acc :=
  fold_left global_bounds_step docs (None, None, None, None).

(** Lines 211-241: the cells one lane of one geometry primitive writes, as
    [(row, col)]. *)
Definition lane_cells (resolution x_start y_start hdg length : Q) (l : lane)
  : list (Z * Z) :=
  if negb (match lane_type l with Some t => String.eqb t "driving" | None => false end)
  then []
  else
    match lane_width_a l with
    | None => []
    | Some lane_width =>
        let steps := Py.int (length / resolution) in
        flat_map (fun step =>
          let dx := inject_Z step * resolution * cos hdg in
          let dy := inject_Z step * resolution * sin hdg in
          let x_center := x_start + dx in
          let y_center := y_start + dy in
          map (fun offset =>
                 let x := x_center + offset * sin hdg in
                 let y := y_center - offset * cos hdg in
                 let col := Py.int (x / resolution) in
                 let row := Py.int (y / resolution) in
                 (row, col))
              (Py.arange (- lane_width) (lane_width + resolution) resolution))
          (Py.range (steps + 1))
    end.

(** Lines 200-241 for one document. *)
Definition document_cells (resolution global_min_x global_min_y : Q) (doc : document)
  : list (Z * Z) :=
  flat_map (fun r =>
    flat_map (fun g =>
      let x_start := g_x g - global_min_x in
      let y_start := g_y g - global_min_y in
      flat_map (fun ls =>
        flat_map (lane_cells resolution x_start y_start (g_hdg g) (g_length g))
                 (ls_lanes ls))
        (r_laneSections r))
      (r_geometry r))
    doc.

(** [batch_convert_xodr_to_driveable_area] on the documents found by the
    directory walk, in traversal order: the merged grid and the global
    transform.  With no document the global bounds stay infinite and the
    grid size computation raises, as does a division by a zero resolution:
    [None]. *)
Definition batch_convert_xodr_to_driveable_area (docs : list document) (resolution : Q)
  : option (Grid.t Z * list (list Q)) :=
  if Qeq_bool resolution 0 then None else
  match global_bounds docs with
  | (Some global_min_x, Some global_max_x, Some global_min_y, Some global_max_y) =>
      let global_width := global_max_x - global_min_x in
      let global_height := global_max_y - global_min_y in
      let grid_cols := (Py.ceil (global_width / resolution) + 1)%Z in
      let grid_rows := (Py.ceil (global_height / resolution) + 1)%Z in
      match Grid.full grid_rows grid_cols 0%Z with
      | None => None
      | Some zeros =>
          let global_driveable :=
            fold_left (Grid.write grid_rows grid_cols 1%Z)
                      (flat_map (document_cells resolution global_min_x global_min_y) docs)
                      zeros in
          Some (global_driveable,
                [ [1; 0; - global_min_x]; [0; 1; - global_min_y]; [0; 0; 1] ])
      end
  | _ => None
  end.

End WithTrig.
End AreaMulti.

(* ------------------------------------------------------------------ *)
(** ** [xodr2npy_hight.py] *)

Module Hight.
Section WithTrig.
Variables cos sin : Q -> Q.

Definition bounds_acc : Type := option Q * option Q * option Q * option Q.

Definition bounds_geometry (acc : bounds_acc) (g : geometry) : bounds_acc :=
  let '(min_x, max_x, min_y, max_y) := acc in
  let x_start := g_x g in
  let y_start := g_y g in
  let length := g_length g in
  let hdg := g_hdg g in
  let x_end := x_start + length * cos hdg in
  let y_end := y_start + length * sin hdg in
  (Py.min3 min_x x_start x_end, Py.max3 max_x x_start x_end,
   Py.min3 min_y y_start y_end, Py.max3 max_y y_start y_end).

(** [calculate_map_bounds] of the height scripts: no lane inflation and no
    fallback; a component is [None] while it is still infinite. *)
Definition calculate_map_bounds (doc : document) : bounds_acc :=
  fold_left (fun acc r => fold_left bounds_geometry (r_geometry r) acc)
            doc (None, None, None, None).

(** Lines 96-105: the writes of one geometry primitive, as
    [((grid_y, grid_x), height)]. *)
Definition geometry_writes (resolution min_x min_y : Q) (g : geometry)
  : list ((Z * Z) * Q) :=
  match g_elevation g with
  | None => []
  | Some a =>
      map (fun i =>
             let x := g_x g + inject_Z i * resolution * cos (g_hdg g) in
             let y := g_y g + inject_Z i * resolution * sin (g_hdg g) in
             let grid_x := Py.int ((x - min_x) / resolution) in
             let grid_y := Py.int ((y - min_y) / resolution) in
             ((grid_y, grid_x), a))
          (Py.range (Py.int (g_length g / resolution)))
  end.

Definition write_height (rows cols : Z) (g : Grid.t Q) (w : (Z * Z) * Q) : Grid.t Q :=
  Grid.write rows cols (snd w) g (fst w).

(** The fill pass over geometry primitives in processing order. *)
Definition fill (resolution min_x min_y : Q) (rows cols : Z)
           (gs : list geometry) (g0 : Grid.t Q) : Grid.t Q :=
  fold_left (write_height rows cols)
            (flat_map (geometry_writes resolution min_x min_y) gs) g0.

(** [xodr_to_ground_height]; [None] when the exception handler returns
    [None] (infinite bounds of a document without geometry make the grid
    size computation raise, as does a division by a zero resolution). *)
Definition xodr_to_ground_height (doc : document) (resolution : Q)
  : option (Grid.t Q) :=
  if Qeq_bool resolution 0 then None else
  match calculate_map_bounds doc with
  | (Some min_x, Some max_x, Some min_y, Some max_y) =>
      let width := max_x - min_x in
      let height := max_y - min_y in
      let grid_width := Py.int (width / resolution) in
      let grid_height := Py.int (height / resolution) in
      match Grid.full grid_height grid_width 0 with
      | None => None
      | Some zeros =>
          Some (fill resolution min_x min_y grid_height grid_width
                     (flat_map r_geometry doc) zeros)
      end
  | _ => None
  end.

End WithTrig.
End Hight.

(* ------------------------------------------------------------------ *)
(** ** [xodr2npy_hight_multi.py] *)

Module HightMulti.
Section WithTrig.
Variables cos sin : Q -> Q.

(** The file repeats [calculate_map_bounds] of [xodr2npy_hight.py]. *)
Definition calculate_map_bounds := Hight.calculate_map_bounds cos sin.

(** [min] and [max] of two floats either of which may still be infinite. *)
Definition min_inf (a b : option Q) : option Q :=
  match a, b with
  | None, _ => b
  | _, None => a
  | Some u, Some v => Some (Qmin u v)
  end.
Definition max_inf (a b : option Q) : option Q :=
  match a, b with
  | None, _ => b
  | _, None => a
  | Some u, Some v => Some (Qmax u v)
  end.

Definition global_bounds_step (acc : Hight.bounds_acc) (doc : document) : Hight.bounds_acc :=
  let '(global_min_x, global_max_x, global_min_y, global_max_y) := acc in
  let '(min_x, max_x, min_y, max_y) := calculate_map_bounds doc in
  (min_inf global_min_x min_x, max_inf global_max_x max_x,
   min_inf global_min_y min_y, max_inf global_max_y max_y).

Definition global_bounds (docs : list document) : Hight.bounds_acc :=
  fold_left global_bounds_step docs (None, None, None, None).

(** Lines 166-193: the writes of one geometry primitive, as
    [((row, col), height_value)]. *)
Definition geometry_writes (resolution global_min_x global_min_y : Q) (g : geometry)
  : list ((Z * Z) * Q) :=
  match g_elevation g with
  | None => []
  | Some height_value =>
      let steps := Py.int (g_length g / resolution) in
      map (fun step =>
             let dx := inject_Z step * resolution * cos (g_hdg g) in
             let dy := inject_Z step * resolution * sin (g_hdg g) in
             let x := g_x g + dx in
             let y := g_y g + dy in
             let col := Py.int ((x - global_min_x) / resolution) in
             let row := Py.int ((y - global_min_y) / resolution) in
             ((row, col), height_value))
          (Py.range (steps + 1))
  end.

(** A cell of the [np.nan]-seeded array: [None] is not-a-number. *)
Definition write_height (rows cols : Z) (g : Grid.t (option Q)) (w : (Z * Z) * Q)
  : Grid.t (option Q) :=
  Grid.write rows cols (Some (snd w)) g (fst w).

(** The fill pass over geometry primitives in processing order. *)
Definition fill (resolution global_min_x global_min_y : Q) (rows cols : Z)
           (gs : list geometry) (g0 : Grid.t (option Q)) : Grid.t (option Q) :=
  fold_left (write_height rows cols)
            (flat_map (geometry_writes resolution global_min_x global_min_y) gs) g0.



End WithTrig.
End HightMulti.

(* ------------------------------------------------------------------ *)
(** ** [xodr2npy_bbox.py] *)

Module BBox.
Section WithTrig.
Variables cos sin : Q -> Q.

(** Lines 80-96: the row of one geometry primitive. *)
Definition bbox_row (g : geometry) : list Q :=
  let x_start := g_x g in
  let y_start := g_y g in
  let length := g_length g in
  let hdg := g_hdg g in
  let x_end := x_start + length * cos hdg in
  let y_end := y_start + length * sin hdg in
  let width := 35 # 10 in
  let x_min := x_start - width / 2 in
  let y_min := y_start - width / 2 in
  let x_max := x_end + width / 2 in
  let y_max := y_end + width / 2 in
  [x_min; y_min; x_max; y_max].

(** [xodr_to_bbox_table]. *)
Definition xodr_to_bbox_table (doc : document) : list (list Q) :=
  flat_map (fun r => map bbox_row (r_geometry r)) doc.

End WithTrig.
End BBox.

(* ------------------------------------------------------------------ *)
(** ** Vector maps: nodes, ways and the identifier generator *)

(** A loop body that may fail to return, iterated over a list. *)
Fixpoint foldM {A S : Type} (f : S -> A -> option S) (l : list A) (s : S) : option S :=
  match l with
  | [] => Some s
  | a :: l' =>
      match f s a with
      | None => None
      | Some s' => foldM f l' s'
      end
  end.

Record node := mkNode {
  n_id : Z;
  n_x : Q;
  n_y : Q
}.

Record tags := mkTags {
  t_predecessor : list string;
  t_successor : list string;
  t_l_neighbor_id : string;
  t_r_neighbor_id : string
}.

Record way := mkWay {
  w_lane_id : Z;
  w_lane_type : string;
  w_width : string;
  w_geometry : list node;
  w_tags : tags
}.

(** [lane_id in existing_ids]. *)
Definition id_in (lane_id : Z) (existing_ids : list Z) : bool :=
  existsb (Z.eqb lane_id) existing_ids.

(** [generate_unique_lane_id] (the same in both vector-map scripts).  The
    values [random.randint(1000000, 9999999)] returns during the run are the
    list [draws]; the loop consumes them until one is not in [existing_ids],
    adds it to the set and returns it.  [None]: the loop has not returned
    within the given draws. *)
Fixpoint generate_unique_lane_id (draws : list Z) (existing_ids : list Z)
  : option (Z * list Z * list Z) :=
  match draws with
  | [] => None
  | lane_id :: rest =>
      if negb (id_in lane_id existing_ids)
      then Some (lane_id, rest, lane_id :: existing_ids)
      else generate_unique_lane_id rest existing_ids
  end.

(** [[v] if v else []] for an attribute value. *)
Definition singleton_if (v : option string) : list string :=
  match v with
  | Some s => if String.eqb s "" then [] else [s]
  | None => []
  end.

(* ------------------------------------------------------------------ *)
(** ** [xodr2xml&pyn_lanid.py] *)

Module Lanid.

(** The locals of [parse_xodr_to_vector_map], the random draws still to
    come and the caller's [existing_lane_ids] set. *)
Record pstate := mkP {
  p_nodes : list node;
  p_ways : list way;
  p_node_id : Z;
  p_mapping : list (Z * Z);
  p_table_idx : Z;
  p_draws : list Z;
  p_existing : list Z
}.

(** Lines 119-126: one geometry primitive; the road's node list and the
    state. *)
Definition geometry_step (acc : list node * pstate) (g : geometry) : list node * pstate :=
  let '(road_geometry, st) := acc in
  let n := mkNode (p_node_id st) (g_x g) (g_y g) in
  (road_geometry ++ [n],
   mkP (p_nodes st ++ [n]) (p_ways st) (p_node_id st + 1)%Z (p_mapping st)
       (p_table_idx st) (p_draws st) (p_existing st)).

(** Lines 131-161: one lane.  The key of [mapping] is [str(table_idx)],
    kept as the integer. *)
Definition lane_step (r : road) (road_geometry : list node) (st : pstate) (l : lane)
  : option pstate :=
  match generate_unique_lane_id (p_draws st) (p_existing st) with
  | None => None
  | Some (unique_lane_id, draws', existing') =>
      let lane_type := get_default (lane_type l) "driving"%string in
      let width := get_default (lane_width_attr l) "3.5"%string in
      let predecessor_id := r_predecessor r in
      let successor_id := r_successor r in
      let l_neighbor := get_default (lane_l_neighbor_id l) "None"%string in
      let r_neighbor := get_default (lane_r_neighbor_id l) "None"%string in
      let w := mkWay unique_lane_id lane_type width road_geometry
                     (mkTags (singleton_if predecessor_id) (singleton_if successor_id)
                             l_neighbor r_neighbor) in
      Some (mkP (p_nodes st) (p_ways st ++ [w]) (p_node_id st)
                (p_mapping st ++ [(p_table_idx st, unique_lane_id)])
                (p_table_idx st + 1)%Z draws' existing')
  end.

Definition road_step (st : pstate) (r : road) : option pstate :=
  let '(road_geometry, st1) := fold_left geometry_step (r_geometry r) ([], st) in
  foldM (fun s ls => foldM (lane_step r road_geometry) (ls_lanes ls) s)
        (r_laneSections r) st1.

(** [parse_xodr_to_vector_map(xodr_file, existing_lane_ids)]. *)
Definition parse_xodr_to_vector_map (doc : document) (draws existing_lane_ids : list Z)
  : option pstate :=
  foldM road_step doc (mkP [] [] 0%Z [] 0%Z draws existing_lane_ids).

(** Lines 224-240 of [batch_convert_xodr_to_vector_map_and_json]: every
    document is parsed against a fresh [existing_lane_ids = set()]; the
    result lists [(nodes, ways, mapping)] per document. *)
Definition batch_step (acc : list (list node * list way * list (Z * Z)) * list Z)
           (doc : document)
  : option (list (list node * list way * list (Z * Z)) * list Z) :=
  let '(outputs, draws) := acc in
  let existing_lane_ids := [] in
  match parse_xodr_to_vector_map doc draws existing_lane_ids with
  | None => None
  | Some st => Some (outputs ++ [(p_nodes st, p_ways st, p_mapping st)], p_draws st)
  end.

Definition batch_convert_xodr_to_vector_map_and_json (docs : list document) (draws : list Z)
  : option (list (list node * list way * list (Z * Z))) :=
  option_map fst (foldM batch_step docs ([], draws)).

(** All lane identifiers a batch run has issued, in order. *)
Definition issued_ids (outputs : list (list node * list way * list (Z * Z))) : list Z :=
  flat_map (fun o => map w_lane_id (snd (fst o))) outputs.

End Lanid.

(* ------------------------------------------------------------------ *)
(** ** [xodr2xml&pyn_lanid_multi.py] *)

Module LanidMulti.

(** [round(x, 4)]: to the nearest multiple of 1/10000, ties to even; the
    result is a reduced fraction, so that equal values are equal terms. *)
Definition round_half_even (q : Q) : Z :=
  let f := Qfloor q in
  match Qcompare (q - inject_Z f) (1 # 2) with
  | Lt => f
  | Gt => (f + 1)%Z
  | Eq => if Z.even f then f else (f + 1)%Z
  end.

Definition round4 (q : Q) : Q :=
  Qred (inject_Z (round_half_even (q * 10000)) / 10000).

(** The key [(tuple((n["x"], n["y"]) ...), type, width)] that is hashed. *)
Definition lane_key : Type := list (Q * Q) * string * string.

Section WithHash.
(** Python's [hash] on such keys. *)
Variable hash : lane_key -> Z.

(** [node_key = f"{x}_{y}"]: two keys are the same string when the rounded
    coordinates are the same floats; the key is kept as the pair. *)
Definition key_eqb (k1 k2 : Q * Q) : bool :=
  Qeq_bool (fst k1) (fst k2) && Qeq_bool (snd k1) (snd k2).

(** The globals of [batch_convert_xodr_to_vector_map_and_json]; the
    dictionaries keep insertion order. *)
Record gstate := mkG {
  global_nodes : list ((Q * Q) * node);
  global_ways : list (Z * way);
  global_mapping : list (Z * Z);
  existing_lane_ids : list Z;
  table_idx_counter : Z;
  g_draws : list Z
}.

Definition nodes_find (k : Q * Q) (m : list ((Q * Q) * node)) : option node :=
  option_map snd (find (fun e => key_eqb k (fst e)) m).

Definition ways_find (h : Z) (m : list (Z * way)) : option way :=
  option_map snd (find (fun e => Z.eqb h (fst e)) m).

(** Lines 250-263: one geometry primitive. *)
Definition geometry_step (acc : list node * gstate) (g : geometry) : list node * gstate :=
  let '(road_nodes, st) := acc in
  let x := round4 (g_x g) in
  let y := round4 (g_y g) in
  let node_key := (x, y) in
  let nodes' :=
    match nodes_find node_key (global_nodes st) with
    | None =>
        let new_node_id := Z.of_nat (List.length (global_nodes st)) in
        global_nodes st ++ [(node_key, mkNode new_node_id x y)]
    | Some _ => global_nodes st
    end in
  let st' := mkG nodes' (global_ways st) (global_mapping st) (existing_lane_ids st)
                 (table_idx_counter st) (g_draws st) in
  match nodes_find node_key nodes' with
  | Some n => (road_nodes ++ [n], st')
  | None => (road_nodes, st')
  end.

Definition key_of (road_nodes : list node) (l : lane) : lane_key :=
  (map (fun n => (n_x n, n_y n)) road_nodes,
   get_default (lane_type l) "driving"%string,
   get_default (lane_width_attr l) "3.5"%string).

(** Lines 273-313: one lane. *)
Definition lane_step (road_nodes : list node) (st : gstate) (l : lane) : option gstate :=
  let lane_hash := hash (key_of road_nodes l) in
  match ways_find lane_hash (global_ways st) with
  | Some _ => Some st
  | None =>
      match generate_unique_lane_id (g_draws st) (existing_lane_ids st) with
      | None => None
      | Some (new_lane_id, draws', existing') =>
          let l_r :=
            match lane_neighbors l with
            | Some (n_left, n_right) =>
                (get_default n_left "None"%string, get_default n_right "None"%string)
            | None => ("None"%string, "None"%string)
            end in
          let way_data :=
            mkWay new_lane_id
                  (get_default (lane_type l) "driving"%string)
                  (get_default (lane_width_attr l) "3.5"%string)
                  road_nodes
                  (mkTags [] [] (fst l_r) (snd l_r)) in
          Some (mkG (global_nodes st)
                    (global_ways st ++ [(lane_hash, way_data)])
                    (global_mapping st ++ [(table_idx_counter st, new_lane_id)])
                    existing'
                    (table_idx_counter st + 1)%Z
                    draws')
      end
  end.

(** Lines 247-313: one road; a road without geometry is skipped. *)
Definition road_step (st : gstate) (r : road) : option gstate :=
  let '(road_nodes, st1) := fold_left geometry_step (r_geometry r) ([], st) in
  match road_nodes with
  | [] => Some st1
  | _ =>
      foldM (fun s ls => foldM (lane_step road_nodes) (ls_lanes ls) s)
            (r_laneSections r) st1
  end.

Definition document_step (st : gstate) (doc : document) : option gstate :=
  foldM road_step doc st.

(** The first phase over the documents of the walk, in traversal order. *)
Definition run (docs : list document) (st : gstate) : option gstate :=
  foldM document_step docs st.

Definition init (draws : list Z) : gstate := mkG [] [] [] [] 0%Z draws.

(** The second phase: what is handed to [save_vector_map_to_xml] and
    [json.dump]; [None] when nothing is saved. *)
Definition output (st : gstate) : option (list node * list way * list (Z * Z)) :=
  match global_nodes st, global_ways st with
  | _ :: _, _ :: _ => Some (map snd (global_nodes st), map snd (global_ways st),
                            global_mapping st)
  | _, _ => None
  end.

(** [batch_convert_xodr_to_vector_map_and_json]; the outer [None]: an
    identifier loop has not returned within the given draws. *)
Definition batch_convert_xodr_to_vector_map_and_json (docs : list document) (draws : list Z)
  : option (option (list node * list way * list (Z * Z))) :=
  option_map output (run docs (init draws)).

End WithHash.
End LanidMulti.

(* ------------------------------------------------------------------ *)
(** ** Example inputs *)

Module Examples.

(** Rational approximations of cosine and sine (Taylor polynomials), exact
    at heading 0, to run the scripts on concrete documents. *)
Fixpoint taylor (n : nat) (term x2 : Q) (k : Z) : Q :=
  match n with
  | O => 0
  | S n' =>
      term + taylor n' (Qred (- term * x2 / inject_Z ((k + 1) * (k + 2)))) x2 (k + 2)%Z
  end.

Definition cos_approx (x : Q) : Q := Qred (taylor 14 1 (x * x) 0).
Definition sin_approx (x : Q) : Q := Qred (taylor 14 x (x * x) 1).

Definition driving_lane (w : Q) : lane :=
  mkLane (Some "driving"%string) None (Some w) None None None.

(** One road: a single primitive at the origin, heading 0, length 10, and
    one driving lane of width 3.5. *)
Definition straight_road : document :=
  [ mkRoad [mkGeometry 0 0 0 10 None]
           [mkLaneSection None [driving_lane (35 # 10)]]
           None None ].

(** Two overlapping primitives on the x axis with elevations 1 and 2. *)
Definition prim_A : geometry := mkGeometry 0 0 0 2 (Some 1).
Definition prim_B : geometry := mkGeometry 1 0 0 2 (Some 2).
Definition doc_AB : document := [ mkRoad [prim_A; prim_B] [] None None ].

(** One road: a primitive of length 0 at the origin and one driving lane of
    width 0.35, so that the inflated bounds are 0.7 wide and high. *)
Definition narrow_road : document :=
  [ mkRoad [mkGeometry 0 0 0 0 None]
           [mkLaneSection None [driving_lane (35 # 100)]]
           None None ].


(** A hash for running the batch script: it separates the keys of the
    examples below (number of nodes, and lengths of the two strings). *)
Definition toy_hash (k : LanidMulti.lane_key) : Z :=
  let '(coords, type, width) := k in
  (Z.of_nat (List.length coords) * 10000
   + Z.of_nat (String.length type) * 100
   + Z.of_nat (String.length width))%Z.

(** A road with a road-level link to predecessor "5" and successor "7". *)
Definition linked_road : document :=
  [ mkRoad [mkGeometry 0 0 0 10 None]
           [mkLaneSection None [driving_lane (35 # 10)]]
           (Some "5"%string) (Some "7"%string) ].

End Examples.

(* ------------------------------------------------------------------ *)
(** ** Vocabulary of the statements *)

(** Two pairs of trigonometric functions agree at the headings of a document. *)
Definition trig_agree (cos sin cos' sin' : Q -> Q) (doc : document) : Prop :=
  forall r g, In r doc -> In g (r_geometry r) ->
    cos (g_hdg g) = cos' (g_hdg g) /\ sin (g_hdg g) = sin' (g_hdg g).

(** Tuples and tables of floats are compared entry by entry. *)
Definition bounds_eq (b b' : Q * Q * Q * Q) : Prop :=
  let '(a1, a2, a3, a4) := b in
  let '(b1, b2, b3, b4) := b' in
  a1 == b1 /\ a2 == b2 /\ a3 == b3 /\ a4 == b4.

Definition table_eq (t t' : list (list Q)) : Prop := Forall2 (Forall2 Qeq) t t'.

(** The end point of a primitive's straight reference line. *)
Definition x_end (cos : Q -> Q) (g : geometry) : Q := g_x g + g_length g * cos (g_hdg g).
Definition y_end (sin : Q -> Q) (g : geometry) : Q := g_y g + g_length g * sin (g_hdg g).

(** The running bounds are finite and contain the point [(x, y)]. *)
Definition covers (acc : Area.bounds_acc) (x y : Q) : Prop :=
  match acc with
  | (Some min_x, Some max_x, Some min_y, Some max_y) =>
      min_x <= x /\ x <= max_x /\ min_y <= y /\ y <= max_y
  | _ => False
  end.

(** A matrix applied to a (homogeneous) vector. *)
Definition dot (u v : list Q) : Q :=
  fold_right Qplus 0 (map (fun p => fst p * snd p) (combine u v)).
Definition mat_vec (m : list (list Q)) (v : list Q) : list Q :=
  map (fun row => dot row v) m.

(** A grid has [rows] rows of [cols] cells. *)
Definition shape {A} (g : Grid.t A) (rows cols : Z) : Prop :=
  List.length g = Z.to_nat rows /\ Forall (fun row => List.length row = Z.to_nat cols) g.

(** A cell passes the range check of the rasterizers. *)
Definition in_range (rows cols : Z) (rc : Z * Z) : Prop :=
  (0 <= fst rc < rows)%Z /\ (0 <= snd rc < cols)%Z.

Definition cell_eqb (a b : Z * Z) : bool :=
  (fst a =? fst b)%Z && (snd a =? snd b)%Z.

(** The value of the last write to [cell] in a sequence of writes. *)
Fixpoint last_write {V} (ws : list ((Z * Z) * V)) (cell : Z * Z) : option V :=
  match ws with
  | [] => None
  | (c, v) :: ws' =>
      match last_write ws' cell with
      | Some u => Some u
      | None => if cell_eqb c cell then Some v else None
      end
  end.

(** The running bounds are either still infinite or finite and ordered. *)
Definition ordered_or_empty (acc : Area.bounds_acc) : Prop :=
  match acc with
  | (Some min_x, Some max_x, Some min_y, Some max_y) => min_x <= max_x /\ min_y <= max_y
  | (None, None, None, None) => True
  | _ => False
  end.




(** A 7-digit identifier: what [random.randint(1000000, 9999999)] returns. *)
Definition in_id_range (z : Z) : Prop := (1000000 <= z <= 9999999)%Z.

(** The lane identifiers of a list of ways. *)
Definition way_ids (ws : list way) : list Z := map w_lane_id ws.

(** The identifiers issued so far are 7-digit, pairwise distinct, recorded in
    the set, and none of them was in the set [e0] the caller passed in. *)
Definition ids_ok (e0 : list Z) (ids existing draws : list Z) : Prop :=
  Forall in_id_range ids /\ NoDup ids
  /\ (forall id, In id ids -> In id existing /\ ~ In id e0)
  /\ incl e0 existing
  /\ Forall in_id_range draws.

(** The invariant of [parse_xodr_to_vector_map] on the identifiers. *)
Definition lanid_ok (e0 : list Z) (st : Lanid.pstate) : Prop :=
  ids_ok e0 (way_ids (Lanid.p_ways st)) (Lanid.p_existing st) (Lanid.p_draws st).

(** The coordinates of a list of nodes, the rounded coordinates of a road's
    primitives, and the key under which the batch script files a lane. *)
Definition coords_of (ns : list node) : list (Q * Q) :=
  map (fun n => (n_x n, n_y n)) ns.

Definition rounded_coords (gs : list geometry) : list (Q * Q) :=
  map (fun g => (LanidMulti.round4 (g_x g), LanidMulti.round4 (g_y g))) gs.

Definition lane_key_of (r : road) (l : lane) : LanidMulti.lane_key :=
  (rounded_coords (r_geometry r),
   get_default (lane_type l) "driving"%string,
   get_default (lane_width_attr l) "3.5"%string).

Definition way_key (w : way) : LanidMulti.lane_key :=
  (coords_of (w_geometry w), w_lane_type w, w_width w).

(** A lane of a road of one of the documents of a batch. *)
Definition lane_in (docs : list document) (r : road) (l : lane) : Prop :=
  exists doc ls, In doc docs /\ In r doc /\ In ls (r_laneSections r) /\ In l (ls_lanes ls).

(** A rational in lowest terms. *)
Definition canonical (q : Q) : Prop := Qred q = q.

(** The structural invariant of the batch script's global tables. *)
Definition multi_inv (hash : LanidMulti.lane_key -> Z) (st : LanidMulti.gstate) : Prop :=
  (forall k n, In (k, n) (LanidMulti.global_nodes st) ->
     k = (n_x n, n_y n) /\ canonical (fst k) /\ canonical (snd k))
  /\ NoDup (map fst (LanidMulti.global_ways st))
  /\ (forall h w, In (h, w) (LanidMulti.global_ways st) ->
        h = hash (way_key w)
        /\ t_predecessor (w_tags w) = [] /\ t_successor (w_tags w) = [])
  /\ map snd (LanidMulti.global_mapping st)
     = way_ids (map snd (LanidMulti.global_ways st)).

(** The ways table of [st'] extends that of [st] at the end. *)
Definition extends (st st' : LanidMulti.gstate) : Prop :=
  exists tail, LanidMulti.global_ways st' = LanidMulti.global_ways st ++ tail.

(** The invariant of the batch script on the identifiers. *)
Definition multi_ids_ok (st : LanidMulti.gstate) : Prop :=
  ids_ok [] (way_ids (map snd (LanidMulti.global_ways st)))
         (LanidMulti.existing_lane_ids st) (LanidMulti.g_draws st).

(** One step of the batch script keeps the tables well formed, only appends
    to the ways table and keeps the identifiers in order. *)
Definition good_step (hash : LanidMulti.lane_key -> Z) (s s' : LanidMulti.gstate) : Prop :=
  multi_inv hash s ->
  multi_inv hash s' /\ extends s s' /\ (multi_ids_ok s -> multi_ids_ok s').


(** A record is filed under the hash [h]. *)
Definition filed (h : Z) (s : LanidMulti.gstate) : Prop :=
  In h (map fst (LanidMulti.global_ways s)).

(** The topology of a lane record, the lanes of a road in the order the
    loops visit them, and the road-level link as the compilers tag it. *)
Definition pred_succ (w : way) : list string * list string :=
  (t_predecessor (w_tags w), t_successor (w_tags w)).

Definition road_lanes (r : road) : list lane := flat_map ls_lanes (r_laneSections r).

Definition road_link (r : road) : list string * list string :=
  (singleton_if (r_predecessor r), singleton_if (r_successor r)).

(** The draws still to come are pairwise distinct and none is in the set:
    every call of the generator then returns at its first draw. *)
Definition fresh_draws (draws existing : list Z) : Prop :=
  NoDup draws /\ forall d, In d draws -> ~ In d existing.

(** The number of lanes of a document. *)
Definition lane_count (doc : document) : nat :=
  list_sum (map (fun r => List.length (road_lanes r)) doc).

(** The same on the states of the two compilers, and the draws they have left. *)
Definition multi_fresh (s : LanidMulti.gstate) : Prop :=
  fresh_draws (LanidMulti.g_draws s) (LanidMulti.existing_lane_ids s).

Definition multi_budget (s : LanidMulti.gstate) : nat :=
  List.length (LanidMulti.g_draws s).

Definition lanid_fresh (s : Lanid.pstate) : Prop :=
  fresh_draws (Lanid.p_draws s) (Lanid.p_existing s).

Definition lanid_budget (s : Lanid.pstate) : nat := List.length (Lanid.p_draws s).


(* ------------------------------------------------------------------ *)
(** ** Further vocabulary *)



(** The running global bounds of a batch are finite and contain the
    rectangle [b]. *)
Definition encloses (acc : AreaMulti.global_acc) (b : Q * Q * Q * Q) : Prop :=
  let '(min_x, max_x, min_y, max_y) := b in
  match acc with
  | (Some gx0, Some gx1, Some gy0, Some gy1) =>
      gx0 <= min_x /\ max_x <= gx1 /\ gy0 <= min_y /\ max_y <= gy1
  | _ => False
  end.


Definition forward (doc : document) : Prop :=
  forall r g, In r doc -> In g (r_geometry r) -> 0 <= g_length g.

(** All primitives of a document, and of a batch, in traversal order. *)
Definition all_geometry (doc : document) : list geometry := flat_map r_geometry doc.

Definition batch_geometry (docs : list document) : list geometry :=
  flat_map (flat_map r_geometry) docs.

(* ------------------------------------------------------------------ *)
(** ** [xodr2npy_bbox_multi.py] *)

Module BBoxMulti.
Section WithTrig.
Variables cos sin : Q -> Q.

(** The file repeats [xodr_to_bbox_table] of [xodr2npy_bbox.py]. *)
Definition xodr_to_bbox_table := BBox.xodr_to_bbox_table cos sin.

(** Lines 127-141: the tables of the documents of the walk that are not
    empty, in traversal order. *)
Definition all_bboxes (docs : list document) : list (list (list Q)) :=
  filter (fun bbox_table => (0 <? List.length bbox_table)%nat)
         (map xodr_to_bbox_table docs).

(** [batch_convert_xodr_to_bbox_table]: the table that is saved,
    [np.vstack(all_bboxes)], or [None] when nothing is saved. *)
Definition batch_convert_xodr_to_bbox_table (docs : list document)
  : option (list (list Q)) :=
  match all_bboxes docs with
  | [] => None
  | tables => Some (List.concat tables)
  end.

End WithTrig.
End BBoxMulti.

(** The coordinates of the primitives of a road, as the per-document
    compiler stores them (unrounded). *)
Definition geometry_coords (gs : list geometry) : list (Q * Q) :=
  map (fun g => (g_x g, g_y g)) gs.

(** The nodes are numbered 0, 1, 2, ... in table order, and the counter is
    the number of nodes. *)
Definition numbered (ns : list node) (counter : Z) : Prop :=
  map n_id ns = Py.range counter /\ counter = Z.of_nat (List.length ns).

(** The keys of the table-index map are 0, 1, 2, ... in insertion order,
    and the counter is their number. *)
Definition dense (mapping : list (Z * Z)) (counter : Z) : Prop :=
  map fst mapping = Py.range counter /\ counter = Z.of_nat (List.length mapping).

(** The node table of the batch compiler: every entry is filed under the
    rounded coordinates it stores, no two entries have the same key, and
    the identifiers are the positions in the table. *)
Definition node_table_ok (st : LanidMulti.gstate) : Prop :=
  (forall k n, In (k, n) (LanidMulti.global_nodes st) ->
     k = (n_x n, n_y n) /\ canonical (fst k) /\ canonical (snd k))
  /\ NoDup (map fst (LanidMulti.global_nodes st))
  /\ map (fun e => n_id (snd e)) (LanidMulti.global_nodes st)
     = Py.range (Z.of_nat (List.length (LanidMulti.global_nodes st))).

(** The node table of [st'] extends that of [st] at the end, by entries
    whose keys are among [keys]. *)
Definition nodes_grow (keys : list (Q * Q)) (st st' : LanidMulti.gstate) : Prop :=
  exists tail, LanidMulti.global_nodes st' = LanidMulti.global_nodes st ++ tail
               /\ incl (map fst tail) keys.

(** Every lane record refers to at least one node, and only to nodes of the
    node table. *)
Definition ways_refer_to_nodes (st : LanidMulti.gstate) : Prop :=
  forall h w, In (h, w) (LanidMulti.global_ways st) ->
    w_geometry w <> [] /\ incl (w_geometry w) (map snd (LanidMulti.global_nodes st)).

(** Every lane record of the batch compiler is the record of a lane of one
    of the documents: it carries that lane's key. *)
Definition ways_from (docs : list document) (st : LanidMulti.gstate) : Prop :=
  forall h w, In (h, w) (LanidMulti.global_ways st) ->
    exists r l, lane_in docs r l /\ r_geometry r <> [] /\ way_key w = lane_key_of r l.

(** The table-index map of the batch compiler is dense and as long as the
    table of lane records. *)
Definition mapping_ok (st : LanidMulti.gstate) : Prop :=
  dense (LanidMulti.global_mapping st) (LanidMulti.table_idx_counter st)
  /\ List.length (LanidMulti.global_mapping st) = List.length (LanidMulti.global_ways st).

(* ------------------------------------------------------------------ *)
(** ** [xml.etree.ElementTree] trees *)

Module Xml.

(** An element: its tag, its attributes and its children in document
    order. *)
#[warnings="-register-all"] Inductive element : Type :=
  Element (tag : string) (attrib : list (string * string)) (children : list element).

Definition tag (e : element) : string := let 'Element t _ _ := e in t.
Definition attrib (e : element) : list (string * string) := let 'Element _ a _ := e in a.
Definition children (e : element) : list element := let 'Element _ _ cs := e in cs.

(** [ET.SubElement(parent, ...)]: the new element becomes the last child. *)
Definition SubElement (parent child : element) : element :=
  let 'Element t a cs := parent in Element t a (cs ++ [child]).

(** The proper descendants of an element, in document order. *)
Fixpoint descendants (e : element) : list element :=
  let 'Element _ _ cs := e in
  (fix go (l : list element) : list element :=
     match l with
     | [] => []
     | c :: l' => c :: descendants c ++ go l'
     end) cs.

(** [e.findall(".//t")]. *)
Definition findall (t : string) (e : element) : list element :=
  filter (fun c => String.eqb (tag c) t) (descendants e).

(** [e.get(k)]. *)
Definition get (e : element) (k : string) : option string :=
  option_map snd (find (fun kv => String.eqb (fst kv) k) (attrib e)).

End Xml.

(* ------------------------------------------------------------------ *)
(** ** [save_vector_map_to_xml] and [visualize_vector_map] of
       [xodr2xml&pyn_lanid.py] *)

Module LanidXml.
Import Xml.

Section Save.
(** [str] on the integers and on the floats of the tables. *)
Variable str_int : Z -> string.
Variable str_float : Q -> string.

Definition node_element (n : node) : element :=
  Element "node" [("id", str_int (n_id n)); ("x", str_float (n_x n));
                  ("y", str_float (n_y n))]%string [].

Definition tag_element (k v : string) : element :=
  Element "tag" [("k", k); ("v", v)]%string [].

Definition nd_element (geom : node) : element :=
  Element "nd" [("ref"%string, str_int (n_id geom))] [].

(** Lines 181-199: the element of one lane record.  The source attaches
    the element to the root first and fills it afterwards; the tree is the
    same. *)
Definition way_element (w : way) : element :=
  let way_elem := Element "way" [("lane_id"%string, str_int (w_lane_id w))] [] in
  let way_elem := SubElement way_elem (tag_element "has_traffic_control" "False") in
  let way_elem := SubElement way_elem (tag_element "turn_direction" "NONE") in
  let way_elem := SubElement way_elem (tag_element "is_intersection" "False") in
  let way_elem :=
    SubElement way_elem (tag_element "l_neighbor_id" (t_l_neighbor_id (w_tags w))) in
  let way_elem :=
    SubElement way_elem (tag_element "r_neighbor_id" (t_r_neighbor_id (w_tags w))) in
  let way_elem :=
    fold_left (fun e geom => SubElement e (nd_element geom)) (w_geometry w) way_elem in
  let way_elem :=
    fold_left (fun e predecessor => SubElement e (tag_element "predecessor" predecessor))
              (t_predecessor (w_tags w)) way_elem in
  fold_left (fun e successor => SubElement e (tag_element "successor" successor))
            (t_successor (w_tags w)) way_elem.

(** [save_vector_map_to_xml]: the tree that is serialised. *)
Definition save_vector_map_to_xml (nodes : list node) (ways : list way) : element :=
  let root := Element "ArgoverseVectorMap" [] [] in
  let root := fold_left (fun r n => SubElement r (node_element n)) nodes root in
  fold_left (fun r w => SubElement r (way_element w)) ways root.

End Save.

Section Visualize.
(** [int] on an attribute value; [None]: it raises. *)
Variable int : string -> option Z.

(** [point_id in nodes] and [nodes[point_id]]. *)
Definition lookup (point_id : Z) (nodes : list (Z * (Q * Q))) : option (Q * Q) :=
  option_map snd (find (fun e => Z.eqb point_id (fst e)) nodes).

(** Lines 41-45: the points of one way; [None]: an exception. *)
Definition way_points (nodes : list (Z * (Q * Q))) (way : element) : option (list (Q * Q)) :=
  foldM (fun points point =>
           match get point "id" with
           | None => None
           | Some v =>
               match int v with
               | None => None
               | Some point_id =>
                   match lookup point_id nodes with
                   | Some p => Some (points ++ [p])
                   | None => Some points
                   end
               end
           end)
        (findall "point" way) [].

(** Lines 39-49: the polylines that are plotted, one per way with points. *)
Definition lanes_drawn (nodes : list (Z * (Q * Q))) (root : element)
  : option (list (list (Q * Q))) :=
  foldM (fun drawn way =>
           match way_points nodes way with
           | None => None
           | Some [] => Some drawn
           | Some points => Some (drawn ++ [points])
           end)
        (findall "way" root) [].

End Visualize.
End LanidXml.

(* ------------------------------------------------------------------ *)
(** ** Identifiers and random draws *)

(** The draws still to come are fresh, and the identifiers [ids] issued so
    far, followed by the draws still to come, are the draws of the run. *)
Definition draws_split (draws ids rest existing : list Z) : Prop :=
  fresh_draws rest existing /\ draws = ids ++ rest.

(* ------------------------------------------------------------------ *)
(** ** [format_track_id] of [xosc2csv_batch.py] and [xosc2csv_batch_2.py] *)

From Stdlib Require DecimalString DecimalN.
From Stdlib Require Import Ascii Sorted Permutation.

Module Xosc.

(** [str(track_id)] for the integers the callers pass, [0] and the absolute
    value of a hash: the decimal digits. *)
Definition str (track_id : N) : list ascii :=
  list_ascii_of_string (DecimalString.NilEmpty.string_of_uint (N.to_uint track_id)).

(** [s.zfill(width)]: zeros on the left, after a leading sign. *)
Definition zfill (s : list ascii) (width : nat) : list ascii :=
  if (width <=? List.length s)%nat then s
  else
    let zeros := repeat "0"%char (width - List.length s) in
    match s with
    | c :: rest =>
        if (Ascii.eqb c "+" || Ascii.eqb c "-")%bool then c :: zeros ++ rest else zeros ++ s
    | [] => zeros
    end.

(** [s[a:b]] for [0 <= a <= b]. *)
Definition slice (s : list ascii) (a b : nat) : list ascii := firstn (b - a) (skipn a s).

Definition format_track_id (track_id : N) : list ascii :=
  let track_id_str := zfill (str track_id) 32 in
  firstn 8 track_id_str ++ ["-"%char]
  ++ slice track_id_str 8 12 ++ ["-"%char]
  ++ slice track_id_str 12 16 ++ ["-"%char]
  ++ slice track_id_str 16 20 ++ ["-"%char]
  ++ skipn 20 track_id_str.

(** The [TRACK_ID] of the rows added for the ego vehicle (line 113). *)
Definition ego_track_id : list ascii :=
  list_ascii_of_string "00000000-0000-0000-0000-000000000000".

(** A [Vertex] with its [time] and the coordinates of its
    [Position/WorldPosition], if it has one; a [Trajectory]; a scenario is
    the list of its trajectories in document order. *)
Record vertex := mkVertex {
  v_time : Q;
  v_position : option (Q * Q)
}.

Record trajectory := mkTrajectory {
  tr_name : string;
  tr_vertices : list vertex
}.

(** A row of the CSV file. *)
Record row := mkRow {
  TIMESTAMP : Q;
  TRACK_ID : list ascii;
  OBJECT_TYPE : string;
  X : Q;
  Y : Q;
  CITY_NAME : string
}.

(** [float] of a time attribute: the rational in lowest terms, so that
    equal floats are equal terms, as in a Python set. *)
Definition float (q : Q) : Q := Qred q.

(** [sub in s]. *)
Definition contains (sub s : string) : bool :=
  match String.index 0 sub s with
  | Some _ => true
  | None => false
  end.

(** [all_timestamps.add(time)], the set kept in insertion order. *)
Definition set_add (s : list Q) (time : Q) : list Q :=
  if existsb (Qeq_bool time) s then s else s ++ [time].

(** [list.sort(key=lambda x: x["TIMESTAMP"])]: the stable sort, written as
    the insertion of every row, from the last to the first, before the
    first row that is not earlier. *)
Fixpoint insert (r : row) (l : list row) : list row :=
  match l with
  | [] => [r]
  | r' :: l' =>
      if Qle_bool (TIMESTAMP r) (TIMESTAMP r') then r :: l else r' :: insert r l'
  end.

Definition sort_by_timestamp (l : list row) : list row := fold_right insert [] l.

Section WithHash.
(** Python's [hash] on strings, and the order in which a set yields its
    elements. *)
Variable hash : string -> Z.
Variable iteration : list Q -> list Q.

(** Lines 87-108 of [xosc2csv_batch.py]: the row of one vertex. *)
Definition vertex_rows (trajectory_name : string) (v : vertex) : list row :=
  let time := float (v_time v) in
  match v_position v with
  | Some (x, y) =>
      let object_type :=
        if contains "Ego" trajectory_name then "AV"%string else "AGENT"%string in
      let track_id :=
        if contains "Ego" trajectory_name then 0%N else Z.abs_N (hash trajectory_name) in
      [mkRow time (format_track_id track_id) object_type x y "MIA"]
  | None => []
  end.

Definition trajectory_rows (scenario : list trajectory) : list row :=
  flat_map (fun t => flat_map (vertex_rows (tr_name t)) (tr_vertices t)) scenario.

Definition all_timestamps (scenario : list trajectory) : list Q :=
  fold_left set_add (map TIMESTAMP (trajectory_rows scenario)) [].

Definition ego_row (x_init y_init time : Q) : row :=
  mkRow time ego_track_id "AV" x_init y_init "MIA".

(** [parse_xosc_trajectory] of [xosc2csv_batch.py]; [ego_position] is what
    [extract_ego_position_from_file] has returned, [None] for
    [(None, None)].  The argument [city_name] is overwritten at once. *)
Definition parse_xosc_trajectory (ego_position : option (Q * Q)) (city_name : string)
           (scenario : list trajectory) : list row :=
  let '(x_init, y_init) := get_default ego_position (0, 0) in
  let trajectory_data := trajectory_rows scenario in
  let trajectory_data :=
    trajectory_data ++ map (ego_row x_init y_init) (iteration (all_timestamps scenario)) in
  sort_by_timestamp trajectory_data.

End WithHash.

End Xosc.

(** The rows of a table with the time stamp [time]. *)
Definition rows_at (time : Q) (l : list Xosc.row) : list Xosc.row :=
  filter (fun r => Qeq_bool (Xosc.TIMESTAMP r) time) l.

(** The rows are in the order of their time stamps. *)
Definition by_timestamp (l : list Xosc.row) : Prop :=
  StronglySorted (fun a b => Xosc.TIMESTAMP a <= Xosc.TIMESTAMP b) l.

(** An order in which the set of time stamps of a scenario can be iterated. *)
Definition iterates (hash : string -> Z) (iteration : list Q -> list Q)
           (scenario : list Xosc.trajectory) : Prop :=
  Permutation (iteration (Xosc.all_timestamps hash scenario))
              (Xosc.all_timestamps hash scenario).

(** A decimal digit. *)
Definition is_digit (c : ascii) : bool :=
  existsb (Ascii.eqb c) ["0"; "1"; "2"; "3"; "4"; "5"; "6"; "7"; "8"; "9"]%char.

(** The five groups of a formatted track identifier. *)
Definition track_id_groups (s : list ascii) : list (list ascii) :=
  [firstn 8 s; Xosc.slice s 8 12; Xosc.slice s 12 16; Xosc.slice s 16 20; skipn 20 s].

(** A scenario with an ego trajectory and one other vehicle; the second
    vertex of the vehicle has no world position, and the time 1/2 is
    written in two ways. *)
Definition two_vehicles : list Xosc.trajectory :=
  [ Xosc.mkTrajectory "Ego_trajectory"
      [Xosc.mkVertex 0 (Some (1, 2)); Xosc.mkVertex (1 # 2) (Some (3, 4))];
    Xosc.mkTrajectory "Vehicle_1"
      [Xosc.mkVertex (2 # 4) (Some (5, 6)); Xosc.mkVertex 1 None;
       Xosc.mkVertex 0 (Some (7, 8))] ].

Definition string_length_hash (s : string) : Z := (- Z.of_nat (String.length s))%Z.

(* ================================================================== *)
(** * Properties *)

Import Examples.

(** ** Lists and loops *)

Lemma fold_left_ext_in {A S : Type} (f g : S -> A -> S) (l : list A) :
  (forall a, In a l -> forall s, f s a = g s a) ->
  forall s, fold_left f l s = fold_left g l s.
Proof.
  induction l as [|a l IH]; intros H s; simpl.
  - reflexivity.
  - rewrite (H a (or_introl eq_refl)). apply IH.
    intros b Hb. apply H. right. exact Hb.
Qed.

Lemma flat_map_ext_in {A B : Type} (f g : A -> list B) (l : list A) :
  (forall a, In a l -> f a = g a) -> flat_map f l = flat_map g l.
Proof.
  induction l as [|a l IH]; intros H; simpl.
  - reflexivity.
  - rewrite (H a (or_introl eq_refl)). f_equal. apply IH.
    intros b Hb. apply H. right. exact Hb.
Qed.

(** ** The scripts use [cos] and [sin] only at the headings of the document *)

Section TrigExt.
Variables cos sin cos' sin' : Q -> Q.

Lemma area_bounds_ext (doc : document) :
  trig_agree cos sin cos' sin' doc ->
  Area.calculate_map_bounds cos sin doc = Area.calculate_map_bounds cos' sin' doc.
Proof.
  intros H. unfold Area.calculate_map_bounds, Area.bounds_scan.
  rewrite (fold_left_ext_in (Area.bounds_road cos sin) (Area.bounds_road cos' sin')).
  - reflexivity.
  - intros r Hr s. unfold Area.bounds_road. f_equal.
    apply fold_left_ext_in. intros g Hg [[[a b] c] d].
    unfold Area.bounds_geometry.
    destruct (H r g Hr Hg) as [-> ->]. reflexivity.
Qed.

Lemma area_lane_cells_ext res xs ys hdg len l :
  cos hdg = cos' hdg -> sin hdg = sin' hdg ->
  Area.lane_cells cos sin res xs ys hdg len l
  = Area.lane_cells cos' sin' res xs ys hdg len l.
Proof.
  intros Hc Hs. unfold Area.lane_cells. rewrite Hc, Hs. reflexivity.
Qed.

Lemma area_document_cells_ext res ox oy (doc : document) :
  trig_agree cos sin cos' sin' doc ->
  Area.document_cells cos sin res ox oy doc
  = Area.document_cells cos' sin' res ox oy doc.
Proof.
  intros H. unfold Area.document_cells.
  apply flat_map_ext_in. intros r Hr.
  apply flat_map_ext_in. intros g Hg.
  destruct (H r g Hr Hg) as [Hc Hs].
  apply flat_map_ext_in. intros ls _.
  apply flat_map_ext_in. intros l _.
  apply area_lane_cells_ext; assumption.
Qed.

Lemma area_parse_ext (doc : document) (res : Q) :
  trig_agree cos sin cos' sin' doc ->
  Area.parse_xodr_to_driveable_area cos sin doc res
  = Area.parse_xodr_to_driveable_area cos' sin' doc res.
Proof.
  intros H. unfold Area.parse_xodr_to_driveable_area.
  destruct (Qeq_bool res 0); [reflexivity|].
rewrite (area_bounds_ext doc H).
  destruct (Area.calculate_map_bounds cos' sin' doc) as [[[a b] c] d].
  rewrite (area_document_cells_ext _ _ _ doc H). reflexivity.
Qed.

Lemma bbox_table_ext (doc : document) :
  trig_agree cos sin cos' sin' doc ->
  BBox.xodr_to_bbox_table cos sin doc = BBox.xodr_to_bbox_table cos' sin' doc.
Proof.
  intros H. unfold BBox.xodr_to_bbox_table.
  apply flat_map_ext_in. intros r Hr.
  apply map_ext_in. intros g Hg. unfold BBox.bbox_row.
  destruct (H r g Hr Hg) as [-> ->]. reflexivity.
Qed.

End TrigExt.

Lemma straight_road_trig (cos sin : Q -> Q) :
  cos 0 = 1 -> sin 0 = 0 ->
  trig_agree cos sin cos_approx sin_approx straight_road.
Proof.
  intros Hc Hs r g [<-|[]] [<-|[]]. simpl. rewrite Hc, Hs. split; reflexivity.
Qed.

(** ** The straight-road scenario *)

(** C1: on one road with a single primitive at the origin, heading 0 and
    length 10, carrying one driving lane of width 3.5, at resolution 0.5,
    the map bounds are (-3.5, 13.5, -3.5, 3.5), the occupancy grid has a cell
    set to 1, and the bounding-box table is the single row
    [-1.75, -1.75, 11.75, 1.75]. *)
Theorem C1_straight_road_scenario (cos sin : Q -> Q) :
  cos 0 = 1 -> sin 0 = 0 ->
  bounds_eq (Area.calculate_map_bounds cos sin straight_road)
            (-(35 # 10), 135 # 10, -(35 # 10), 35 # 10)
  /\ (exists grid T,
        Area.parse_xodr_to_driveable_area cos sin straight_road (1 # 2) = Some (grid, T)
        /\ exists row col, Grid.get grid row col 0%Z = 1%Z)
  /\ table_eq (BBox.xodr_to_bbox_table cos sin straight_road)
              [[-(175 # 100); -(175 # 100); 1175 # 100; 175 # 100]].
Proof.
  intros Hc Hs.
  pose proof (straight_road_trig cos sin Hc Hs) as H.
  rewrite (area_bounds_ext _ _ _ _ _ H), (area_parse_ext _ _ _ _ _ (1 # 2) H),
          (bbox_table_ext _ _ _ _ _ H).
  split; [|split].
  - vm_compute. repeat split; reflexivity.
  - destruct (Area.parse_xodr_to_driveable_area cos_approx sin_approx straight_road (1 # 2))
      as [[grid T]|] eqn:E; [|vm_compute in E; discriminate].
    exists grid, T. split; [reflexivity|].
    exists 0%Z, 7%Z.
    vm_compute in E. injection E as <- _. reflexivity.
  - repeat constructor.
Qed.

Lemma C1_straight_road_scenario_witness :
  cos_approx 0 = 1 /\ sin_approx 0 = 0
  /\ bounds_eq (Area.calculate_map_bounds cos_approx sin_approx straight_road)
               (-(35 # 10), 135 # 10, -(35 # 10), 35 # 10).
Proof.
  split; [reflexivity|]. split; [reflexivity|].
  apply (C1_straight_road_scenario cos_approx sin_approx); reflexivity.
Defined.

(** ** Bounds contain the reference line *)

Section Bounds.
Variables cos sin : Q -> Q.

Lemma bounds_geometry_start acc g :
  covers (Area.bounds_geometry cos sin acc g) (g_x g) (g_y g).
Proof.
  destruct acc as [[[[a|] [b|]] [c|]] [d|]]; simpl;
    repeat split;
    eauto using Qle_trans, Q.le_min_l, Q.le_min_r, Q.le_max_l, Q.le_max_r.
Qed.

Lemma bounds_geometry_end acc g :
  covers (Area.bounds_geometry cos sin acc g) (x_end cos g) (y_end sin g).
Proof.
  destruct acc as [[[[a|] [b|]] [c|]] [d|]]; simpl;
    repeat split; auto using Q.le_min_r, Q.le_max_r.
Qed.

Lemma bounds_geometry_mono acc g x y :
  covers acc x y -> covers (Area.bounds_geometry cos sin acc g) x y.
Proof.
  destruct acc as [[[[a|] [b|]] [c|]] [d|]]; simpl; try tauto.
  intros (H1 & H2 & H3 & H4).
  repeat split;
    eauto using Qle_trans, Q.le_min_l, Q.le_max_l.
Qed.

Lemma bounds_lane_mono ls acc l x y :
  covers acc x y -> covers (Area.bounds_lane ls acc l) x y.
Proof.
  destruct acc as [[[[a|] [b|]] [c|]] [d|]]; simpl; try tauto.
  intros (H1 & H2 & H3 & H4).
  pose proof (Qabs_nonneg (get_default (ls_laneOffset_a ls) 0)).
  pose proof (Qabs_nonneg (get_default (lane_width_a l) 0)).
  unfold Py.abs. repeat split; lra.
Qed.

Lemma fold_geometry_mono gs acc x y :
  covers acc x y -> covers (fold_left (Area.bounds_geometry cos sin) gs acc) x y.
Proof.
  revert acc. induction gs as [|g gs IH]; intros acc H; simpl; auto.
  apply IH, bounds_geometry_mono, H.
Qed.

Lemma fold_lanes_mono lss acc x y :
  covers acc x y ->
  covers (fold_left (fun a ls => fold_left (Area.bounds_lane ls) (ls_lanes ls) a) lss acc) x y.
Proof.
  revert acc. induction lss as [|ls lss IH]; intros acc H; simpl; auto.
  apply IH. generalize dependent acc.
  induction (ls_lanes ls) as [|l ll IHl]; intros acc H; simpl; auto.
  apply IHl, bounds_lane_mono, H.
Qed.

Lemma bounds_road_mono acc r x y :
  covers acc x y -> covers (Area.bounds_road cos sin acc r) x y.
Proof.
  intros H. unfold Area.bounds_road. apply fold_lanes_mono, fold_geometry_mono, H.
Qed.

Lemma fold_roads_mono doc acc x y :
  covers acc x y -> covers (fold_left (Area.bounds_road cos sin) doc acc) x y.
Proof.
  revert acc. induction doc as [|r doc IH]; intros acc H; simpl; auto.
  apply IH, bounds_road_mono, H.
Qed.

Lemma fold_geometry_covers gs acc g :
  In g gs ->
  covers (fold_left (Area.bounds_geometry cos sin) gs acc) (g_x g) (g_y g)
  /\ covers (fold_left (Area.bounds_geometry cos sin) gs acc) (x_end cos g) (y_end sin g).
Proof.
  revert acc. induction gs as [|g' gs IH]; intros acc Hin; [contradiction|].
  destruct Hin as [->|H]; simpl.
  - split; apply fold_geometry_mono.
    + apply bounds_geometry_start.
    + apply bounds_geometry_end.
  - apply IH, H.
Qed.

Lemma bounds_scan_covers doc r g :
  In r doc -> In g (r_geometry r) ->
  covers (Area.bounds_scan cos sin doc) (g_x g) (g_y g)
  /\ covers (Area.bounds_scan cos sin doc) (x_end cos g) (y_end sin g).
Proof.
  unfold Area.bounds_scan. generalize (@None Q, @None Q, @None Q, @None Q).
  induction doc as [|r' doc IH]; intros acc Hin Hg; [contradiction|].
  destruct Hin as [->|Hr]; simpl.
  - destruct (fold_geometry_covers (r_geometry r) acc g Hg) as [Hs He].
    split; apply fold_roads_mono; unfold Area.bounds_road; apply fold_lanes_mono; assumption.
  - apply IH; assumption.
Qed.

Lemma covers_map_bounds doc x y :
  covers (Area.bounds_scan cos sin doc) x y ->
  let '(min_x, max_x, min_y, max_y) := Area.calculate_map_bounds cos sin doc in
  min_x <= x /\ x <= max_x /\ min_y <= y /\ y <= max_y.
Proof.
  unfold Area.calculate_map_bounds.
  destruct (Area.bounds_scan cos sin doc) as [[[[a|] [b|]] [c|]] [d|]]; simpl; tauto.
Qed.

End Bounds.

(** C6: when the road set has a geometry primitive, the bounds are ordered,
    contain the start and end point of every primitive, and the translation
    matrix maps each such point to non-negative coordinates and the corner
    (minX, minY) to the origin. *)
Theorem C6_bounds_enclose_and_translate (cos sin : Q -> Q) (doc : document) :
  (exists r g, In r doc /\ In g (r_geometry r)) ->
  let '(min_x, max_x, min_y, max_y) := Area.calculate_map_bounds cos sin doc in
  let T := Area.calculate_transform_matrix min_x min_y in
  min_x <= max_x /\ min_y <= max_y
  /\ (forall r g px py,
        In r doc -> In g (r_geometry r) ->
        (px, py) = (g_x g, g_y g) \/ (px, py) = (x_end cos g, y_end sin g) ->
        (min_x <= px <= max_x /\ min_y <= py <= max_y)
        /\ Forall2 Qeq (mat_vec T [px; py; 1]) [px - min_x; py - min_y; 1]
        /\ Forall (Qle 0) (mat_vec T [px; py; 1]))
  /\ Forall2 Qeq (mat_vec T [min_x; min_y; 1]) [0; 0; 1].
Proof.
  intros (r0 & g0 & Hr0 & Hg0).
  assert (Hall : forall r g, In r doc -> In g (r_geometry r) ->
            covers (Area.bounds_scan cos sin doc) (g_x g) (g_y g)
            /\ covers (Area.bounds_scan cos sin doc) (x_end cos g) (y_end sin g))
    by (intros; eapply bounds_scan_covers; eassumption).
  pose proof (covers_map_bounds cos sin doc) as Hc.
  destruct (Area.calculate_map_bounds cos sin doc) as [[[min_x max_x] min_y] max_y].
  cbv zeta.
  destruct (Hall r0 g0 Hr0 Hg0) as [H0 _]. apply Hc in H0.
  split; [lra|]. split; [lra|]. split.
  - intros r g px py Hr Hg Hp.
    assert (Hin : min_x <= px /\ px <= max_x /\ min_y <= py /\ py <= max_y).
    { destruct (Hall r g Hr Hg) as [Hs He].
      destruct Hp as [Hp|Hp]; injection Hp as -> ->; apply Hc; assumption. }
    split; [lra|].
    unfold mat_vec, dot, Area.calculate_transform_matrix; simpl.
    split; repeat constructor; lra.
  - unfold mat_vec, dot, Area.calculate_transform_matrix; simpl.
    repeat constructor; lra.
Qed.

Lemma C6_bounds_enclose_and_translate_witness :
  let '(min_x, max_x, min_y, max_y) :=
    Area.calculate_map_bounds cos_approx sin_approx straight_road in
  min_x <= max_x /\ min_y <= max_y.
Proof.
  pose proof (C6_bounds_enclose_and_translate cos_approx sin_approx straight_road) as H.
  destruct (Area.calculate_map_bounds cos_approx sin_approx straight_road)
    as [[[min_x max_x] min_y] max_y].
  assert (Hex : exists r g, In r straight_road /\ In g (r_geometry r)).
  { exists (mkRoad [mkGeometry 0 0 0 10 None]
                   [mkLaneSection None [driving_lane (35 # 10)]] None None),
           (mkGeometry 0 0 0 10 None).
    split; left; reflexivity. }
  destruct (H Hex) as (H1 & H2 & _). split; assumption.
Defined.

(** ** Grids *)

Lemma upd_length {A} (f : A -> A) (l : list A) n : List.length (Grid.upd n f l) = List.length l.
Proof.
  revert n. induction l as [|a l IH]; intros [|n]; simpl; auto.
Qed.

Lemma nth_upd_same {A} (f : A -> A) (l : list A) n d :
  (n < List.length l)%nat -> nth n (Grid.upd n f l) d = f (nth n l d).
Proof.
  revert n. induction l as [|a l IH]; intros [|n] H; simpl in *; try lia; auto.
  apply IH. lia.
Qed.

Lemma nth_upd_other {A} (f : A -> A) (l : list A) n m d :
  n <> m -> nth m (Grid.upd n f l) d = nth m l d.
Proof.
  revert n m. induction l as [|a l IH]; intros [|n] [|m] H; simpl; auto; try congruence.
Qed.

Lemma upd_Forall {A} (P : A -> Prop) (f : A -> A) (l : list A) n :
  (forall a, P a -> P (f a)) -> Forall P l -> Forall P (Grid.upd n f l).
Proof.
  intros Hf. revert n. induction l as [|a l IH]; intros [|n] H; simpl; auto;
    inversion H; subst; constructor; auto.
Qed.

Lemma in_range_dec rows cols (rc : Z * Z) :
  ((0 <=? snd rc)%Z && (snd rc <? cols)%Z && (0 <=? fst rc)%Z && (fst rc <? rows)%Z)%bool = true
  <-> in_range rows cols rc.
Proof.
  unfold in_range. rewrite !andb_true_iff, !Z.leb_le, !Z.ltb_lt. lia.
Qed.

Lemma cell_eqb_eq a b : cell_eqb a b = true <-> a = b.
Proof.
  destruct a, b. unfold cell_eqb. simpl. rewrite andb_true_iff, !Z.eqb_eq.
  split; [intros [-> ->]; reflexivity | intros [= -> ->]; auto].
Qed.

Section GridFacts.
Context {A : Type}.
Implicit Types (g : Grid.t A) (v d : A).

Lemma full_shape rows cols v g :
  Grid.full rows cols v = Some g -> shape g rows cols.
Proof.
  unfold Grid.full. destruct (_ || _); intros [= <-].
  split; [apply repeat_length|].
  apply Forall_forall. intros row H. apply repeat_spec in H. subst.
  apply repeat_length.
Qed.

Lemma full_get rows cols v g rc d :
  Grid.full rows cols v = Some g -> in_range rows cols rc ->
  Grid.get g (fst rc) (snd rc) d = v.
Proof.
  unfold Grid.full, Grid.get, in_range. destruct (_ || _); intros [= <-] [Hr Hc].
  replace ((fst rc <? 0)%Z || (snd rc <? 0)%Z) with false
    by (symmetry; apply orb_false_iff; rewrite !Z.ltb_ge; lia).
  rewrite (nth_indep _ [] (repeat v (Z.to_nat cols)))
    by (rewrite repeat_length; lia).
  rewrite nth_repeat. 
  destruct (Nat.lt_ge_cases (Z.to_nat (snd rc)) (Z.to_nat cols)) as [H|H]; [|lia].
  rewrite (nth_indep _ d v) by (rewrite repeat_length; lia).
  apply nth_repeat.
Qed.

Lemma full_some rows cols v :
  (0 <= rows)%Z -> (0 <= cols)%Z -> exists g, Grid.full rows cols v = Some g.
Proof.
  intros Hr Hc. unfold Grid.full.
  replace ((rows <? 0)%Z || (cols <? 0)%Z) with false
    by (symmetry; apply orb_false_iff; rewrite !Z.ltb_ge; lia).
  eexists; reflexivity.
Qed.

Lemma set_shape g rows cols r c v :
  shape g rows cols -> shape (Grid.set g r c v) rows cols.
Proof.
  intros [Hl Hf]. split; unfold Grid.set.
  - rewrite upd_length. exact Hl.
  - apply upd_Forall; [|exact Hf]. intros row H. rewrite upd_length. exact H.
Qed.

Lemma write_shape g rows cols v rc :
  shape g rows cols -> shape (Grid.write rows cols v g rc) rows cols.
Proof.
  intros H. unfold Grid.write. destruct rc as [r c].
  destruct (_ && _); [apply set_shape|]; exact H.
Qed.

Lemma get_set_same g rows cols rc v d :
  shape g rows cols -> in_range rows cols rc ->
  Grid.get (Grid.set g (fst rc) (snd rc) v) (fst rc) (snd rc) d = v.
Proof.
  intros [Hl Hf] [Hr Hc]. unfold Grid.get, Grid.set.
  replace ((fst rc <? 0)%Z || (snd rc <? 0)%Z) with false
    by (symmetry; apply orb_false_iff; rewrite !Z.ltb_ge; lia).
  rewrite nth_upd_same by lia.
  apply nth_upd_same.
  rewrite Forall_forall in Hf. rewrite (Hf (nth (Z.to_nat (fst rc)) g [])).
  - lia.
  - apply nth_In. lia.
Qed.

Lemma get_set_other g r c r' c' v d :
  (0 <= r)%Z -> (0 <= c)%Z -> (r, c) <> (r', c') ->
  Grid.get (Grid.set g r c v) r' c' d = Grid.get g r' c' d.
Proof.
  intros Hr Hc Hne. unfold Grid.get, Grid.set.
  destruct ((r' <? 0)%Z || (c' <? 0)%Z) eqn:E; [reflexivity|].
  apply orb_false_iff in E. rewrite !Z.ltb_ge in E.
  destruct (Z.eq_dec r r') as [->|Hrr].
  - destruct (Nat.lt_ge_cases (Z.to_nat r') (List.length g)) as [Hlt|Hge].
    + rewrite nth_upd_same by exact Hlt.
      apply nth_upd_other. intros Heq. apply Hne. f_equal. lia.
    + rewrite !(nth_overflow _ []); rewrite ?upd_length; auto.
  - rewrite nth_upd_other; [reflexivity|]. lia.
Qed.

(** A guarded write changes the cell it names and no other. *)
Lemma get_write g rows cols v rc cell d :
  shape g rows cols -> in_range rows cols cell ->
  Grid.get (Grid.write rows cols v g rc) (fst cell) (snd cell) d
  = if cell_eqb rc cell then v else Grid.get g (fst cell) (snd cell) d.
Proof.
  intros Hs Hin. unfold Grid.write. destruct rc as [r c].
  destruct (cell_eqb (r, c) cell) eqn:E.
  - apply cell_eqb_eq in E. subst cell.
    pose proof (proj2 (in_range_dec rows cols (r, c)) Hin) as Hb. simpl in Hb.
    rewrite Hb. apply (get_set_same g rows cols (r, c)); assumption.
  - destruct (_ && _) eqn:Hb; [|reflexivity].
    apply (in_range_dec rows cols (r, c)) in Hb. destruct Hb as [Hr Hc]. simpl in Hr, Hc.
    apply get_set_other; try lia.
    intros Heq. destruct cell. simpl in *. 
    assert (cell_eqb (r, c) (z, z0) = true) by (apply cell_eqb_eq; exact Heq).
    congruence.
Qed.

(** A sequence of guarded writes leaves in every cell the value of the
    last write that names it. *)
Lemma get_fold_write {V} (f : V -> A) rows cols (ws : list ((Z * Z) * V)) g cell d :
  shape g rows cols -> in_range rows cols cell ->
  Grid.get (fold_left (fun g w => Grid.write rows cols (f (snd w)) g (fst w)) ws g)
           (fst cell) (snd cell) d
  = match last_write ws cell with
    | Some v => f v
    | None => Grid.get g (fst cell) (snd cell) d
    end.
Proof.
  intros Hs Hin. revert g Hs. induction ws as [|[c v] ws IH]; intros g Hs; simpl.
  - reflexivity.
  - rewrite IH by (apply write_shape; exact Hs).
    destruct (last_write ws cell); [reflexivity|].
    rewrite (get_write g rows cols) by assumption.
    destruct (cell_eqb c cell); reflexivity.
Qed.

Lemma fold_write_shape {V} (f : V -> A) rows cols (ws : list ((Z * Z) * V)) g :
  shape g rows cols ->
  shape (fold_left (fun g w => Grid.write rows cols (f (snd w)) g (fst w)) ws g) rows cols.
Proof.
  revert g. induction ws as [|w ws IH]; intros g Hs; simpl; auto.
  apply IH, write_shape, Hs.
Qed.

End GridFacts.


Lemma last_write_none {V} (ws : list ((Z * Z) * V)) cell :
  last_write ws cell = None <-> ~ In cell (map fst ws).
Proof.
  induction ws as [|[c v] ws IH]; simpl.
  - tauto.
  - destruct (last_write ws cell) eqn:E.
    + split; [discriminate|]. intros H. exfalso.
      assert (Hn : ~ In cell (map fst ws)) by tauto.
      apply IH in Hn. discriminate.
    + destruct (cell_eqb c cell) eqn:Ec.
      * apply cell_eqb_eq in Ec. split; [discriminate|]. tauto.
      * split; [|reflexivity]. intros _ [H|H].
        -- apply cell_eqb_eq in H. congruence.
        -- apply IH in H; auto.
Qed.

Lemma last_write_const {V} (ws : list ((Z * Z) * V)) cell v u :
  (forall w, In w ws -> snd w = v) -> last_write ws cell = Some u -> u = v.
Proof.
  induction ws as [|[c x] ws IH]; simpl; intros H E.
  - discriminate.
  - destruct (last_write ws cell) eqn:E'.
    + injection E as <-. apply IH; auto.
    + destruct (cell_eqb c cell); [|discriminate].
      injection E as <-. apply (H (c, x)). left. reflexivity.
Qed.

(** ** Height grids: the last write wins *)




Section HeightFacts.
Variables cos sin : Q -> Q.
Variables res min_x min_y : Q.





End HeightFacts.



(** ** A document without roads *)

(** C8: a document with zero roads gives the fallback bounds (0, 1, 0, 1), a
    2 x 2 grid of zeros at resolution 0.5, and a vector map without nodes and
    without ways. *)
Theorem C8_document_without_roads (cos sin : Q -> Q) (draws existing_lane_ids : list Z) :
  Area.calculate_map_bounds cos sin [] = (0, 1, 0, 1)
  /\ (exists T, Area.parse_xodr_to_driveable_area cos sin [] (1 # 2)
                = Some ([[0%Z; 0%Z]; [0%Z; 0%Z]], T))
  /\ (exists st, Lanid.parse_xodr_to_vector_map [] draws existing_lane_ids = Some st
                 /\ Lanid.p_nodes st = [] /\ Lanid.p_ways st = [] /\ Lanid.p_mapping st = []).
Proof.
  split; [reflexivity|]. split.
  - eexists. reflexivity.
  - eexists. split; [reflexivity|]. simpl. auto.
Qed.

(** ** Bounding boxes *)

(** C10: a row is the start point minus half the nominal width 3.5 followed
    by the end point plus half the nominal width, in that order and without
    sorting; so a primitive whose cosine of the heading is -1 (heading pi)
    and whose length exceeds 3.5 gets a row with xMin > xMax, and such a row
    exists as soon as some heading has a negative cosine. *)
Theorem C10_bbox_corners_unsorted (cos sin : Q -> Q) :
  (forall g,
      BBox.bbox_row cos sin g
      = [ g_x g - (35 # 10) / 2; g_y g - (35 # 10) / 2;
          x_end cos g + (35 # 10) / 2; y_end sin g + (35 # 10) / 2 ])
  /\ (forall g, cos (g_hdg g) == -(1) -> 35 # 10 < g_length g ->
        nth 2 (BBox.bbox_row cos sin g) 0 < nth 0 (BBox.bbox_row cos sin g) 0)
  /\ ((exists h, cos h < 0) ->
      exists g, nth 2 (BBox.bbox_row cos sin g) 0 < nth 0 (BBox.bbox_row cos sin g) 0).
Proof.
  split; [reflexivity|]. split.
  - intros g Hc Hl. unfold BBox.bbox_row. cbn [nth].
    assert (E : (35 # 10) / 2 == 175 # 100) by reflexivity.
    rewrite Hc, E. lra.
  - intros [h Hh]. exists (mkGeometry 0 0 h (- (4 / cos h)) None).
    unfold BBox.bbox_row. cbn [nth g_x g_y g_hdg g_length].
    assert (E : - (4 / cos h) * cos h == - (4)) by (field; lra).
    assert (E' : (35 # 10) / 2 == 175 # 100) by reflexivity.
    rewrite E, E'. lra.
Qed.

Lemma C10_bbox_corners_unsorted_witness :
  exists g, nth 2 (BBox.bbox_row cos_approx sin_approx g) 0
            < nth 0 (BBox.bbox_row cos_approx sin_approx g) 0.
Proof.
  apply (C10_bbox_corners_unsorted cos_approx sin_approx).
  exists (314159 # 100000). vm_compute. reflexivity.
Defined.

(** ** Grid allocation *)

Lemma py_int_nonneg (q : Q) : 0 <= q -> Py.int q = Qfloor q /\ (0 <= Py.int q)%Z.
Proof.
  destruct q as [n d]. unfold Qle, Py.int, Qfloor. simpl. intros H.
  assert (Hn : (0 <= n)%Z) by lia.
  rewrite Z.quot_div_nonneg by lia.
  split; [reflexivity|]. apply Z.div_pos; lia.
Qed.


Lemma positive_not_zero (res : Q) : 0 < res -> Qeq_bool res 0 = false.
Proof.
  intros H. destruct (Qeq_bool res 0) eqn:E; [|reflexivity].
  apply Qeq_bool_iff in E. lra.
Qed.

Lemma quotient_nonneg (a res : Q) : 0 <= a -> 0 < res -> 0 <= a / res.
Proof.
  intros Ha Hr. unfold Qdiv. apply Qmult_le_0_compat; [exact Ha|].
  apply Qlt_le_weak, Qinv_lt_0_compat, Hr.
Qed.

Lemma ceiling_nonneg (q : Q) : 0 <= q -> (0 <= Qceiling q)%Z.
Proof.
  intros H. pose proof (Qle_ceiling q) as H1.
  assert (Ha : 0 <= inject_Z (Qceiling q)) by lra.
  change 0 with (inject_Z 0) in Ha.
  rewrite <- Zle_Qle in Ha. exact Ha.
Qed.

Section Ordered.
Variables cos sin : Q -> Q.

Lemma bounds_geometry_ordered acc g :
  ordered_or_empty acc -> ordered_or_empty (Area.bounds_geometry cos sin acc g).
Proof.
  intros _.
  pose proof (bounds_geometry_start cos sin acc g) as H.
  destruct (Area.bounds_geometry cos sin acc g) as [[[[a|] [b|]] [c|]] [d|]];
    simpl in *; try contradiction. lra.
Qed.







End Ordered.

Lemma fold_write_cells {A} rows cols (v : A) (cells : list (Z * Z)) (g : Grid.t A) :
  fold_left (Grid.write rows cols v) cells g
  = fold_left (fun g w => Grid.write rows cols (snd w) g (fst w))
              (map (fun c => (c, v)) cells) g.
Proof.
  revert g. induction cells as [|c cells IH]; intros g; simpl; auto.
Qed.

Lemma fold_write_cells_shape {A} rows cols (v : A) (cells : list (Z * Z)) (g : Grid.t A) :
  shape g rows cols -> shape (fold_left (Grid.write rows cols v) cells g) rows cols.
Proof.
  intros H. rewrite fold_write_cells.
  apply (fold_write_shape (fun x : A => x)), H.
Qed.




(** ** The cells the occupancy rasterizers write *)

Lemma in_range_iff n i : In i (Py.range n) <-> (0 <= i < n)%Z.
Proof.
  unfold Py.range. rewrite in_map_iff. split.
  - intros (k & <- & Hk). apply in_seq in Hk. lia.
  - intros H. exists (Z.to_nat i). split; [lia|]. apply in_seq. lia.
Qed.


Lemma get_out_of_range {A} (g : Grid.t A) rows cols r c d :
  shape g rows cols -> ~ in_range rows cols (r, c) -> Grid.get g r c d = d.
Proof.
  intros [Hl Hf] Hn. unfold Grid.get, in_range in *. simpl in Hn.
  destruct ((r <? 0)%Z || (c <? 0)%Z) eqn:E; [reflexivity|].
  apply orb_false_iff in E. rewrite !Z.ltb_ge in E.
  destruct (Z_lt_ge_dec r rows) as [Hr|Hr].
  - apply nth_overflow. rewrite Forall_forall in Hf.
    rewrite (Hf (nth (Z.to_nat r) g [])); [lia|]. apply nth_In. lia.
  - rewrite (nth_overflow g) by lia. destruct (Z.to_nat c); reflexivity.
Qed.

(** After the writes of a rasterizer on the zero grid, a cell is 1 exactly
    when it is in range and one of the cells written. *)
Lemma occupancy_cell rows cols (cells : list (Z * Z)) zeros r c :
  Grid.full rows cols 0%Z = Some zeros ->
  Grid.get (fold_left (Grid.write rows cols 1%Z) cells zeros) r c 0%Z = 1%Z
  <-> in_range rows cols (r, c) /\ In (r, c) cells.
Proof.
  intros Hz. pose proof (full_shape _ _ _ _ Hz) as Hs.
  assert (Hd : in_range rows cols (r, c) \/ ~ in_range rows cols (r, c))
    by (unfold in_range; simpl; lia).
  destruct Hd as [Hin|Hout].
  2: { rewrite (get_out_of_range _ rows cols r c 0%Z
                  (fold_write_cells_shape rows cols 1%Z cells zeros Hs) Hout).
       split; [discriminate|tauto]. }
  rewrite fold_write_cells.
  pose proof (get_fold_write (fun x : Z => x) rows cols
                (map (fun c0 => (c0, 1%Z)) cells) zeros (r, c) 0%Z Hs Hin) as E.
  simpl in E. rewrite E. clear E.
  destruct (last_write (map (fun c0 => (c0, 1%Z)) cells) (r, c)) as [u|] eqn:El.
  - assert (u = 1%Z).
    { eapply last_write_const; [|exact El].
      intros w Hw. apply in_map_iff in Hw. destruct Hw as (x & <- & _). reflexivity. }
    subst u. split; [|reflexivity]. intros _. split; [exact Hin|].
    destruct (in_dec (fun a b : Z * Z =>
                        ltac:(decide equality; apply Z.eq_dec) : {a = b} + {a <> b})
                     (r, c) cells) as [H|H]; [exact H|].
    exfalso. assert (Hn : last_write (map (fun c0 => (c0, 1%Z)) cells) (r, c) = None).
    { apply last_write_none. rewrite map_map. simpl. rewrite map_id. exact H. }
    congruence.
  - pose proof (full_get rows cols 0%Z zeros (r, c) 0%Z Hz Hin) as Eg.
    simpl in Eg. rewrite Eg.
    split; [discriminate|]. intros [_ H]. exfalso.
    apply last_write_none in El. apply El.
    rewrite map_map. simpl. rewrite map_id. exact H.
Qed.

Section Cells.
Variables cos sin : Q -> Q.
Variable res : Q.





End Cells.






(** ** Synthetic lane identifiers *)

Lemma id_in_iff id ex : id_in id ex = true <-> In id ex.
Proof.
  unfold id_in. rewrite existsb_exists. split.
  - intros (x & Hx & E). apply Z.eqb_eq in E. subst. exact Hx.
  - intros H. exists id. split; [exact H|apply Z.eqb_refl].
Qed.

(** What a returning call of [generate_unique_lane_id] guarantees. *)
Lemma generate_spec draws ex id draws' ex' :
  generate_unique_lane_id draws ex = Some (id, draws', ex') ->
  ex' = id :: ex /\ ~ In id ex /\ exists skipped, draws = skipped ++ id :: draws'.
Proof.
  revert id draws' ex'. induction draws as [|d draws IH]; intros id draws' ex'; simpl.
  - discriminate.
  - destruct (id_in d ex) eqn:E; simpl.
    + intros H. destruct (IH _ _ _ H) as (H1 & H2 & sk & H3).
      split; [exact H1|]. split; [exact H2|]. exists (d :: sk). simpl. congruence.
    + intros [= <- <- <-]. split; [reflexivity|]. split.
      * intros H. apply id_in_iff in H. congruence.
      * exists []. reflexivity.
Qed.

(** The loop returns as soon as a draw is not yet in the set. *)
Lemma generate_returns draws ex d :
  In d draws -> ~ In d ex -> exists r, generate_unique_lane_id draws ex = Some r.
Proof.
  induction draws as [|x draws IH]; intros Hin Hn; [contradiction|]. simpl.
  destruct (id_in x ex) eqn:E; simpl.
  - destruct Hin as [->|Hin].
    + apply id_in_iff in E. contradiction.
    + apply IH; assumption.
  - eexists. reflexivity.
Qed.

Lemma generate_range draws ex id draws' ex' :
  Forall in_id_range draws ->
  generate_unique_lane_id draws ex = Some (id, draws', ex') ->
  in_id_range id /\ Forall in_id_range draws'.
Proof.
  intros Hf H. apply generate_spec in H. destruct H as (_ & _ & sk & ->).
  apply Forall_app in Hf. destruct Hf as [_ Hf]. inversion Hf; subst. auto.
Qed.

Lemma foldM_inv {A S : Type} (P : S -> Prop) (f : S -> A -> option S) (l : list A) :
  (forall a s s', In a l -> P s -> f s a = Some s' -> P s') ->
  forall s s', P s -> foldM f l s = Some s' -> P s'.
Proof.
  induction l as [|a l IH]; intros Hstep s s' Hs; simpl.
  - intros [= <-]. exact Hs.
  - destruct (f s a) as [s1|] eqn:E; [|discriminate].
    apply IH.
    + intros b t t' Hb. apply Hstep. right. exact Hb.
    + eapply Hstep; [left; reflexivity|exact Hs|exact E].
Qed.

Lemma foldM_app {A S : Type} (f : S -> A -> option S) (l1 l2 : list A) (s : S) :
  foldM f (l1 ++ l2) s
  = match foldM f l1 s with Some s1 => foldM f l2 s1 | None => None end.
Proof.
  revert s. induction l1 as [|a l1 IH]; intros s; simpl; [reflexivity|].
  destruct (f s a); [apply IH|reflexivity].
Qed.

Lemma ids_ok_step e0 ids existing draws id draws' existing' :
  ids_ok e0 ids existing draws ->
  generate_unique_lane_id draws existing = Some (id, draws', existing') ->
  ids_ok e0 (ids ++ [id]) existing' draws'.
Proof.
  intros (Hr & Hn & Hin & Hinc & Hd) Hg.
  destruct (generate_range _ _ _ _ _ Hd Hg) as [Hid Hd'].
  apply generate_spec in Hg. destruct Hg as (-> & Hfresh & _).
  repeat split.
  - apply Forall_app. split; [exact Hr|]. constructor; [exact Hid|constructor].
  - apply NoDup_app; [exact Hn|repeat constructor; intros []|].
    intros x Hx [E|[]]. subst x. apply Hfresh, (Hin id Hx).
  - apply in_app_or in H. destruct H as [H|[<-|[]]].
    + right. apply (Hin id0 H).
    + left. reflexivity.
  - apply in_app_or in H. destruct H as [H|[<-|[]]].
    + apply (Hin id0 H).
    + intros H. apply Hfresh, Hinc, H.
  - intros x Hx. right. apply Hinc, Hx.
  - exact Hd'.
Qed.

Section LanidFacts.
Import Lanid.

Lemma lanid_geometry_fold gs rg st :
  let '(rg', st') := fold_left geometry_step gs (rg, st) in
  p_ways st' = p_ways st /\ p_mapping st' = p_mapping st
  /\ p_table_idx st' = p_table_idx st
  /\ p_draws st' = p_draws st /\ p_existing st' = p_existing st.
Proof.
  revert rg st. induction gs as [|g gs IH]; intros rg st; simpl.
  - auto.
  - specialize (IH (rg ++ [mkNode (p_node_id st) (g_x g) (g_y g)])
                   (mkP (p_nodes st ++ [mkNode (p_node_id st) (g_x g) (g_y g)])
                        (p_ways st) (p_node_id st + 1)%Z (p_mapping st)
                        (p_table_idx st) (p_draws st) (p_existing st))).
    destruct (fold_left geometry_step gs _) as [rg' st']. exact IH.
Qed.

Lemma lanid_lane_step_ok e0 r rg st l st' :
  lanid_ok e0 st -> lane_step r rg st l = Some st' -> lanid_ok e0 st'.
Proof.
  unfold lanid_ok, lane_step. intros H.
  destruct (generate_unique_lane_id (p_draws st) (p_existing st))
    as [[[id draws'] ex']|] eqn:E; [|discriminate].
  intros [= <-]. simpl. unfold way_ids. rewrite map_app. simpl.
  eapply ids_ok_step; eassumption.
Qed.

Lemma lanid_road_step_ok e0 st r st' :
  lanid_ok e0 st -> road_step st r = Some st' -> lanid_ok e0 st'.
Proof.
  unfold road_step. intros H.
  pose proof (lanid_geometry_fold (r_geometry r) [] st) as Hg.
  destruct (fold_left geometry_step (r_geometry r) ([], st)) as [rg st1].
  destruct Hg as (Hw & _ & _ & Hd & He).
  assert (H1 : lanid_ok e0 st1) by (unfold lanid_ok; rewrite Hw, Hd, He; exact H).
  apply (foldM_inv (lanid_ok e0)); [|exact H1].
  intros ls s s' _ Hs. apply (foldM_inv (lanid_ok e0)); [|exact Hs].
  intros l t t' _ Ht. apply lanid_lane_step_ok. exact Ht.
Qed.

Lemma lanid_parse_ok doc draws existing st :
  Forall in_id_range draws ->
  parse_xodr_to_vector_map doc draws existing = Some st ->
  lanid_ok existing st.
Proof.
  intros Hd. unfold parse_xodr_to_vector_map.
  apply (foldM_inv (lanid_ok existing)).
  - intros r s s' _. apply lanid_road_step_ok.
  - unfold lanid_ok, ids_ok. simpl.
    repeat split; auto using NoDup_nil, incl_refl; contradiction.
Qed.

(** The per-document driver: every document's identifiers are 7-digit and
    pairwise distinct within that document. *)
Lemma lanid_batch_ok docs :
  forall outputs draws outputs' draws',
    Forall in_id_range draws ->
    Forall (fun o => NoDup (way_ids (snd (fst o)))) outputs ->
    Forall in_id_range (issued_ids outputs) ->
    foldM batch_step docs (outputs, draws) = Some (outputs', draws') ->
    Forall (fun o => NoDup (way_ids (snd (fst o)))) outputs'
    /\ Forall in_id_range (issued_ids outputs').
Proof.
  induction docs as [|doc docs IH]; intros outputs draws outputs' draws' Hd Hn Hr; simpl.
  - intros [= <- <-]. auto.
  - destruct (parse_xodr_to_vector_map doc draws []) as [st|] eqn:E; [|discriminate].
    destruct (lanid_parse_ok _ _ _ _ Hd E) as (H1 & H2 & _ & _ & H5).
    apply IH.
    + exact H5.
    + apply Forall_app. split; [exact Hn|]. constructor; [exact H2|constructor].
    + unfold issued_ids in *. rewrite flat_map_app. apply Forall_app.
      split; [exact Hr|]. simpl. rewrite app_nil_r. exact H1.
Qed.

End LanidFacts.

(** ** The deduplicating batch compiler *)

Lemma canonical_eq (a b : Q) : canonical a -> canonical b -> a == b -> a = b.
Proof.
  unfold canonical. intros Ha Hb H. rewrite <- Ha, <- Hb. apply Qred_complete, H.
Qed.

Lemma round4_canonical (q : Q) : canonical (LanidMulti.round4 q).
Proof.
  unfold canonical, LanidMulti.round4. apply Qred_complete, Qred_correct.
Qed.

Lemma key_eqb_refl (k : Q * Q) : LanidMulti.key_eqb k k = true.
Proof.
  unfold LanidMulti.key_eqb. apply andb_true_iff. split; apply Qeq_bool_iff; reflexivity.
Qed.

Lemma find_app_none {A} (f : A -> bool) (l : list A) (a : A) :
  find f l = None -> f a = true -> find f (l ++ [a]) = Some a.
Proof.
  induction l as [|x l IH]; simpl; intros H Ha.
  - rewrite Ha. reflexivity.
  - destruct (f x); [discriminate|]. apply IH; assumption.
Qed.


Section MultiFacts.
Import LanidMulti.
Variable hash : lane_key -> Z.

(** The geometry loop leaves the ways alone and collects, for every
    primitive, a node carrying its rounded coordinates. *)
Lemma multi_geometry_fold gs : forall rn st,
  multi_inv hash st ->
  let '(rn', st') := fold_left geometry_step gs (rn, st) in
  coords_of rn' = coords_of rn ++ rounded_coords gs
  /\ multi_inv hash st'
  /\ global_ways st' = global_ways st
  /\ global_mapping st' = global_mapping st
  /\ existing_lane_ids st' = existing_lane_ids st
  /\ table_idx_counter st' = table_idx_counter st
  /\ g_draws st' = g_draws st.
Proof.
  induction gs as [|g gs IH]; intros rn st Hinv.
  - simpl. rewrite app_nil_r. auto 10.
  - cbn [fold_left]. unfold geometry_step at 2.
    set (x := round4 (g_x g)). set (y := round4 (g_y g)).
    destruct Hinv as (Hn & Hnd & Hh & Hm).
    destruct (nodes_find (x, y) (global_nodes st)) as [n0|] eqn:Ef.
    + (* the key is already known *)
      rewrite Ef.
      assert (Hc : (n_x n0, n_y n0) = (x, y)).
      { unfold nodes_find in Ef.
        destruct (find _ (global_nodes st)) as [[k n]|] eqn:E; [|discriminate].
        injection Ef as <-. apply find_some in E. destruct E as [Hin Hk].
        destruct (Hn k n Hin) as (-> & Hc1 & Hc2). simpl in *.
        unfold key_eqb in Hk. apply andb_true_iff in Hk. simpl in Hk.
        destruct Hk as [H1 H2]. apply Qeq_bool_iff in H1, H2.
        f_equal; symmetry; apply canonical_eq; try assumption; apply round4_canonical. }
      specialize (IH (rn ++ [n0])
                     (mkG (global_nodes st) (global_ways st) (global_mapping st)
                          (existing_lane_ids st) (table_idx_counter st) (g_draws st))).
      destruct (fold_left geometry_step gs _) as [rn' st'].
      destruct IH as (H1 & H2);
        [unfold multi_inv; simpl; split; [exact Hn|split; [exact Hnd|split; [exact Hh|exact Hm]]]|].
      split; [|exact H2].
      rewrite H1. unfold coords_of. rewrite map_app. simpl.
      rewrite <- app_assoc. simpl. fold x y. rewrite Hc. reflexivity.
    + (* a new node *)
      set (n := mkNode (Z.of_nat (List.length (global_nodes st))) x y).
      assert (Ef' : nodes_find (x, y) (global_nodes st ++ [((x, y), n)]) = Some n).
      { unfold nodes_find in *.
        destruct (find _ (global_nodes st)) eqn:E; [discriminate|].
        rewrite (find_app_none _ _ ((x, y), n) E (key_eqb_refl (x, y))). reflexivity. }
      rewrite Ef'.
      specialize (IH (rn ++ [n])
                     (mkG (global_nodes st ++ [((x, y), n)]) (global_ways st)
                          (global_mapping st) (existing_lane_ids st)
                          (table_idx_counter st) (g_draws st))).
      destruct (fold_left geometry_step gs _) as [rn' st'].
      destruct IH as (H1 & H2).
      { unfold multi_inv; simpl.
        split; [|split; [exact Hnd|split; [exact Hh|exact Hm]]].
        intros k n1 H. apply in_app_or in H.
        destruct H as [H|[[= <- <-]|[]]]; [apply (Hn k n1 H)|].
        simpl. split; [reflexivity|]. split; apply round4_canonical. }
      split; [|exact H2].
      rewrite H1. unfold coords_of. rewrite map_app. simpl.
      rewrite <- app_assoc. reflexivity.
Qed.

Lemma ways_find_none h (m : list (Z * way)) :
  ways_find h m = None -> ~ In h (map fst m).
Proof.
  unfold ways_find. destruct (find _ m) as [e|] eqn:E; [discriminate|].
  intros _ Hin. apply in_map_iff in Hin. destruct Hin as ([h' w] & <- & Hin).
  pose proof (find_none _ _ E _ Hin) as Hf. simpl in Hf.
  rewrite Z.eqb_refl in Hf. discriminate.
Qed.

Lemma ways_find_some h (m : list (Z * way)) w :
  ways_find h m = Some w -> In (h, w) m.
Proof.
  unfold ways_find. destruct (find _ m) as [[h' w']|] eqn:E; [|discriminate].
  intros [= <-]. apply find_some in E. destruct E as [Hin He].
  simpl in He. apply Z.eqb_eq in He. subst h'. exact Hin.
Qed.


Lemma extends_refl st : extends st st.
Proof. exists []. symmetry. apply app_nil_r. Qed.

Lemma extends_trans s1 s2 s3 : extends s1 s2 -> extends s2 s3 -> extends s1 s3.
Proof.
  intros [t1 H1] [t2 H2]. exists (t1 ++ t2). rewrite H2, H1. symmetry. apply app_assoc.
Qed.

Lemma extends_keys st st' h :
  extends st st' -> filed h st -> filed h st'.
Proof.
  unfold filed. intros [tail ->] H. rewrite map_app. apply in_or_app. left. exact H.
Qed.

(** One lane: the tables stay well formed, the ways table only grows at
    the end, and the lane's key is filed afterwards. *)
Lemma multi_lane_step rn st l st' :
  multi_inv hash st -> lane_step hash rn st l = Some st' ->
  multi_inv hash st' /\ extends st st'
  /\ filed (hash (key_of rn l)) st'
  /\ (multi_ids_ok st -> multi_ids_ok st').
Proof.
  intros (Hn & Hnd & Hh & Hm). unfold lane_step.
  destruct (ways_find (hash (key_of rn l)) (global_ways st)) as [w0|] eqn:Ef.
  - intros [= <-].
    split; [unfold multi_inv; split; [exact Hn|split; [exact Hnd|split; [exact Hh|exact Hm]]]|].
    split; [apply extends_refl|]. split; [|auto].
    apply ways_find_some in Ef. apply in_map_iff. exists (hash (key_of rn l), w0). auto.
  - destruct (generate_unique_lane_id (g_draws st) (existing_lane_ids st))
      as [[[id draws'] ex']|] eqn:Eg; [|discriminate].
    intros [= <-]. apply ways_find_none in Ef.
    split; [|split; [|split]].
    + unfold multi_inv. simpl. split; [exact Hn|]. split; [|split].
      * rewrite map_app. simpl. apply NoDup_app; [exact Hnd|repeat constructor; intros []|].
        intros x Hx [E|[]]. subst x. contradiction.
      * intros h w Hin. apply in_app_or in Hin.
        destruct Hin as [Hin|[[= <- <-]|[]]]; [apply (Hh h w Hin)|].
        simpl. auto.
      * rewrite !map_app. unfold way_ids in *. rewrite map_app, Hm. reflexivity.
    + eexists. reflexivity.
    + unfold filed. simpl. rewrite map_app. apply in_or_app. right. left. reflexivity.
    + unfold multi_ids_ok. simpl. intros Hok.
      rewrite map_app. unfold way_ids. rewrite map_app. simpl.
      eapply ids_ok_step; eassumption.
Qed.

End MultiFacts.

(** A property established by the iteration of one element of a loop, and
    kept by the others, holds at the end. *)
Lemma foldM_reach {A S : Type} (Inv G : S -> Prop) (f : S -> A -> option S)
      (l : list A) (a : A) :
  In a l ->
  (forall b s s', In b l -> Inv s -> f s b = Some s' -> Inv s') ->
  (forall b s s', In b l -> Inv s -> G s -> f s b = Some s' -> G s') ->
  (forall s s', Inv s -> f s a = Some s' -> G s') ->
  forall s s', Inv s -> foldM f l s = Some s' -> G s'.
Proof.
  intros Hin Hinv Hstable Hest.
  assert (Hkeep : forall l', incl l' l -> forall s s', Inv s -> G s ->
                    foldM f l' s = Some s' -> G s').
  { induction l' as [|b l' IH]; intros Hincl s s' Hs Hg; simpl.
    - intros [= <-]. exact Hg.
    - destruct (f s b) as [s1|] eqn:E; [|discriminate].
      assert (Hb : In b l) by (apply Hincl; left; reflexivity).
      apply IH.
      + intros x Hx. apply Hincl. right. exact Hx.
      + eapply Hinv; eassumption.
      + eapply Hstable; eassumption. }
  assert (Hgen : forall l', incl l' l -> In a l' -> forall s s', Inv s ->
                   foldM f l' s = Some s' -> G s').
  { induction l' as [|b l' IH]; intros Hincl Ha s s' Hs; [contradiction|]. simpl.
    destruct (f s b) as [s1|] eqn:E; [|discriminate].
    assert (Hb : In b l) by (apply Hincl; left; reflexivity).
    assert (Hincl' : incl l' l) by (intros x Hx; apply Hincl; right; exact Hx).
    destruct Ha as [->|Ha].
    - apply Hkeep; [exact Hincl'|eapply Hinv; eassumption|eapply Hest; eassumption].
    - apply IH; [exact Hincl'|exact Ha|eapply Hinv; eassumption]. }
  apply Hgen; [apply incl_refl|exact Hin].
Qed.

Section MultiRun.
Import LanidMulti.
Variable hash : lane_key -> Z.

Lemma good_step_refl s : good_step hash s s.
Proof. intros H. split; [exact H|]. split; [apply extends_refl|auto]. Qed.

Lemma good_step_trans s1 s2 s3 :
  good_step hash s1 s2 -> good_step hash s2 s3 -> good_step hash s1 s3.
Proof.
  intros H12 H23 H1. destruct (H12 H1) as (H2 & E12 & I12).
  destruct (H23 H2) as (H3 & E23 & I23).
  split; [exact H3|]. split; [eapply extends_trans; eassumption|auto].
Qed.

Lemma good_foldM {A} (f : gstate -> A -> option gstate) (l : list A) :
  (forall a s s', f s a = Some s' -> good_step hash s s') ->
  forall s s', foldM f l s = Some s' -> good_step hash s s'.
Proof.
  intros Hf. induction l as [|a l IH]; intros s s'; simpl.
  - intros [= <-]. apply good_step_refl.
  - destruct (f s a) as [s1|] eqn:E; [|discriminate].
    intros H. eapply good_step_trans; [eapply Hf; eassumption|apply IH, H].
Qed.

Lemma good_lane rn s l s' : lane_step hash rn s l = Some s' -> good_step hash s s'.
Proof.
  intros H Hinv. destruct (multi_lane_step hash rn s l s' Hinv H) as (H1 & H2 & _ & H4).
  auto.
Qed.

Lemma good_lanes rn ls s s' :
  foldM (lane_step hash rn) ls s = Some s' -> good_step hash s s'.
Proof. apply good_foldM. intros l u u'. apply good_lane. Qed.

Lemma good_sections rn lss s s' :
  foldM (fun s ls => foldM (lane_step hash rn) (ls_lanes ls) s) lss s = Some s' ->
  good_step hash s s'.
Proof.
  apply good_foldM. intros ls t t'. apply good_foldM. intros l u u'. apply good_lane.
Qed.

Lemma good_road s r s' : road_step hash s r = Some s' -> good_step hash s s'.
Proof.
  unfold road_step. intros H Hinv.
  pose proof (multi_geometry_fold hash (r_geometry r) [] s Hinv) as Hg.
  destruct (fold_left geometry_step (r_geometry r) ([], s)) as [rn s1].
  destruct Hg as (_ & Hinv1 & Hw & _ & He & _ & Hd).
  assert (G1 : good_step hash s s1).
  { intros _. split; [exact Hinv1|]. split.
    - exists []. rewrite Hw. symmetry. apply app_nil_r.
    - unfold multi_ids_ok. rewrite Hw, He, Hd. auto. }
  destruct rn as [|n rn].
  - injection H as <-. apply G1, Hinv.
  - apply (good_step_trans s s1 s'); [exact G1|apply good_sections in H; exact H|exact Hinv].
Qed.

Lemma good_document s doc s' : document_step hash s doc = Some s' -> good_step hash s s'.
Proof. apply good_foldM. intros r t t'. apply good_road. Qed.

Lemma good_run docs s s' : run hash docs s = Some s' -> good_step hash s s'.
Proof. apply good_foldM. intros d t t'. apply good_document. Qed.

(** The key of every lane met along the way is filed at the end. *)
Lemma reach_lanes rn ls l s s' :
  In l ls -> multi_inv hash s ->
  foldM (lane_step hash rn) ls s = Some s' ->
  filed (hash (key_of rn l)) s'.
Proof.
  intros Hl. apply (foldM_reach (multi_inv hash) (filed (hash (key_of rn l))) _ _ l);
    [exact Hl| | |].
  - intros b t t' _ Ht E. apply (good_lane _ _ _ _ E Ht).
  - intros b t t' _ Ht Hg E. destruct (good_lane _ _ _ _ E Ht) as (_ & Hx & _).
    eapply extends_keys; eassumption.
  - intros t t' Ht E. apply (multi_lane_step hash rn t l t' Ht E).
Qed.

Lemma reach_sections rn lss ls l s s' :
  In ls lss -> In l (ls_lanes ls) -> multi_inv hash s ->
  foldM (fun s ls => foldM (lane_step hash rn) (ls_lanes ls) s) lss s = Some s' ->
  filed (hash (key_of rn l)) s'.
Proof.
  intros Hls Hl.
  apply (foldM_reach (multi_inv hash) (filed (hash (key_of rn l))) _ _ ls);
    [exact Hls| | |].
  - intros b t t' _ Ht E.
    apply (good_lanes _ _ _ _ E Ht).
  - intros b t t' _ Ht Hg E.
    destruct (good_lanes _ _ _ _ E Ht) as (_ & Hx & _).
    eapply extends_keys; eassumption.
  - intros t t' Ht E. eapply reach_lanes; eassumption.
Qed.

Lemma reach_road r ls l s s' :
  r_geometry r <> [] -> In ls (r_laneSections r) -> In l (ls_lanes ls) ->
  multi_inv hash s -> road_step hash s r = Some s' ->
  filed (hash (lane_key_of r l)) s'.
Proof.
  intros Hne Hls Hl Hinv. unfold road_step.
  pose proof (multi_geometry_fold hash (r_geometry r) [] s Hinv) as Hg.
  destruct (fold_left geometry_step (r_geometry r) ([], s)) as [rn s1].
  destruct Hg as (Hc & Hinv1 & _). simpl in Hc.
  assert (Hk : key_of rn l = lane_key_of r l).
  { unfold key_of, lane_key_of. fold (coords_of rn). rewrite Hc. reflexivity. }
  destruct rn as [|n rn].
  - exfalso. destruct (r_geometry r); [congruence|discriminate].
  - intros H. rewrite <- Hk. eapply reach_sections; eassumption.
Qed.

Lemma reach_run docs r l s s' :
  lane_in docs r l -> r_geometry r <> [] ->
  multi_inv hash s -> run hash docs s = Some s' ->
  filed (hash (lane_key_of r l)) s'.
Proof.
  intros (doc & ls & Hd & Hr & Hls & Hl) Hne.
  apply (foldM_reach (multi_inv hash) (filed (hash (lane_key_of r l))) _ _ doc);
    [exact Hd| | |].
  - intros b t t' _ Ht E. apply (good_document _ _ _ E Ht).
  - intros b t t' _ Ht Hg E. destruct (good_document _ _ _ E Ht) as (_ & Hx & _).
    eapply extends_keys; eassumption.
  - intros t t'. unfold document_step.
    apply (foldM_reach (multi_inv hash) (filed (hash (lane_key_of r l))) _ _ r);
      [exact Hr| | |].
    + intros b u u' _ Hu E. apply (good_road _ _ _ E Hu).
    + intros b u u' _ Hu Hg E. destruct (good_road _ _ _ E Hu) as (_ & Hx & _).
      eapply extends_keys; eassumption.
    + intros u u' Hu E. eapply reach_road; eassumption.
Qed.

Lemma multi_inv_init draws : multi_inv hash (init draws).
Proof.
  unfold multi_inv, init. simpl.
  split; [intros k n []|]. split; [constructor|]. split; [intros h w []|reflexivity].
Qed.

Lemma multi_ids_init draws : Forall in_id_range draws -> multi_ids_ok (init draws).
Proof.
  intros H. unfold multi_ids_ok, ids_ok, init. simpl.
  split; [constructor|]. split; [constructor|]. split; [intros id []|].
  split; [apply incl_refl|exact H].
Qed.


Lemma lane_step_nodes rn s l s' :
  lane_step hash rn s l = Some s' -> global_nodes s' = global_nodes s.
Proof.
  unfold lane_step. destruct (ways_find _ _); [intros [= <-]; reflexivity|].
  destruct (generate_unique_lane_id _ _) as [[[id d] e]|]; [|discriminate].
  intros [= <-]. reflexivity.
Qed.



End MultiRun.




(** C5 (as amended): when [random.randint] keeps to its range, every lane
    identifier is a 7-digit integer; the identifiers are pairwise distinct
    within each document in the per-document compiler (where they also avoid
    the set passed in), and pairwise distinct across all documents of a run
    in the batch compiler. *)
Theorem C5_identifiers_seven_digits_distinct (draws : list Z) :
  Forall in_id_range draws ->
  (forall doc existing st,
      Lanid.parse_xodr_to_vector_map doc draws existing = Some st ->
      Forall in_id_range (way_ids (Lanid.p_ways st))
      /\ NoDup (way_ids (Lanid.p_ways st))
      /\ (forall id, In id (way_ids (Lanid.p_ways st)) -> ~ In id existing)
      /\ map snd (Lanid.p_mapping st) = way_ids (Lanid.p_ways st))
  /\ (forall docs outputs,
      Lanid.batch_convert_xodr_to_vector_map_and_json docs draws = Some outputs ->
      Forall in_id_range (Lanid.issued_ids outputs)
      /\ Forall (fun o => NoDup (way_ids (snd (fst o)))) outputs)
  /\ (forall hash docs st,
      LanidMulti.run hash docs (LanidMulti.init draws) = Some st ->
      Forall in_id_range (way_ids (map snd (LanidMulti.global_ways st)))
      /\ NoDup (way_ids (map snd (LanidMulti.global_ways st)))
      /\ map snd (LanidMulti.global_mapping st)
         = way_ids (map snd (LanidMulti.global_ways st))).
Proof.
  intros Hd. split; [|split].
  - intros doc existing st H.
    destruct (lanid_parse_ok doc draws existing st Hd H) as (H1 & H2 & H3 & _).
    split; [exact H1|]. split; [exact H2|]. split; [intros id Hid; apply (H3 id Hid)|].
    revert H. unfold Lanid.parse_xodr_to_vector_map.
    apply (foldM_inv (fun s => map snd (Lanid.p_mapping s) = way_ids (Lanid.p_ways s)));
      [|reflexivity].
    intros r s s' _ Hs. unfold Lanid.road_step.
    pose proof (lanid_geometry_fold (r_geometry r) [] s) as Hg.
    destruct (fold_left Lanid.geometry_step (r_geometry r) ([], s)) as [rg s1].
    destruct Hg as (Hw & Hm & _).
    apply (foldM_inv (fun s => map snd (Lanid.p_mapping s) = way_ids (Lanid.p_ways s)));
      [|rewrite Hw, Hm; exact Hs].
    intros ls t t' _ Ht.
    apply (foldM_inv (fun s => map snd (Lanid.p_mapping s) = way_ids (Lanid.p_ways s)));
      [|exact Ht].
    intros l u u' _ Hu. unfold Lanid.lane_step.
    destruct (generate_unique_lane_id _ _) as [[[id d] e]|]; [|discriminate].
    intros [= <-]. simpl. unfold way_ids in *. rewrite !map_app, Hu. reflexivity.
  - intros docs outputs. unfold Lanid.batch_convert_xodr_to_vector_map_and_json.
    destruct (foldM Lanid.batch_step docs ([], draws)) as [[outs dr]|] eqn:E; [|discriminate].
    intros [= <-].
    destruct (lanid_batch_ok docs [] draws outs dr Hd (Forall_nil _) (Forall_nil _) E)
      as [H1 H2].
    split; assumption.
  - intros hash docs st H.
    destruct (good_run hash docs _ _ H (multi_inv_init hash draws)) as (Hinv & _ & Hids).
    destruct (Hids (multi_ids_init draws Hd)) as (H1 & H2 & _).
    destruct Hinv as (_ & _ & _ & Hm). auto.
Qed.

Lemma C5_identifiers_seven_digits_distinct_witness :
  Forall in_id_range [1000001; 1000001; 1000002]%Z
  /\ exists st,
       Lanid.parse_xodr_to_vector_map (straight_road ++ straight_road)
                                      [1000001; 1000001; 1000002]%Z [] = Some st
       /\ NoDup (way_ids (Lanid.p_ways st)).
Proof.
  assert (Hd : Forall in_id_range [1000001; 1000001; 1000002]%Z)
    by (repeat constructor; discriminate).
  split; [exact Hd|].
  destruct (Lanid.parse_xodr_to_vector_map (straight_road ++ straight_road)
                                           [1000001; 1000001; 1000002]%Z []) as [st|] eqn:E;
    [|vm_compute in E; discriminate].
  exists st. split; [reflexivity|].
  destruct (C5_identifiers_seven_digits_distinct _ Hd) as [H _].
  apply (H _ _ _ E).
Defined.

(** C5, as stated, fails for the per-document compiler: its driver starts
    every document with an empty set, so two documents of one run can be
    given the same identifier. *)
Lemma C5_per_document_run_reissues_identifier :
  Forall in_id_range [1234567; 1234567]%Z
  /\ exists outputs,
       Lanid.batch_convert_xodr_to_vector_map_and_json
         [straight_road; straight_road] [1234567; 1234567]%Z = Some outputs
       /\ Lanid.issued_ids outputs = [1234567; 1234567]%Z
       /\ ~ NoDup (Lanid.issued_ids outputs).
Proof.
  split; [repeat constructor; discriminate|].
  eexists. split; [vm_compute; reflexivity|].
  split; [reflexivity|].
  intros H. inversion H as [|x l Hn _]; subst. apply Hn. left. reflexivity.
Qed.

(** ** Topology *)

Lemma foldM_obs {A S B : Type} (obs : S -> list B) (g : A -> list B)
      (f : S -> A -> option S) (l : list A) :
  (forall a s s', f s a = Some s' -> obs s' = obs s ++ g a) ->
  forall s s', foldM f l s = Some s' -> obs s' = obs s ++ flat_map g l.
Proof.
  intros Hf. induction l as [|a l IH]; intros s s'; simpl.
  - intros [= <-]. symmetry. apply app_nil_r.
  - destruct (f s a) as [s1|] eqn:E; [|discriminate].
    intros H. rewrite (IH _ _ H), (Hf _ _ _ E). symmetry. apply app_assoc.
Qed.

(** Per-document compiler: a road contributes one lane record per lane, each
    tagged with the road's link. *)
Lemma lanid_road_step_links s r s' :
  Lanid.road_step s r = Some s' ->
  map pred_succ (Lanid.p_ways s')
  = map pred_succ (Lanid.p_ways s) ++ map (fun _ => road_link r) (road_lanes r).
Proof.
  unfold Lanid.road_step.
  pose proof (lanid_geometry_fold (r_geometry r) [] s) as Hg.
  destruct (fold_left Lanid.geometry_step (r_geometry r) ([], s)) as [rg s1].
  destruct Hg as (Hw & _). rewrite <- Hw. intros H.
  unfold road_lanes.
  set (obs := fun t : Lanid.pstate => map pred_succ (Lanid.p_ways t)).
  assert (Hlane : forall l u u', Lanid.lane_step r rg u l = Some u' ->
                    obs u' = obs u ++ [road_link r]).
  { intros l u u'. unfold Lanid.lane_step, obs.
    destruct (generate_unique_lane_id _ _) as [[[id dr] ex]|]; [|discriminate].
    intros [= <-]. simpl. rewrite map_app. reflexivity. }
  assert (Hsec : forall ls t t', foldM (Lanid.lane_step r rg) (ls_lanes ls) t = Some t' ->
                   obs t' = obs t ++ map (fun _ => road_link r) (ls_lanes ls)).
  { intros ls t t' Ht.
    rewrite (foldM_obs obs (fun _ => [road_link r]) _ _ Hlane _ _ Ht).
    reflexivity. }
  change (obs s' = obs s1 ++ map (fun _ => road_link r)
                                 (flat_map ls_lanes (r_laneSections r))).
  rewrite (foldM_obs obs (fun ls => map (fun _ => road_link r) (ls_lanes ls))
                     _ _ Hsec _ _ H).
  f_equal. clear H.
  induction (r_laneSections r) as [|ls lss IH]; simpl; [reflexivity|].
  rewrite map_app, IH. reflexivity.
Qed.

Lemma lanid_parse_links doc draws existing st :
  Lanid.parse_xodr_to_vector_map doc draws existing = Some st ->
  map pred_succ (Lanid.p_ways st)
  = flat_map (fun r => map (fun _ => road_link r) (road_lanes r)) doc.
Proof.
  unfold Lanid.parse_xodr_to_vector_map. intros H.
  apply (foldM_obs (fun t => map pred_succ (Lanid.p_ways t))
                   (fun r => map (fun _ => road_link r) (road_lanes r))) in H.
  - exact H.
  - intros r s s'. apply lanid_road_step_links.
Qed.

(** C9: the per-document compiler tags every lane record of a road with the
    road's link predecessor and successor, the same for all lanes of the
    road; the batch compiler never reads the link: all its lane records
    have empty predecessor and successor lists.  On [linked_road], whose
    link names predecessor "5" and successor "7", the per-document compiler
    emits ["5"] and ["7"], the batch compiler emits [] and []. *)
Theorem C9_batch_compiler_ignores_road_link (hash : LanidMulti.lane_key -> Z) :
  (forall doc draws existing st,
      Lanid.parse_xodr_to_vector_map doc draws existing = Some st ->
      map pred_succ (Lanid.p_ways st)
      = flat_map (fun r => map (fun _ => road_link r) (road_lanes r)) doc)
  /\ (forall docs draws st h w,
      LanidMulti.run hash docs (LanidMulti.init draws) = Some st ->
      In (h, w) (LanidMulti.global_ways st) ->
      pred_succ w = ([], []))
  /\ (exists st,
        Lanid.parse_xodr_to_vector_map linked_road [1000001]%Z [] = Some st
        /\ map pred_succ (Lanid.p_ways st) = [(["5"%string], ["7"%string])])
  /\ (exists st,
        LanidMulti.run hash [linked_road] (LanidMulti.init [1000001]%Z) = Some st
        /\ map (fun e => pred_succ (snd e)) (LanidMulti.global_ways st) = [([], [])]).
Proof.
  split; [|split; [|split]].
  - intros doc draws existing st. apply lanid_parse_links.
  - intros docs draws st h w H Hin.
    destruct (good_run hash docs _ _ H (multi_inv_init hash draws)) as (Hinv & _).
    destruct Hinv as (_ & _ & Hh & _). destruct (Hh h w Hin) as (_ & Hp & Hs).
    unfold pred_succ. rewrite Hp, Hs. reflexivity.
  - eexists. split; [vm_compute; reflexivity|]. reflexivity.
  - eexists. split; [reflexivity|]. reflexivity.
Qed.

(** ** The compilers return when the draws are fresh *)

Lemma generate_fresh draws existing :
  fresh_draws draws existing -> (1 <= List.length draws)%nat ->
  exists id draws' existing',
    generate_unique_lane_id draws existing = Some (id, draws', existing')
    /\ fresh_draws draws' existing'
    /\ List.length draws' = (List.length draws - 1)%nat.
Proof.
  intros [Hnd Hf] Hlen. destruct draws as [|d draws]; [simpl in Hlen; lia|].
  simpl. destruct (id_in d existing) eqn:E.
  - apply id_in_iff in E. exfalso. apply (Hf d); [left; reflexivity|exact E].
  - simpl. exists d, draws, (d :: existing). split; [reflexivity|].
    inversion Hnd as [|? ? Hnot Hnd']; subst. split; [|lia].
    split; [exact Hnd'|]. intros x Hx [->|Hin]; [contradiction|].
    apply (Hf x); [right; exact Hx|exact Hin].
Qed.

(** A loop whose iterations each return within their share of a budget
    returns within the whole budget. *)
Lemma foldM_budget {A S : Type} (P : S -> Prop) (budget : S -> nat) (cost : A -> nat)
      (f : S -> A -> option S) (l : list A) :
  (forall a s, P s -> (cost a <= budget s)%nat ->
     exists s', f s a = Some s' /\ P s' /\ (budget s - cost a <= budget s')%nat) ->
  forall s, P s -> (list_sum (map cost l) <= budget s)%nat ->
    exists s', foldM f l s = Some s' /\ P s'
               /\ (budget s - list_sum (map cost l) <= budget s')%nat.
Proof.
  intros Hf. induction l as [|a l IH]; intros s Hs Hb; simpl in *.
  - exists s. split; [reflexivity|]. split; [exact Hs|lia].
  - destruct (Hf a s Hs) as (s1 & E & Hs1 & Hb1); [lia|].
    rewrite E. destruct (IH s1 Hs1) as (s' & E' & Hs' & Hb'); [lia|].
    exists s'. split; [exact E'|]. split; [exact Hs'|lia].
Qed.

Lemma length_as_sum {A} (l : list A) :
  List.length l = list_sum (map (fun _ => 1%nat) l).
Proof.
  induction l as [|a l IH]; simpl; [reflexivity|]. rewrite IH. reflexivity.
Qed.

Lemma road_lanes_length (r : road) :
  List.length (road_lanes r)
  = list_sum (map (fun ls => List.length (ls_lanes ls)) (r_laneSections r)).
Proof.
  unfold road_lanes. induction (r_laneSections r) as [|ls lss IH]; simpl; [reflexivity|].
  rewrite length_app, IH. reflexivity.
Qed.

Section Returns.
Variable hash : LanidMulti.lane_key -> Z.

Lemma multi_lane_returns rn l s :
  multi_fresh s -> (1 <= multi_budget s)%nat ->
  exists s', LanidMulti.lane_step hash rn s l = Some s' /\ multi_fresh s'
             /\ (multi_budget s - 1 <= multi_budget s')%nat.
Proof.
  intros Hf Hb. unfold LanidMulti.lane_step.
  destruct (LanidMulti.ways_find _ _).
  - exists s. split; [reflexivity|]. split; [exact Hf|lia].
  - destruct (generate_fresh _ _ Hf Hb) as (id & dr & ex & E & Hf' & Hl).
    rewrite E. eexists. split; [reflexivity|]. split; [exact Hf'|].
    unfold multi_budget. simpl. lia.
Qed.

Lemma multi_road_returns r s :
  multi_fresh s -> (List.length (road_lanes r) <= multi_budget s)%nat ->
  exists s', LanidMulti.road_step hash s r = Some s' /\ multi_fresh s'
             /\ (multi_budget s - List.length (road_lanes r) <= multi_budget s')%nat.
Proof.
  intros Hf Hb. unfold LanidMulti.road_step.
  assert (Hstep : forall rn t g,
             LanidMulti.g_draws (snd (LanidMulti.geometry_step (rn, t) g))
             = LanidMulti.g_draws t
             /\ LanidMulti.existing_lane_ids (snd (LanidMulti.geometry_step (rn, t) g))
                = LanidMulti.existing_lane_ids t).
  { intros rn t g. unfold LanidMulti.geometry_step.
    destruct (LanidMulti.nodes_find _ (LanidMulti.global_nodes t)); cbv zeta;
      destruct (LanidMulti.nodes_find _ _); simpl; auto. }
  assert (Hg : forall gs rn t,
             let '(rn', t') := fold_left LanidMulti.geometry_step gs (rn, t) in
             LanidMulti.g_draws t' = LanidMulti.g_draws t
             /\ LanidMulti.existing_lane_ids t' = LanidMulti.existing_lane_ids t).
  { induction gs as [|g gs IH]; intros rn t; [simpl; auto|].
    cbn [fold_left]. pose proof (Hstep rn t g) as Hs1.
    destruct (LanidMulti.geometry_step (rn, t) g) as [rn1 t1].
    specialize (IH rn1 t1). destruct (fold_left LanidMulti.geometry_step gs (rn1, t1)).
    simpl in Hs1. destruct IH as [-> ->]. exact Hs1. }
  specialize (Hg (r_geometry r) [] s).
  destruct (fold_left LanidMulti.geometry_step (r_geometry r) ([], s)) as [rn s1].
  destruct Hg as [Hd He].
  assert (Hf1 : multi_fresh s1) by (unfold multi_fresh; rewrite Hd, He; exact Hf).
  assert (Hb1 : multi_budget s1 = multi_budget s) by (unfold multi_budget; rewrite Hd; reflexivity).
  destruct rn as [|n rn].
  - exists s1. split; [reflexivity|]. split; [exact Hf1|lia].
  - rewrite road_lanes_length in *. rewrite <- Hb1 in *.
    apply (foldM_budget multi_fresh multi_budget
                        (fun ls => List.length (ls_lanes ls))); [|exact Hf1|exact Hb].
    intros ls t Ht Hbt.
    rewrite (length_as_sum (ls_lanes ls)) in *.
    apply (foldM_budget multi_fresh multi_budget (fun _ => 1%nat)); [|exact Ht|exact Hbt].
    intros l u Hu Hbu. apply multi_lane_returns; assumption.
Qed.

(** The batch compiler returns when the draws are pairwise distinct and at
    least as many as there are lanes. *)
Lemma multi_run_returns docs draws :
  NoDup draws ->
  (list_sum (map lane_count docs) <= List.length draws)%nat ->
  exists st, LanidMulti.run hash docs (LanidMulti.init draws) = Some st.
Proof.
  intros Hnd Hlen.
  destruct (foldM_budget multi_fresh multi_budget lane_count
                         (LanidMulti.document_step hash) docs) with (s := LanidMulti.init draws)
    as (st & E & _).
  - intros doc s Hs Hb. unfold LanidMulti.document_step, lane_count in *.
    apply (foldM_budget multi_fresh multi_budget
                        (fun r => List.length (road_lanes r))); [|exact Hs|exact Hb].
    intros r t Ht Hbt. apply multi_road_returns; assumption.
  - split; [exact Hnd|]. intros d _ [].
  - exact Hlen.
  - exists st. exact E.
Qed.

End Returns.

(** The per-document compiler returns under the same condition. *)
Lemma lanid_parse_returns doc draws existing :
  fresh_draws draws existing -> (lane_count doc <= List.length draws)%nat ->
  exists st, Lanid.parse_xodr_to_vector_map doc draws existing = Some st.
Proof.
  intros Hf Hlen. unfold Lanid.parse_xodr_to_vector_map.
  destruct (foldM_budget lanid_fresh lanid_budget (fun r => List.length (road_lanes r))
                         Lanid.road_step doc)
    with (s := Lanid.mkP [] [] 0%Z [] 0%Z draws existing) as (st & E & _);
    [|exact Hf|exact Hlen|exists st; exact E].
  intros r s Hs Hb. unfold Lanid.road_step.
  pose proof (lanid_geometry_fold (r_geometry r) [] s) as Hg.
  destruct (fold_left Lanid.geometry_step (r_geometry r) ([], s)) as [rg s1].
  destruct Hg as (_ & _ & _ & Hd & He).
  assert (Hf1 : lanid_fresh s1) by (unfold lanid_fresh; rewrite Hd, He; exact Hs).
  assert (Hb1 : lanid_budget s1 = lanid_budget s) by (unfold lanid_budget; rewrite Hd; reflexivity).
  rewrite road_lanes_length in *. rewrite <- Hb1 in *.
  apply (foldM_budget lanid_fresh lanid_budget
                      (fun ls => List.length (ls_lanes ls))); [|exact Hf1|exact Hb].
  intros ls t Ht Hbt.
  rewrite (length_as_sum (ls_lanes ls)) in *.
  apply (foldM_budget lanid_fresh lanid_budget (fun _ => 1%nat)); [|exact Ht|exact Hbt].
  intros l u Hu Hbu. unfold Lanid.lane_step.
  destruct (generate_fresh _ _ Hu Hbu) as (id & dr & ex & E & Hf' & Hl).
  rewrite E. eexists. split; [reflexivity|]. split; [exact Hf'|].
  unfold lanid_budget. simpl. lia.
Qed.


(* ================================================================== *)
(** * Further properties of the scripts *)

(** ** Global bounds of a batch *)

Section GlobalBounds.
Variables cos sin : Q -> Q.

Lemma global_step_encloses_new acc doc :
  ordered_or_empty acc \/ (exists b, encloses acc b) ->
  encloses (AreaMulti.global_bounds_step cos sin acc doc)
           (AreaMulti.calculate_map_bounds cos sin doc).
Proof.
  unfold AreaMulti.global_bounds_step, encloses.
  destruct (AreaMulti.calculate_map_bounds cos sin doc) as [[[a b] c] d].
  intros H.
  destruct acc as [[[[a'|] [b'|]] [c'|]] [d'|]]; simpl in *;
    try (destruct H as [H|[[[[? ?] ?] ?] H]]; contradiction);
    repeat split;
    auto using Q.le_min_r, Q.le_max_r, Qle_refl.
Qed.

Lemma global_step_encloses_keep acc doc b :
  encloses acc b -> encloses (AreaMulti.global_bounds_step cos sin acc doc) b.
Proof.
  unfold AreaMulti.global_bounds_step, encloses.
  destruct (AreaMulti.calculate_map_bounds cos sin doc) as [[[a1 b1] c1] d1].
  destruct b as [[[a0 b0] c0] d0].
  destruct acc as [[[[a'|] [b'|]] [c'|]] [d'|]]; simpl; try tauto.
  intros (H1 & H2 & H3 & H4).
  pose proof (Q.le_min_l a' a1). pose proof (Q.le_max_l b' b1).
  pose proof (Q.le_min_l c' c1). pose proof (Q.le_max_l d' d1).
  repeat split; lra.
Qed.

Lemma global_fold_encloses_keep docs acc b :
  encloses acc b ->
  encloses (fold_left (AreaMulti.global_bounds_step cos sin) docs acc) b.
Proof.
  revert acc. induction docs as [|d docs IH]; intros acc H; simpl; auto.
  apply IH, global_step_encloses_keep, H.
Qed.

Lemma global_fold_encloses docs doc acc :
  ordered_or_empty acc \/ (exists b, encloses acc b) ->
  In doc docs ->
  encloses (fold_left (AreaMulti.global_bounds_step cos sin) docs acc)
           (AreaMulti.calculate_map_bounds cos sin doc).
Proof.
  revert acc. induction docs as [|d docs IH]; intros acc Hacc Hin; [contradiction|].
  simpl. destruct Hin as [->|Hin].
  - apply global_fold_encloses_keep, global_step_encloses_new, Hacc.
  - apply IH; [|exact Hin]. right.
    exists (AreaMulti.calculate_map_bounds cos sin d).
    apply global_step_encloses_new, Hacc.
Qed.

(** The global bounds of a batch contain the bounds of each of its
    documents, hence the start and end point of every primitive. *)
Theorem global_bounds_enclose_documents (docs : list document) (doc : document) :
  In doc docs ->
  exists gx0 gx1 gy0 gy1,
    AreaMulti.global_bounds cos sin docs = (Some gx0, Some gx1, Some gy0, Some gy1)
    /\ (let '(min_x, max_x, min_y, max_y) := Area.calculate_map_bounds cos sin doc in
        gx0 <= min_x /\ max_x <= gx1 /\ gy0 <= min_y /\ max_y <= gy1)
    /\ (forall r g, In r doc -> In g (r_geometry r) ->
          (gx0 <= g_x g <= gx1 /\ gy0 <= g_y g <= gy1)
          /\ (gx0 <= x_end cos g <= gx1 /\ gy0 <= y_end sin g <= gy1)).
Proof.
  intros Hin.
  pose proof (global_fold_encloses docs doc (None, None, None, None) (or_introl I) Hin) as H.
  fold (AreaMulti.global_bounds cos sin docs) in H.
  unfold AreaMulti.calculate_map_bounds, encloses in H.
  destruct (AreaMulti.global_bounds cos sin docs) as [[[[gx0|] [gx1|]] [gy0|]] [gy1|]];
    try (destruct (Area.calculate_map_bounds cos sin doc) as [[[? ?] ?] ?]; contradiction).
  exists gx0, gx1, gy0, gy1. split; [reflexivity|].
  pose proof (covers_map_bounds cos sin doc) as Hc.
  pose proof (bounds_scan_covers cos sin doc) as Hs.
  destruct (Area.calculate_map_bounds cos sin doc) as [[[a b] c] d].
  split; [exact H|].
  intros r g Hr Hg. destruct (Hs r g Hr Hg) as [H1 H2].
  apply Hc in H1. apply Hc in H2. split; split; lra.
Qed.

End GlobalBounds.

Lemma global_bounds_enclose_documents_witness :
  exists gx0 gx1 gy0 gy1,
    AreaMulti.global_bounds cos_approx sin_approx [narrow_road; straight_road]
    = (Some gx0, Some gx1, Some gy0, Some gy1)
    /\ gx0 <= 0 /\ 10 <= gx1.
Proof.
  destruct (global_bounds_enclose_documents cos_approx sin_approx
              [narrow_road; straight_road] straight_road)
    as (gx0 & gx1 & gy0 & gy1 & E & _ & H).
  - right. left. reflexivity.
  - exists gx0, gx1, gy0, gy1. split; [exact E|].
    destruct (H (mkRoad [mkGeometry 0 0 0 10 None]
                        [mkLaneSection None [driving_lane (35 # 10)]] None None)
                (mkGeometry 0 0 0 10 None)) as [[Hx _] [Hx' _]];
      [left; reflexivity|left; reflexivity|].
    unfold x_end in Hx'. simpl in Hx, Hx'.
    change (cos_approx 0) with 1 in Hx'. split; lra.
Defined.

(** ** The batch rasterizer addresses every sample *)


(** Truncation toward zero sends the open window (-1, n) into [0, n). *)
Lemma py_int_window (q : Q) (n : Z) :
  - (1) < q -> q < inject_Z n -> (1 <= n)%Z -> (0 <= Py.int q < n)%Z.
Proof.
  intros Hlo Hhi Hn. destruct (Qlt_le_dec q 0) as [Hneg|Hpos].
  - assert (E : Py.int q = 0%Z).
    { destruct q as [a d]. unfold Py.int, Qlt in *. simpl in *.
      assert (Ha : (- Z.pos d < a < 0)%Z) by lia.
      replace a with (- (- a))%Z by lia.
      rewrite Z.quot_opp_l by lia.
      rewrite Z.quot_small by lia. reflexivity. }
    rewrite E. lia.
  - destruct (py_int_nonneg q Hpos) as [E H0]. split; [exact H0|].
    rewrite E. pose proof (Qfloor_le q) as Hf.
    assert (Hlt : inject_Z (Qfloor q) < inject_Z n) by lra.
    rewrite <- Zlt_Qlt in Hlt. exact Hlt.
Qed.

(** A point of the segment from [p] to [p + len * c] stays where both ends
    are. *)
Lemma between_ends (lo hi p len c t : Q) :
  lo <= p <= hi -> lo <= p + len * c <= hi -> 0 <= t <= len ->
  lo <= p + t * c <= hi.
Proof.
  intros Hp He Ht. destruct (Qlt_le_dec c 0) as [Hc|Hc].
  - assert (H1 : len * c <= t * c).
    { setoid_replace (len * c) with (- (len * - c)) by ring.
      setoid_replace (t * c) with (- (t * - c)) by ring.
      apply Qopp_le_compat. apply Qmult_le_compat_r; lra. }
    assert (H2 : t * c <= 0).
    { setoid_replace (t * c) with (- (t * - c)) by ring.
      assert (0 <= t * - c) by (apply Qmult_le_0_compat; lra). lra. }
    lra.
  - assert (H1 : t * c <= len * c) by (apply Qmult_le_compat_r; lra).
    assert (H2 : 0 <= t * c) by (apply Qmult_le_0_compat; lra).
    lra.
Qed.


(** The steps the batch scripts take stay on the primitive. *)
Lemma step_on_primitive (res len : Q) (i : Z) :
  0 < res -> 0 <= len -> (0 <= i <= Py.int (len / res))%Z ->
  0 <= inject_Z i * res <= len.
Proof.
  intros Hres Hlen [Hi0 Hi].
  assert (Hq : 0 <= len / res) by (apply quotient_nonneg; assumption).
  destruct (py_int_nonneg _ Hq) as [E _]. rewrite E in Hi.
  pose proof (Qfloor_le (len / res)) as Hf.
  assert (H0 : 0 <= inject_Z i) by (change 0 with (inject_Z 0); rewrite <- Zle_Qle; exact Hi0).
  assert (H1 : inject_Z i <= len / res).
  { apply Qle_trans with (inject_Z (Qfloor (len / res))); [|exact Hf].
    rewrite <- Zle_Qle. exact Hi. }
  split; [apply Qmult_le_0_compat; lra|].
  assert (H2 : inject_Z i * res <= len / res * res) by (apply Qmult_le_compat_r; lra).
  assert (E2 : len / res * res == len) by (field; lra).
  lra.
Qed.

(** A coordinate, taken relative to the lower bound, that is less than one
    cell outside the bounds still has a column (or row) of the batch grid. *)
Lemma batch_index_in_range (res extent v : Q) :
  0 < res -> 0 <= extent -> - res < v -> v < extent + res ->
  (0 <= Py.int (v / res) < Py.ceil (extent / res) + 1)%Z.
Proof.
  intros Hres Hord Hlo Hhi.
  assert (Hc : (0 <= Py.ceil (extent / res))%Z)
    by (apply ceiling_nonneg, quotient_nonneg; lra).
  apply py_int_window; [| |lia].
  - apply Qlt_shift_div_l; [exact Hres|]. lra.
  - unfold Py.ceil. rewrite inject_Z_plus.
    pose proof (Qle_ceiling (extent / res)) as H.
    apply Qlt_le_trans with (extent / res + 1); [|change (inject_Z 1) with 1; lra].
    apply Qlt_shift_div_r; [exact Hres|].
    assert (E : (extent / res + 1) * res == extent + res) by (field; lra).
    rewrite E. lra.
Qed.

Section Margins.
Variables cos sin : Q -> Q.










End Margins.



(** ** Occupancy writes commute *)

Lemma grid_ext {A} (g1 g2 : Grid.t A) rows cols (d : A) :
  shape g1 rows cols -> shape g2 rows cols ->
  (forall cell, in_range rows cols cell ->
     Grid.get g1 (fst cell) (snd cell) d = Grid.get g2 (fst cell) (snd cell) d) ->
  g1 = g2.
Proof.
  intros [Hl1 Hf1] [Hl2 Hf2] Hget.
  apply (nth_ext g1 g2 [] []); [congruence|].
  intros r Hr.
  assert (Hr1 : List.length (nth r g1 []) = Z.to_nat cols).
  { rewrite Forall_forall in Hf1. apply Hf1, nth_In, Hr. }
  assert (Hr2 : List.length (nth r g2 []) = Z.to_nat cols).
  { rewrite Forall_forall in Hf2. apply Hf2, nth_In. congruence. }
  apply (nth_ext _ _ d d); [congruence|].
  intros c Hc.
  specialize (Hget (Z.of_nat r, Z.of_nat c)).
  unfold Grid.get, in_range in Hget. simpl in Hget.
  replace ((Z.of_nat r <? 0)%Z || (Z.of_nat c <? 0)%Z) with false in Hget
    by (symmetry; apply orb_false_iff; rewrite !Z.ltb_ge; lia).
  rewrite !Nat2Z.id in Hget. apply Hget. lia.
Qed.

(** The grid after a sequence of occupancy writes depends only on which
    in-range cells are written, not on their order or multiplicity. *)
Lemma occupancy_fold_set rows cols zeros (l1 l2 : list (Z * Z)) :
  Grid.full rows cols 0%Z = Some zeros ->
  (forall cell, in_range rows cols cell -> (In cell l1 <-> In cell l2)) ->
  fold_left (Grid.write rows cols 1%Z) l1 zeros
  = fold_left (Grid.write rows cols 1%Z) l2 zeros.
Proof.
  intros Hz Hsame. pose proof (full_shape _ _ _ _ Hz) as Hs.
  apply (grid_ext _ _ rows cols 0%Z); try (apply fold_write_cells_shape; exact Hs).
  intros [r c] Hin. simpl.
  pose proof (occupancy_cell rows cols l1 zeros r c Hz) as H1.
  pose proof (occupancy_cell rows cols l2 zeros r c Hz) as H2.
  assert (Hbin : forall l, Grid.get (fold_left (Grid.write rows cols 1%Z) l zeros) r c 0%Z = 1%Z
                           \/ Grid.get (fold_left (Grid.write rows cols 1%Z) l zeros) r c 0%Z = 0%Z).
  { intros l. rewrite fold_write_cells.
    pose proof (get_fold_write (fun x : Z => x) rows cols
                  (map (fun c0 => (c0, 1%Z)) l) zeros (r, c) 0%Z Hs Hin) as E.
    simpl in E. rewrite E.
    destruct (last_write _ _) as [u|] eqn:El.
    - left. eapply last_write_const; [|exact El].
      intros w Hw. apply in_map_iff in Hw. destruct Hw as (x & <- & _). reflexivity.
    - right. apply (full_get rows cols 0%Z zeros (r, c) 0%Z Hz Hin). }
  destruct (Hbin l1) as [E1|E1]; destruct (Hbin l2) as [E2|E2]; try congruence.
  - exfalso. apply H1 in E1. destruct E1 as [_ E1]. apply (Hsame _ Hin) in E1.
    assert (Grid.get (fold_left (Grid.write rows cols 1%Z) l2 zeros) r c 0%Z = 1%Z)
      by (apply H2; auto). congruence.
  - exfalso. apply H2 in E2. destruct E2 as [_ E2]. apply (Hsame _ Hin) in E2.
    assert (Grid.get (fold_left (Grid.write rows cols 1%Z) l1 zeros) r c 0%Z = 1%Z)
      by (apply H1; auto). congruence.
Qed.

(** Two batches made of the same documents, in any order and with any
    repetition, give the same merged occupancy grid and transform as soon as
    their global bounds are the same. *)
Theorem batch_area_order_independent
        (cos sin : Q -> Q) (res : Q) (docs1 docs2 : list document) :
  AreaMulti.global_bounds cos sin docs1 = AreaMulti.global_bounds cos sin docs2 ->
  (forall d, In d docs1 <-> In d docs2) ->
  AreaMulti.batch_convert_xodr_to_driveable_area cos sin docs1 res
  = AreaMulti.batch_convert_xodr_to_driveable_area cos sin docs2 res.
Proof.
  intros Hb Hsame. unfold AreaMulti.batch_convert_xodr_to_driveable_area.
  destruct (Qeq_bool res 0); [reflexivity|]. rewrite Hb.
  destruct (AreaMulti.global_bounds cos sin docs2) as [[[[a|] [b|]] [c|]] [d|]];
    try reflexivity.
  destruct (Grid.full _ _ _) as [zeros|] eqn:Ez; [|reflexivity].
  f_equal. f_equal.
  apply (occupancy_fold_set _ _ zeros); [exact Ez|].
  intros cell _. rewrite !in_flat_map. split; intros (d0 & Hd & Hc); exists d0;
    (split; [apply Hsame, Hd|exact Hc]).
Qed.

Lemma batch_area_order_independent_witness :
  AreaMulti.batch_convert_xodr_to_driveable_area cos_approx sin_approx
    [straight_road; narrow_road] (1 # 2)
  = AreaMulti.batch_convert_xodr_to_driveable_area cos_approx sin_approx
      [narrow_road; straight_road; narrow_road] (1 # 2).
Proof.
  apply batch_area_order_independent.
  - vm_compute. reflexivity.
  - intros d. simpl. tauto.
Defined.

Lemma qmin_left (v a : Q) : v <= a -> Qmin v a = v.
Proof.
  intros H. unfold Qmin, GenericMinMax.gmin.
  destruct (v ?= a) eqn:E; try reflexivity.
  apply Qgt_alt in E. lra.
Qed.

Lemma qmax_left (v a : Q) : a <= v -> Qmax v a = v.
Proof.
  intros H. unfold Qmax, GenericMinMax.gmax.
  destruct (v ?= a) eqn:E; try reflexivity.
  apply Qlt_alt in E. lra.
Qed.

Section Absorb.
Variables cos sin : Q -> Q.

Lemma global_step_absorb acc doc :
  encloses acc (AreaMulti.calculate_map_bounds cos sin doc) ->
  AreaMulti.global_bounds_step cos sin acc doc = acc.
Proof.
  unfold AreaMulti.global_bounds_step, encloses.
  destruct (AreaMulti.calculate_map_bounds cos sin doc) as [[[a b] c] d].
  destruct acc as [[[[a'|] [b'|]] [c'|]] [d'|]]; simpl; try tauto.
  intros (H1 & H2 & H3 & H4).
  rewrite !qmin_left, !qmax_left by assumption. reflexivity.
Qed.

Lemma global_fold_absorb docs' acc :
  (forall d, In d docs' -> encloses acc (AreaMulti.calculate_map_bounds cos sin d)) ->
  fold_left (AreaMulti.global_bounds_step cos sin) docs' acc = acc.
Proof.
  induction docs' as [|d docs' IH]; intros H; simpl; [reflexivity|].
  rewrite global_step_absorb by (apply H; left; reflexivity).
  apply IH. intros d' Hd'. apply H. right. exact Hd'.
Qed.

(** Feeding documents of a batch to it again changes neither the global
    bounds nor the merged grid. *)
Theorem batch_area_repeat (res : Q) (docs docs' : list document) :
  incl docs' docs ->
  AreaMulti.batch_convert_xodr_to_driveable_area cos sin (docs ++ docs') res
  = AreaMulti.batch_convert_xodr_to_driveable_area cos sin docs res.
Proof.
  intros Hincl. apply batch_area_order_independent.
  - unfold AreaMulti.global_bounds. rewrite fold_left_app.
    apply global_fold_absorb. intros d Hd.
    apply global_fold_encloses; [left; exact I|apply Hincl, Hd].
  - intros d. rewrite in_app_iff. split; [intros [H|H]; [exact H|apply Hincl, H]|auto].
Qed.

End Absorb.

Lemma batch_area_repeat_witness :
  AreaMulti.batch_convert_xodr_to_driveable_area cos_approx sin_approx
    ([straight_road; narrow_road] ++ [straight_road]) (1 # 2)
  = AreaMulti.batch_convert_xodr_to_driveable_area cos_approx sin_approx
      [straight_road; narrow_road] (1 # 2).
Proof.
  apply batch_area_repeat. intros d [<-|[]]. left. reflexivity.
Defined.

(** ** Height grids *)

Section HeightBounds.
Variables cos sin : Q -> Q.

Lemma hight_fold_mono gs acc x y :
  covers acc x y -> covers (fold_left (Hight.bounds_geometry cos sin) gs acc) x y.
Proof. apply (fold_geometry_mono cos sin). Qed.

Lemma hight_roads_mono doc acc x y :
  covers acc x y ->
  covers (fold_left (fun a r => fold_left (Hight.bounds_geometry cos sin) (r_geometry r) a)
                    doc acc) x y.
Proof.
  revert acc. induction doc as [|r doc IH]; intros acc H; simpl; auto.
  apply IH, hight_fold_mono, H.
Qed.

(** The bounds of the height scripts contain the start and end of every
    primitive. *)
Lemma hight_bounds_cover doc r g :
  In r doc -> In g (r_geometry r) ->
  covers (Hight.calculate_map_bounds cos sin doc) (g_x g) (g_y g)
  /\ covers (Hight.calculate_map_bounds cos sin doc) (x_end cos g) (y_end sin g).
Proof.
  unfold Hight.calculate_map_bounds. generalize (@None Q, @None Q, @None Q, @None Q).
  induction doc as [|r' doc IH]; intros acc Hr Hg; [contradiction|].
  destruct Hr as [->|Hr]; simpl.
  - destruct (fold_geometry_covers cos sin (r_geometry r) acc g Hg) as [Hs He].
    split; apply hight_roads_mono; assumption.
  - apply IH; assumption.
Qed.

(** They are infinite exactly when the document has no primitive. *)
Lemma hight_bounds_none doc :
  all_geometry doc = [] ->
  Hight.calculate_map_bounds cos sin doc = (None, None, None, None).
Proof.
  unfold Hight.calculate_map_bounds, all_geometry.
  generalize (@None Q, @None Q, @None Q, @None Q).
  induction doc as [|r doc IH]; intros acc H; simpl in *; [reflexivity|].
  apply app_eq_nil in H. destruct H as [Hr Hd]. rewrite Hr. simpl. apply IH, Hd.
Qed.

Lemma hight_global_step_mono acc doc x y :
  covers acc x y -> covers (HightMulti.global_bounds_step cos sin acc doc) x y.
Proof.
  unfold HightMulti.global_bounds_step.
  destruct (HightMulti.calculate_map_bounds cos sin doc) as [[[a1 b1] c1] d1].
  destruct acc as [[[[a|] [b|]] [c|]] [d|]]; simpl; try tauto.
  intros (H1 & H2 & H3 & H4).
  destruct a1, b1, c1, d1; simpl; repeat split;
    eauto using Qle_trans, Q.le_min_l, Q.le_max_l.
Qed.

Lemma hight_global_step_new acc doc x y :
  ordered_or_empty acc ->
  covers (HightMulti.calculate_map_bounds cos sin doc) x y ->
  covers (HightMulti.global_bounds_step cos sin acc doc) x y.
Proof.
  unfold HightMulti.global_bounds_step.
  destruct (HightMulti.calculate_map_bounds cos sin doc) as [[[[a1|] [b1|]] [c1|]] [d1|]];
    simpl; try tauto.
  destruct acc as [[[[a|] [b|]] [c|]] [d|]]; simpl; try tauto.
  intros _ (H1 & H2 & H3 & H4).
  repeat split; eauto using Qle_trans, Q.le_min_r, Q.le_max_r.
Qed.

Lemma hight_doc_ordered doc : ordered_or_empty (Hight.calculate_map_bounds cos sin doc).
Proof.
  unfold Hight.calculate_map_bounds.
  assert (H : ordered_or_empty (@None Q, @None Q, @None Q, @None Q)) by exact I.
  revert H. generalize (@None Q, @None Q, @None Q, @None Q).
  induction doc as [|r doc IH]; intros acc H; simpl; auto.
  apply IH. revert acc H.
  induction (r_geometry r) as [|g gs IHg]; intros acc H; simpl; auto.
  apply IHg. apply (bounds_geometry_ordered cos sin acc g H).
Qed.

Lemma hight_global_step_ordered acc doc :
  ordered_or_empty acc -> ordered_or_empty (HightMulti.global_bounds_step cos sin acc doc).
Proof.
  unfold HightMulti.global_bounds_step, HightMulti.calculate_map_bounds.
  pose proof (hight_doc_ordered doc) as Hd.
  destruct (Hight.calculate_map_bounds cos sin doc) as [[[[a1|] [b1|]] [c1|]] [d1|]];
    simpl in Hd; try contradiction;
    destruct acc as [[[[a|] [b|]] [c|]] [d|]]; simpl; try tauto.
  intros [H1 H2]. destruct Hd as [H3 H4].
  pose proof (Q.le_min_l a a1). pose proof (Q.le_max_l b b1).
  pose proof (Q.le_min_l c c1). pose proof (Q.le_max_l d d1).
  split; lra.
Qed.

(** The global bounds of the height batch contain the start and end of
    every primitive of every document. *)
Lemma hight_global_cover docs doc r g :
  In doc docs -> In r doc -> In g (r_geometry r) ->
  covers (HightMulti.global_bounds cos sin docs) (g_x g) (g_y g)
  /\ covers (HightMulti.global_bounds cos sin docs) (x_end cos g) (y_end sin g).
Proof.
  intros Hd Hr Hg. unfold HightMulti.global_bounds.
  assert (H : ordered_or_empty (@None Q, @None Q, @None Q, @None Q)) by exact I.
  revert H. generalize (@None Q, @None Q, @None Q, @None Q).
  induction docs as [|d docs IH]; intros acc Hacc; [contradiction|].
  simpl. destruct Hd as [->|Hd].
  - destruct (hight_bounds_cover doc r g Hr Hg) as [Hs He].
    assert (Hk : forall x y, covers (HightMulti.global_bounds_step cos sin acc doc) x y ->
               covers (fold_left (HightMulti.global_bounds_step cos sin) docs
                                 (HightMulti.global_bounds_step cos sin acc doc)) x y).
    { intros x y. generalize (HightMulti.global_bounds_step cos sin acc doc).
      clear. induction docs as [|d docs IH]; intros a H; simpl; auto.
      apply IH, hight_global_step_mono, H. }
    split; apply Hk, hight_global_step_new; assumption.
  - apply IH; [exact Hd|]. apply hight_global_step_ordered, Hacc.
Qed.

End HeightBounds.

(** In the batch height script every sample of every primitive with an
    elevation falls on a cell of the merged grid, provided the resolution is
    positive and the lengths are non-negative. *)
Theorem batch_height_keeps_every_sample
        (cos sin : Q -> Q) (res : Q) (docs : list document)
        (min_x max_x min_y max_y : Q) (g : geometry) (w : Z * Z * Q) :
  0 < res ->
  (forall d, In d docs -> forward d) ->
  HightMulti.global_bounds cos sin docs = (Some min_x, Some max_x, Some min_y, Some max_y) ->
  In g (batch_geometry docs) ->
  In w (HightMulti.geometry_writes cos sin res min_x min_y g) ->
  in_range (Py.ceil ((max_y - min_y) / res) + 1) (Py.ceil ((max_x - min_x) / res) + 1)
           (fst w).
Proof.
  intros Hres Hfwd Hgb Hg Hw.
  unfold batch_geometry in Hg. apply in_flat_map in Hg. destruct Hg as (doc & Hd & Hg).
  apply in_flat_map in Hg. destruct Hg as (r & Hr & Hg).
  destruct (hight_global_cover cos sin docs doc r g Hd Hr Hg) as [Hs He].
  rewrite Hgb in Hs, He. simpl in Hs, He. unfold x_end, y_end in He.
  unfold HightMulti.geometry_writes in Hw.
  destruct (g_elevation g) as [a|]; [|contradiction].
  apply in_map_iff in Hw. destruct Hw as (i & <- & Hi). apply in_range_iff in Hi.
  assert (Ht : 0 <= inject_Z i * res <= g_length g)
    by (apply step_on_primitive; [exact Hres|apply (Hfwd doc Hd r g Hr Hg)|lia]).
  assert (Hx : min_x <= g_x g + inject_Z i * res * cos (g_hdg g) <= max_x)
    by (apply between_ends with (len := g_length g); lra).
  assert (Hy : min_y <= g_y g + inject_Z i * res * sin (g_hdg g) <= max_y)
    by (apply between_ends with (len := g_length g); lra).
  unfold in_range. simpl. split; apply batch_index_in_range; lra.
Qed.

Lemma batch_height_keeps_every_sample_witness : in_range 1 7 (0%Z, 4%Z).
Proof.
  refine (batch_height_keeps_every_sample
            cos_approx sin_approx (1 # 2) [doc_AB] 0 3 0 0 prim_A ((0%Z, 4%Z), 1)
            eq_refl _ _ _ _).
  - intros d [<-|[]] r g [<-|[]] [<-|[<-|[]]]; simpl; lra.
  - vm_compute. reflexivity.
  - left. reflexivity.
  - vm_compute. auto 10.
Defined.



(** At a positive resolution the single-document height script fails (its
    handler returns [None]) exactly on documents without any primitive. *)
Theorem ground_height_fails_iff_no_geometry (cos sin : Q -> Q) (res : Q) (doc : document) :
  0 < res ->
  Hight.xodr_to_ground_height cos sin doc res = None <-> all_geometry doc = [].
Proof.
  intros Hres. unfold Hight.xodr_to_ground_height.
  rewrite (positive_not_zero res Hres). split.
  - intros H. destruct (all_geometry doc) as [|g gs] eqn:Eg; [reflexivity|]. exfalso.
    assert (Hg : In g (all_geometry doc)) by (rewrite Eg; left; reflexivity).
    unfold all_geometry in Hg. apply in_flat_map in Hg. destruct Hg as (r & Hr & Hg).
    destruct (hight_bounds_cover cos sin doc r g Hr Hg) as [Hs _].
    destruct (Hight.calculate_map_bounds cos sin doc) as [[[[a|] [b|]] [c|]] [d|]];
      simpl in Hs; try contradiction.
    assert (Hqx : 0 <= (b - a) / res) by (apply quotient_nonneg; lra).
    assert (Hqy : 0 <= (d - c) / res) by (apply quotient_nonneg; lra).
    destruct (py_int_nonneg _ Hqx) as [_ Px]. destruct (py_int_nonneg _ Hqy) as [_ Py].
    destruct (full_some (Py.int ((d - c) / res)) (Py.int ((b - a) / res)) 0 Py Px) as [z Ez].
    rewrite Ez in H. discriminate.
  - intros H. rewrite (hight_bounds_none cos sin doc H). reflexivity.
Qed.

Lemma ground_height_fails_iff_no_geometry_witness :
  Hight.xodr_to_ground_height cos_approx sin_approx [mkRoad [] [] None None] (1 # 2) = None.
Proof.
  apply (ground_height_fails_iff_no_geometry cos_approx sin_approx (1 # 2));
    reflexivity.
Defined.

(** ** Bounding boxes *)


Lemma filter_nonempty_concat {A} (ts : list (list A)) :
  List.concat (filter (fun t => (0 <? List.length t)%nat) ts) = List.concat ts.
Proof.
  induction ts as [|t ts IH]; simpl; [reflexivity|].
  destruct t as [|a t]; simpl; [exact IH|]. rewrite IH. reflexivity.
Qed.

(** The merged bounding-box table of a batch is the table of all its roads
    taken as one document: one row of four numbers per primitive, in
    traversal order.  Nothing is saved exactly when no document has a
    primitive. *)
Theorem bbox_batch_is_table_of_all_roads (cos sin : Q -> Q) (docs : list document) :
  (forall table,
      BBoxMulti.batch_convert_xodr_to_bbox_table cos sin docs = Some table ->
      table = BBox.xodr_to_bbox_table cos sin (List.concat docs)
      /\ table = map (BBox.bbox_row cos sin) (batch_geometry docs)
      /\ Forall (fun row => List.length row = 4%nat) table)
  /\ (BBoxMulti.batch_convert_xodr_to_bbox_table cos sin docs = None
      <-> batch_geometry docs = []).
Proof.
  assert (Hall : batch_geometry docs = all_geometry (List.concat docs)).
  { unfold batch_geometry, all_geometry.
    induction docs as [|d docs IH]; [reflexivity|].
    cbn [flat_map List.concat]. rewrite flat_map_app, IH. reflexivity. }
  assert (Htab : forall doc, BBox.xodr_to_bbox_table cos sin doc
                             = map (BBox.bbox_row cos sin) (all_geometry doc)).
  { intros doc. unfold BBox.xodr_to_bbox_table, all_geometry.
    induction doc as [|r doc IH]; simpl; [reflexivity|]. rewrite map_app, IH. reflexivity. }
  assert (Hcat : List.concat (BBoxMulti.all_bboxes cos sin docs)
                 = map (BBox.bbox_row cos sin) (batch_geometry docs)).
  { clear Hall. unfold BBoxMulti.all_bboxes. rewrite filter_nonempty_concat.
    unfold BBoxMulti.xodr_to_bbox_table, batch_geometry.
    induction docs as [|d docs IH]; simpl; [reflexivity|].
    rewrite map_app, IH, Htab. reflexivity. }
  unfold BBoxMulti.batch_convert_xodr_to_bbox_table. split.
  - intros table H.
    assert (E : table = List.concat (BBoxMulti.all_bboxes cos sin docs)).
    { destruct (BBoxMulti.all_bboxes cos sin docs); [discriminate|congruence]. }
    rewrite Hcat in E. subst table.
    split; [rewrite Htab, Hall; reflexivity|]. split; [reflexivity|].
    apply Forall_forall. intros row Hrow. apply in_map_iff in Hrow.
    destruct Hrow as (g & <- & _). reflexivity.
  - split.
    + intros H. destruct (BBoxMulti.all_bboxes cos sin docs) eqn:E; [|discriminate].
      simpl in Hcat. symmetry in Hcat. apply map_eq_nil in Hcat. exact Hcat.
    + intros H. rewrite H in Hcat. simpl in Hcat.
      destruct (BBoxMulti.all_bboxes cos sin docs) as [|t ts] eqn:E; [reflexivity|].
      exfalso.
      assert (Ht : In t (BBoxMulti.all_bboxes cos sin docs)) by (rewrite E; left; reflexivity).
      unfold BBoxMulti.all_bboxes in Ht. apply filter_In in Ht. destruct Ht as [_ Ht].
      simpl in Hcat. apply app_eq_nil in Hcat. destruct Hcat as [-> _]. discriminate.
Qed.

(** ** The per-document vector-map compiler *)

Lemma range_succ (n : nat) : Py.range (Z.of_nat (S n)) = Py.range (Z.of_nat n) ++ [Z.of_nat n].
Proof.
  unfold Py.range. rewrite !Nat2Z.id. rewrite seq_S, map_app. reflexivity.
Qed.

Lemma numbered_snoc ns counter x y :
  numbered ns counter -> numbered (ns ++ [mkNode counter x y]) (counter + 1).
Proof.
  intros [Hids Hc]. subst counter. split.
  - rewrite map_app, Hids. simpl.
    replace (Z.of_nat (List.length ns) + 1)%Z with (Z.of_nat (S (List.length ns))) by lia.
    rewrite range_succ. reflexivity.
  - rewrite length_app. simpl. lia.
Qed.

Lemma dense_snoc mapping counter v :
  dense mapping counter -> dense (mapping ++ [(counter, v)]) (counter + 1).
Proof.
  intros [Hk Hc]. subst counter. split.
  - rewrite map_app, Hk. simpl.
    replace (Z.of_nat (List.length mapping) + 1)%Z
      with (Z.of_nat (S (List.length mapping))) by lia.
    rewrite range_succ. reflexivity.
  - rewrite length_app. simpl. lia.
Qed.

Section LanidStructure.
Import Lanid.

(** The geometry loop of a road appends one node per primitive, with the
    primitive's coordinates, to the node table and to the road's list. *)
Lemma lanid_geometry_nodes gs : forall rg st,
  let '(rg', st') := fold_left geometry_step gs (rg, st) in
  (exists new, rg' = rg ++ new /\ p_nodes st' = p_nodes st ++ new
               /\ coords_of new = geometry_coords gs)
  /\ (numbered (p_nodes st) (p_node_id st) -> numbered (p_nodes st') (p_node_id st')).
Proof.
  induction gs as [|g gs IH]; intros rg st.
  - simpl. split; [exists []; rewrite !app_nil_r; auto|auto].
  - cbn [fold_left]. unfold geometry_step at 2.
    set (n := mkNode (p_node_id st) (g_x g) (g_y g)).
    specialize (IH (rg ++ [n])
                   (mkP (p_nodes st ++ [n]) (p_ways st) (p_node_id st + 1)%Z (p_mapping st)
                        (p_table_idx st) (p_draws st) (p_existing st))).
    destruct (fold_left geometry_step gs _) as [rg' st'].
    destruct IH as [(new & E1 & E2 & E3) Hnum]. simpl in E2, Hnum. split.
    + exists (n :: new). rewrite E1, E2, <- !app_assoc. simpl.
      split; [reflexivity|]. split; [reflexivity|].
      unfold coords_of, geometry_coords in *. simpl. rewrite E3. reflexivity.
    + intros H. apply Hnum. apply numbered_snoc, H.
Qed.

Lemma lanid_lane_step_nodes r rg st l st' :
  lane_step r rg st l = Some st' ->
  p_nodes st' = p_nodes st /\ p_node_id st' = p_node_id st.
Proof.
  unfold lane_step.
  destruct (generate_unique_lane_id _ _) as [[[id dr] ex]|]; [|discriminate].
  intros [= <-]. auto.
Qed.

Lemma lanid_lanes_nodes r rg lss s s' :
  foldM (fun s ls => foldM (lane_step r rg) (ls_lanes ls) s) lss s = Some s' ->
  p_nodes s' = p_nodes s /\ p_node_id s' = p_node_id s.
Proof.
  apply (foldM_inv (fun t => p_nodes t = p_nodes s /\ p_node_id t = p_node_id s)); [|auto].
  intros ls t t' _ Ht.
  apply (foldM_inv (fun u => p_nodes u = p_nodes s /\ p_node_id u = p_node_id s)); [|exact Ht].
  intros l u u' _ [Hu1 Hu2] E. apply lanid_lane_step_nodes in E. destruct E as [-> ->]. auto.
Qed.

(** The per-document compiler creates exactly one node per geometry
    primitive, in document order, with the primitive's own coordinates and
    the identifiers 0, 1, 2, ...; nothing is merged. *)
Theorem lanid_nodes_one_per_primitive doc draws existing st :
  parse_xodr_to_vector_map doc draws existing = Some st ->
  coords_of (p_nodes st) = geometry_coords (all_geometry doc)
  /\ map n_id (p_nodes st) = Py.range (Z.of_nat (List.length (all_geometry doc))).
Proof.
  unfold parse_xodr_to_vector_map. intros H.
  assert (Hc : coords_of (p_nodes st) = [] ++ flat_map (fun r => geometry_coords (r_geometry r)) doc).
  { apply (foldM_obs (fun t => coords_of (p_nodes t))
                     (fun r => geometry_coords (r_geometry r))) in H; [exact H|].
    intros r s s'. unfold road_step.
    pose proof (lanid_geometry_nodes (r_geometry r) [] s) as Hg.
    destruct (fold_left geometry_step (r_geometry r) ([], s)) as [rg s1].
    destruct Hg as [(new & _ & E2 & E3) _]. intros Hl.
    apply lanid_lanes_nodes in Hl. destruct Hl as [-> _].
    rewrite E2. unfold coords_of in *. rewrite map_app, E3. reflexivity. }
  simpl in Hc.
  assert (Hflat : flat_map (fun r => geometry_coords (r_geometry r)) doc
                  = geometry_coords (all_geometry doc)).
  { unfold geometry_coords, all_geometry. clear.
    induction doc as [|r doc IH]; simpl; [reflexivity|]. rewrite map_app, IH. reflexivity. }
  rewrite Hflat in Hc. split; [exact Hc|].
  assert (Hn : numbered (p_nodes st) (p_node_id st)).
  { revert H. apply (foldM_inv (fun t => numbered (p_nodes t) (p_node_id t))).
    - intros r s s' _ Hs. unfold road_step.
      pose proof (lanid_geometry_nodes (r_geometry r) [] s) as Hg.
      destruct (fold_left geometry_step (r_geometry r) ([], s)) as [rg s1].
      destruct Hg as [_ Hnum]. intros Hl.
      apply lanid_lanes_nodes in Hl. destruct Hl as [-> ->]. apply Hnum, Hs.
    - split; reflexivity. }
  destruct Hn as [Hids Hcount]. rewrite Hids, Hcount. f_equal. f_equal.
  transitivity (List.length (coords_of (p_nodes st))).
  - unfold coords_of. rewrite length_map. reflexivity.
  - rewrite Hc. unfold geometry_coords. rewrite length_map. reflexivity.
Qed.

(** Every lane record carries the nodes of its own road, all of them in the
    node table: lane records are aligned with the lanes of the document, one
    per lane in document order (a lane of a road without geometry gets a
    record without node references). *)
Theorem lanid_ways_carry_road_nodes doc draws existing st :
  parse_xodr_to_vector_map doc draws existing = Some st ->
  map (fun w => coords_of (w_geometry w)) (p_ways st)
  = flat_map (fun r => map (fun _ => geometry_coords (r_geometry r)) (road_lanes r)) doc
  /\ (forall w n, In w (p_ways st) -> In n (w_geometry w) -> In n (p_nodes st)).
Proof.
  unfold parse_xodr_to_vector_map. intros H. split.
  - apply (foldM_obs (fun t => map (fun w => coords_of (w_geometry w)) (p_ways t))
                     (fun r => map (fun _ => geometry_coords (r_geometry r)) (road_lanes r)))
      in H; [exact H|].
    intros r s s'. unfold road_step.
    pose proof (lanid_geometry_nodes (r_geometry r) [] s) as Hg.
    pose proof (lanid_geometry_fold (r_geometry r) [] s) as Hf.
    destruct (fold_left geometry_step (r_geometry r) ([], s)) as [rg s1].
    destruct Hg as [(new & E1 & _ & E3) _]. destruct Hf as (Hw & _).
    simpl in E1. subst rg. rewrite <- Hw, <- E3. intros Hl.
    set (obs := fun t : pstate => map (fun w => coords_of (w_geometry w)) (p_ways t)).
    assert (Hlane : forall l u u', lane_step r new u l = Some u' ->
                      obs u' = obs u ++ [coords_of new]).
    { intros l u u'. unfold lane_step, obs.
      destruct (generate_unique_lane_id _ _) as [[[id dr] ex]|]; [|discriminate].
      intros [= <-]. simpl. rewrite map_app. reflexivity. }
    assert (Hsec : forall ls t t', foldM (lane_step r new) (ls_lanes ls) t = Some t' ->
                     obs t' = obs t ++ map (fun _ => coords_of new) (ls_lanes ls)).
    { intros ls t t' Ht.
      rewrite (foldM_obs obs (fun _ => [coords_of new]) _ _ Hlane _ _ Ht). reflexivity. }
    change (obs s' = obs s1 ++ map (fun _ => coords_of new) (road_lanes r)).
    rewrite (foldM_obs obs (fun ls => map (fun _ => coords_of new) (ls_lanes ls))
                       _ _ Hsec _ _ Hl).
    f_equal. unfold road_lanes. clear.
    induction (r_laneSections r) as [|ls lss IH]; simpl; [reflexivity|].
    rewrite map_app, IH. reflexivity.
  - revert H.
    apply (foldM_inv (fun t => forall w n, In w (p_ways t) -> In n (w_geometry w) ->
                                           In n (p_nodes t))); [|intros w n []].
    intros r s s' _ Hs. unfold road_step.
    pose proof (lanid_geometry_nodes (r_geometry r) [] s) as Hg.
    pose proof (lanid_geometry_fold (r_geometry r) [] s) as Hf.
    destruct (fold_left geometry_step (r_geometry r) ([], s)) as [rg s1].
    destruct Hg as [(new & E1 & E2 & _) _]. destruct Hf as (Hw & _).
    simpl in E1. subst rg.
    apply (foldM_inv (fun t => p_nodes t = p_nodes s1
                               /\ forall w n, In w (p_ways t) -> In n (w_geometry w) ->
                                              In n (p_nodes t))).
    + intros ls t t' _ Ht.
      apply (foldM_inv (fun u => p_nodes u = p_nodes s1
                                 /\ forall w n, In w (p_ways u) -> In n (w_geometry w) ->
                                                In n (p_nodes u))); [|exact Ht].
      intros l u u' _ [Hu1 Hu2]. unfold lane_step.
      destruct (generate_unique_lane_id _ _) as [[[id dr] ex]|]; [|discriminate].
      intros [= <-]. simpl. split; [exact Hu1|].
      intros w n Hin Hn. apply in_app_or in Hin. destruct Hin as [Hin|[<-|[]]].
      * apply (Hu2 w n Hin Hn).
      * simpl in Hn. rewrite Hu1, E2. apply in_or_app. right. exact Hn.
    + split; [reflexivity|]. intros w n Hin Hn. rewrite E2. apply in_or_app. left.
      rewrite Hw in Hin. apply (Hs w n Hin Hn).
Qed.

(** The table-index map of the per-document compiler has the keys
    0, 1, 2, ... in order, one per lane of the document. *)
Theorem lanid_mapping_dense doc draws existing st :
  parse_xodr_to_vector_map doc draws existing = Some st ->
  map fst (p_mapping st) = Py.range (Z.of_nat (lane_count doc))
  /\ List.length (p_ways st) = lane_count doc.
Proof.
  intros H.
  assert (Hlen : List.length (p_ways st) = lane_count doc).
  { pose proof (lanid_parse_links doc draws existing st H) as E.
    apply (f_equal (@List.length _)) in E. rewrite length_map in E. rewrite E.
    unfold lane_count. clear. induction doc as [|r doc IH]; simpl; [reflexivity|].
    rewrite length_app, length_map, IH. reflexivity. }
  split; [|exact Hlen].
  assert (Hd : dense (p_mapping st) (p_table_idx st)
               /\ List.length (p_mapping st) = List.length (p_ways st)).
  { revert H. unfold parse_xodr_to_vector_map.
    apply (foldM_inv (fun t => dense (p_mapping t) (p_table_idx t)
                               /\ List.length (p_mapping t) = List.length (p_ways t)));
      [|split; [split; reflexivity|reflexivity]].
    intros r s s' _ Hs. unfold road_step.
    pose proof (lanid_geometry_fold (r_geometry r) [] s) as Hf.
    destruct (fold_left geometry_step (r_geometry r) ([], s)) as [rg s1].
    destruct Hf as (Hw & Hm & Hi & _).
    apply (foldM_inv (fun t => dense (p_mapping t) (p_table_idx t)
                               /\ List.length (p_mapping t) = List.length (p_ways t)));
      [|rewrite Hw, Hm, Hi; exact Hs].
    intros ls t t' _ Ht.
    apply (foldM_inv (fun t => dense (p_mapping t) (p_table_idx t)
                               /\ List.length (p_mapping t) = List.length (p_ways t)));
      [|exact Ht].
    intros l u u' _ [Hu1 Hu2]. unfold lane_step.
    destruct (generate_unique_lane_id _ _) as [[[id dr] ex]|]; [|discriminate].
    intros [= <-]. simpl. split; [apply dense_snoc, Hu1|].
    rewrite !length_app. simpl. lia. }
  destruct Hd as [[Hk Hc] Hl]. rewrite Hk, Hc, Hl, Hlen. reflexivity.
Qed.

End LanidStructure.

Lemma lanid_nodes_one_per_primitive_witness :
  exists st,
    Lanid.parse_xodr_to_vector_map (doc_AB ++ straight_road) [1000001]%Z [] = Some st
    /\ coords_of (Lanid.p_nodes st) = [(0, 0); (1, 0); (0, 0)]
    /\ map n_id (Lanid.p_nodes st) = [0; 1; 2]%Z.
Proof.
  destruct (Lanid.parse_xodr_to_vector_map (doc_AB ++ straight_road) [1000001]%Z [])
    as [st|] eqn:E; [|vm_compute in E; discriminate].
  exists st. split; [reflexivity|].
  apply (lanid_nodes_one_per_primitive _ _ _ _ E).
Defined.

Lemma lanid_ways_carry_road_nodes_witness :
  exists st,
    Lanid.parse_xodr_to_vector_map (doc_AB ++ straight_road) [1000001]%Z [] = Some st
    /\ map (fun w => coords_of (w_geometry w)) (Lanid.p_ways st) = [[(0, 0)]]
    /\ (forall w n, In w (Lanid.p_ways st) -> In n (w_geometry w) -> In n (Lanid.p_nodes st)).
Proof.
  destruct (Lanid.parse_xodr_to_vector_map (doc_AB ++ straight_road) [1000001]%Z [])
    as [st|] eqn:E; [|vm_compute in E; discriminate].
  exists st. split; [reflexivity|].
  apply (lanid_ways_carry_road_nodes _ _ _ _ E).
Defined.

Lemma lanid_mapping_dense_witness :
  exists st,
    Lanid.parse_xodr_to_vector_map (straight_road ++ straight_road)
                                   [1000001; 1000002]%Z [] = Some st
    /\ map fst (Lanid.p_mapping st) = [0; 1]%Z
    /\ List.length (Lanid.p_ways st) = 2%nat.
Proof.
  destruct (Lanid.parse_xodr_to_vector_map (straight_road ++ straight_road)
                                           [1000001; 1000002]%Z [])
    as [st|] eqn:E; [|vm_compute in E; discriminate].
  exists st. split; [reflexivity|].
  apply (lanid_mapping_dense _ _ _ _ E).
Defined.

Lemma lanid_parse_returns_witness :
  fresh_draws [1000001; 1000002]%Z []
  /\ exists st,
       Lanid.parse_xodr_to_vector_map (straight_road ++ straight_road)
                                      [1000001; 1000002]%Z [] = Some st.
Proof.
  assert (Hf : fresh_draws [1000001; 1000002]%Z []).
  { split.
    - repeat constructor; simpl; intuition discriminate.
    - intros d _ []. }
  split; [exact Hf|].
  apply (lanid_parse_returns _ _ _ Hf). vm_compute. lia.
Defined.

Lemma multi_run_returns_witness :
  exists st,
    LanidMulti.run toy_hash [straight_road; linked_road]
                   (LanidMulti.init [1000001; 1000002]%Z) = Some st.
Proof.
  apply (multi_run_returns toy_hash).
  - repeat constructor; simpl; intuition discriminate.
  - vm_compute. lia.
Defined.

(** ** The batch vector-map compiler: the merged tables *)

Lemma nodes_find_some k (m : list ((Q * Q) * node)) n :
  LanidMulti.nodes_find k m = Some n ->
  exists k', In (k', n) m /\ LanidMulti.key_eqb k k' = true.
Proof.
  unfold LanidMulti.nodes_find.
  destruct (find _ m) as [[k' n']|] eqn:E; [|discriminate].
  intros [= <-]. apply find_some in E. destruct E as [Hin Hk]. exists k'. auto.
Qed.

Lemma nodes_find_none k (m : list ((Q * Q) * node)) :
  LanidMulti.nodes_find k m = None -> ~ In k (map fst m).
Proof.
  unfold LanidMulti.nodes_find. destruct (find _ m) as [e|] eqn:E; [discriminate|].
  intros _ Hin. apply in_map_iff in Hin. destruct Hin as ([k' n] & <- & Hin).
  pose proof (find_none _ _ E _ Hin) as Hf. simpl in Hf.
  rewrite key_eqb_refl in Hf. discriminate.
Qed.

Lemma nodes_find_in k (m : list ((Q * Q) * node)) :
  In k (map fst m) -> exists n, LanidMulti.nodes_find k m = Some n.
Proof.
  intros Hin. destruct (LanidMulti.nodes_find k m) as [n|] eqn:E; [exists n; reflexivity|].
  exfalso. apply (nodes_find_none _ _ E Hin).
Qed.

Lemma ways_find_filed h (m : list (Z * way)) :
  In h (map fst m) -> exists w, LanidMulti.ways_find h m = Some w.
Proof.
  intros Hin. destruct (LanidMulti.ways_find h m) as [w|] eqn:E; [exists w; reflexivity|].
  exfalso. apply (ways_find_none _ _ E Hin).
Qed.

Lemma key_eqb_canonical (k k' : Q * Q) :
  canonical (fst k) -> canonical (snd k) -> canonical (fst k') -> canonical (snd k') ->
  LanidMulti.key_eqb k k' = true -> k = k'.
Proof.
  destruct k as [a b], k' as [a' b']. simpl. intros Ha Hb Ha' Hb' H.
  unfold LanidMulti.key_eqb in H. simpl in H. apply andb_true_iff in H.
  destruct H as [H1 H2]. apply Qeq_bool_iff in H1, H2.
  f_equal; apply canonical_eq; assumption.
Qed.

Lemma nodes_grow_refl keys st : nodes_grow keys st st.
Proof. exists []. split; [symmetry; apply app_nil_r|intros x []]. Qed.

Lemma nodes_grow_trans keys s1 s2 s3 :
  nodes_grow keys s1 s2 -> nodes_grow keys s2 s3 -> nodes_grow keys s1 s3.
Proof.
  intros (t1 & E1 & H1) (t2 & E2 & H2). exists (t1 ++ t2).
  split; [rewrite E2, E1; symmetry; apply app_assoc|].
  rewrite map_app. apply incl_app; assumption.
Qed.

Lemma nodes_grow_incl keys keys' s s' :
  incl keys keys' -> nodes_grow keys s s' -> nodes_grow keys' s s'.
Proof.
  intros Hi (t & E & H). exists t. split; [exact E|]. intros x Hx. apply Hi, H, Hx.
Qed.

Lemma nodes_grow_keeps keys s s' x :
  nodes_grow keys s s' -> In x (LanidMulti.global_nodes s) -> In x (LanidMulti.global_nodes s').
Proof. intros (t & -> & _) H. apply in_or_app. left. exact H. Qed.

Section MultiTables.
Import LanidMulti.
Variable hash : lane_key -> Z.

(** The geometry loop keeps the node table well formed, only appends nodes
    for the rounded coordinates of its primitives, leaves every one of them
    in the table, and hands the lanes one table node per primitive. *)
Lemma multi_geometry_table gs : forall rn st,
  node_table_ok st ->
  let '(rn', st') := fold_left geometry_step gs (rn, st) in
  node_table_ok st'
  /\ nodes_grow (rounded_coords gs) st st'
  /\ incl (rounded_coords gs) (map fst (global_nodes st'))
  /\ (exists new, rn' = rn ++ new /\ incl new (map snd (global_nodes st'))
                  /\ List.length new = List.length gs).
Proof.
  induction gs as [|g gs IH]; intros rn st Hok.
  - simpl. split; [exact Hok|]. split; [apply nodes_grow_refl|].
    split; [intros x []|]. exists []. rewrite app_nil_r.
    split; [reflexivity|]. split; [intros x []|reflexivity].
  - cbn [fold_left]. unfold geometry_step at 2.
    set (x := round4 (g_x g)). set (y := round4 (g_y g)).
    destruct Hok as (Hn & Hnd & Hids).
    destruct (nodes_find (x, y) (global_nodes st)) as [n0|] eqn:Ef.
    + rewrite Ef.
      assert (Hin0 : In ((x, y), n0) (global_nodes st)).
      { destruct (nodes_find_some _ _ _ Ef) as (k' & Hin & Hk).
        destruct (Hn _ _ Hin) as (Ek & Hc1 & Hc2).
        assert (E : (x, y) = k')
          by (apply key_eqb_canonical; try assumption; apply round4_canonical).
        rewrite E. exact Hin. }
      specialize (IH (rn ++ [n0])
                     (mkG (global_nodes st) (global_ways st) (global_mapping st)
                          (existing_lane_ids st) (table_idx_counter st) (g_draws st))).
      destruct (fold_left geometry_step gs _) as [rn' st'].
      destruct IH as (H1 & H2 & H3 & (new & E1 & E2 & E3));
        [unfold node_table_ok; simpl; auto|].
      destruct H2 as (tail & Et & Hi). simpl in Et.
      split; [exact H1|]. split; [|split].
      * exists tail. split; [exact Et|]. intros k Hk. right. apply Hi, Hk.
      * intros k [<-|Hk]; [|apply H3, Hk].
        rewrite Et, map_app. apply in_or_app. left.
        apply in_map_iff. exists ((x, y), n0). auto.
      * exists (n0 :: new). rewrite E1, <- app_assoc. split; [reflexivity|].
        split; [|simpl; rewrite E3; reflexivity].
        intros n [<-|Hin]; [|apply E2, Hin].
        rewrite Et, map_app. apply in_or_app. left.
        apply in_map_iff. exists ((x, y), n0). auto.
    + set (n := mkNode (Z.of_nat (List.length (global_nodes st))) x y).
      assert (Ef' : nodes_find (x, y) (global_nodes st ++ [((x, y), n)]) = Some n).
      { unfold nodes_find in *.
        destruct (find _ (global_nodes st)) eqn:E; [discriminate|].
        rewrite (find_app_none _ _ ((x, y), n) E (key_eqb_refl (x, y))). reflexivity. }
      rewrite Ef'.
      specialize (IH (rn ++ [n])
                     (mkG (global_nodes st ++ [((x, y), n)]) (global_ways st)
                          (global_mapping st) (existing_lane_ids st)
                          (table_idx_counter st) (g_draws st))).
      destruct (fold_left geometry_step gs _) as [rn' st'].
      destruct IH as (H1 & H2 & H3 & (new & E1 & E2 & E3)).
      { unfold node_table_ok. simpl. split; [|split].
        - intros k n1 H. apply in_app_or in H.
          destruct H as [H|[[= <- <-]|[]]]; [apply (Hn k n1 H)|].
          simpl. split; [reflexivity|]. split; apply round4_canonical.
        - rewrite map_app. simpl. apply NoDup_app; [exact Hnd|repeat constructor; intros []|].
          intros k Hk [E|[]]. subst k. apply (nodes_find_none _ _ Ef Hk).
        - rewrite map_app, Hids, length_app. simpl.
          replace (List.length (global_nodes st) + 1)%nat
            with (S (List.length (global_nodes st))) by lia.
          rewrite range_succ. reflexivity. }
      destruct H2 as (tail & Et & Hi). simpl in Et.
      split; [exact H1|]. split; [|split].
      * exists (((x, y), n) :: tail). split; [rewrite Et, <- app_assoc; reflexivity|].
        simpl. intros k [<-|Hk]; [left; reflexivity|right; apply Hi, Hk].
      * intros k [<-|Hk]; [|apply H3, Hk].
        rewrite Et, !map_app. apply in_or_app. left. apply in_or_app. right.
        left. reflexivity.
      * exists (n :: new). rewrite E1, <- app_assoc. split; [reflexivity|].
        split; [|simpl; rewrite E3; reflexivity].
        intros n1 [<-|Hin]; [|apply E2, Hin].
        rewrite Et, !map_app. apply in_or_app. left. apply in_or_app. right.
        left. reflexivity.
Qed.

Lemma sections_nodes rn lss s s' :
  foldM (fun s ls => foldM (lane_step hash rn) (ls_lanes ls) s) lss s = Some s' ->
  global_nodes s' = global_nodes s.
Proof.
  apply (foldM_inv (fun t => global_nodes t = global_nodes s)); [|reflexivity].
  intros ls t t' _ Ht.
  apply (foldM_inv (fun u => global_nodes u = global_nodes s)); [|exact Ht].
  intros l u u' _ Hu E. rewrite (lane_step_nodes hash _ _ _ _ E). exact Hu.
Qed.

Lemma node_table_ok_nodes s s' :
  global_nodes s' = global_nodes s -> node_table_ok s -> node_table_ok s'.
Proof. unfold node_table_ok. intros ->. auto. Qed.

(** One road: the node table stays well formed, grows only by the rounded
    coordinates of the road's primitives, and contains all of them. *)
Lemma road_step_table s r s' :
  node_table_ok s -> road_step hash s r = Some s' ->
  node_table_ok s'
  /\ nodes_grow (rounded_coords (r_geometry r)) s s'
  /\ incl (rounded_coords (r_geometry r)) (map fst (global_nodes s')).
Proof.
  intros Hok. unfold road_step.
  pose proof (multi_geometry_table (r_geometry r) [] s Hok) as Hg.
  destruct (fold_left geometry_step (r_geometry r) ([], s)) as [rn s1].
  destruct Hg as (H1 & H2 & H3 & _).
  assert (Hsame : forall t, global_nodes t = global_nodes s1 ->
            node_table_ok t /\ nodes_grow (rounded_coords (r_geometry r)) s t
            /\ incl (rounded_coords (r_geometry r)) (map fst (global_nodes t))).
  { intros t Et. split; [apply (node_table_ok_nodes s1); assumption|].
    split; [|rewrite Et; exact H3].
    destruct H2 as (tail & E & Hi). exists tail. rewrite Et. auto. }
  destruct rn as [|n rn].
  - intros [= <-]. apply Hsame. reflexivity.
  - intros H. apply Hsame. apply (sections_nodes _ _ _ _ H).
Qed.

Lemma rounded_coords_road docs doc r :
  In doc docs -> In r doc ->
  incl (rounded_coords (r_geometry r)) (rounded_coords (batch_geometry docs)).
Proof.
  intros Hd Hr k Hk. unfold rounded_coords in *. apply in_map_iff in Hk.
  destruct Hk as (g & <- & Hg). apply in_map_iff. exists g. split; [reflexivity|].
  unfold batch_geometry. apply in_flat_map. exists doc. split; [exact Hd|].
  apply in_flat_map. exists r. auto.
Qed.

Lemma run_table docs : forall docs0 s s',
  incl docs0 docs -> node_table_ok s -> run hash docs0 s = Some s' ->
  node_table_ok s' /\ nodes_grow (rounded_coords (batch_geometry docs)) s s'.
Proof.
  intros docs0 s s' Hincl Hok. unfold run.
  apply (foldM_inv (fun t => node_table_ok t
                             /\ nodes_grow (rounded_coords (batch_geometry docs)) s t));
    [|split; [exact Hok|apply nodes_grow_refl]].
  intros doc t t' Hd [Ht Hgt]. unfold document_step.
  apply (foldM_inv (fun u => node_table_ok u
                             /\ nodes_grow (rounded_coords (batch_geometry docs)) s u));
    [|split; assumption].
  intros r u u' Hr [Hu Hgu] E.
  destruct (road_step_table _ _ _ Hu E) as (H1 & H2 & _).
  split; [exact H1|]. apply (nodes_grow_trans _ _ u); [exact Hgu|].
  apply (nodes_grow_incl (rounded_coords (r_geometry r))); [|exact H2].
  apply (rounded_coords_road docs doc); [apply Hincl, Hd|exact Hr].
Qed.

Lemma node_table_init draws : node_table_ok (init draws).
Proof.
  unfold node_table_ok, init. simpl.
  split; [intros k n []|]. split; [constructor|reflexivity].
Qed.

(** The rounded coordinates of every primitive met along the way are in the
    node table at the end. *)
Lemma run_covers docs doc r s s' :
  In doc docs -> In r doc -> node_table_ok s -> run hash docs s = Some s' ->
  incl (rounded_coords (r_geometry r)) (map fst (global_nodes s')).
Proof.
  intros Hd Hr. unfold run.
  set (G := fun t : gstate => incl (rounded_coords (r_geometry r)) (map fst (global_nodes t))).
  assert (Hkeep : forall keys t t', nodes_grow keys t t' -> G t -> G t').
  { intros keys t t' (tail & E & _) Ht k Hk. rewrite E, map_app.
    apply in_or_app. left. apply Ht, Hk. }
  apply (foldM_reach node_table_ok G _ _ doc); [exact Hd| | |].
  - intros b t t' _ Ht E.
    apply (run_table [b] [b] t t' (incl_refl _) Ht). unfold run. simpl. rewrite E. reflexivity.
  - intros b t t' _ Ht Hg E.
    assert (E' : run hash [b] t = Some t') by (unfold run; simpl; rewrite E; reflexivity).
    destruct (run_table [b] [b] t t' (incl_refl _) Ht E') as (_ & Hgrow).
    apply (Hkeep _ _ _ Hgrow Hg).
  - intros t t'. unfold document_step.
    apply (foldM_reach node_table_ok G _ _ r); [exact Hr| | |].
    + intros b u u' _ Hu E. apply (road_step_table _ _ _ Hu E).
    + intros b u u' _ Hu Hg E. destruct (road_step_table _ _ _ Hu E) as (_ & Hgrow & _).
      apply (Hkeep _ _ _ Hgrow Hg).
    + intros u u' Hu E. apply (road_step_table _ _ _ Hu E).
Qed.

End MultiTables.



Section MultiWays.
Import LanidMulti.
Variable hash : lane_key -> Z.

(** The geometry loop touches nothing but the node table. *)
Lemma geometry_fold_rest gs : forall rn st,
  let '(rn', st') := fold_left geometry_step gs (rn, st) in
  global_ways st' = global_ways st
  /\ global_mapping st' = global_mapping st
  /\ existing_lane_ids st' = existing_lane_ids st
  /\ table_idx_counter st' = table_idx_counter st
  /\ g_draws st' = g_draws st.
Proof.
  induction gs as [|g gs IH]; intros rn st; [simpl; auto 10|].
  cbn [fold_left]. destruct (geometry_step (rn, st) g) as [rn1 s1] eqn:E.
  assert (H1 : global_ways s1 = global_ways st
               /\ global_mapping s1 = global_mapping st
               /\ existing_lane_ids s1 = existing_lane_ids st
               /\ table_idx_counter s1 = table_idx_counter st
               /\ g_draws s1 = g_draws st).
  { unfold geometry_step in E.
    destruct (nodes_find _ (global_nodes st)).
    - destruct (nodes_find _ (global_nodes st)); injection E as _ <-; simpl; auto 10.
    - destruct (nodes_find _ (global_nodes st ++ _)); injection E as _ <-; simpl; auto 10. }
  specialize (IH rn1 s1). destruct (fold_left geometry_step gs (rn1, s1)) as [rn' s'].
  destruct H1 as (-> & -> & -> & -> & ->) in IH. exact IH.
Qed.

Lemma ways_refer_grow keys s s' :
  nodes_grow keys s s' -> global_ways s' = global_ways s ->
  ways_refer_to_nodes s -> ways_refer_to_nodes s'.
Proof.
  intros (tail & En & _) Ew H h w Hin. rewrite Ew in Hin.
  destruct (H h w Hin) as [Hne Hi]. split; [exact Hne|].
  intros n Hn. rewrite En, map_app. apply in_or_app. left. apply Hi, Hn.
Qed.

Lemma lane_step_refers rn s l s' :
  rn <> [] -> incl rn (map snd (global_nodes s)) ->
  ways_refer_to_nodes s -> lane_step hash rn s l = Some s' ->
  ways_refer_to_nodes s'.
Proof.
  intros Hne Hi Hs. unfold lane_step.
  destruct (ways_find _ _); [intros [= <-]; exact Hs|].
  destruct (generate_unique_lane_id _ _) as [[[id d] e]|]; [|discriminate].
  intros [= <-] h w Hin. simpl in *. apply in_app_or in Hin.
  destruct Hin as [Hin|[[= <- <-]|[]]]; [apply (Hs h w Hin)|].
  simpl. auto.
Qed.

Lemma road_step_refers s r s' :
  node_table_ok s -> ways_refer_to_nodes s -> road_step hash s r = Some s' ->
  ways_refer_to_nodes s'.
Proof.
  intros Hok Hs. unfold road_step.
  pose proof (multi_geometry_table (r_geometry r) [] s Hok) as Hg.
  pose proof (geometry_fold_rest (r_geometry r) [] s) as Hf.
  destruct (fold_left geometry_step (r_geometry r) ([], s)) as [rn s1].
  destruct Hg as (_ & Hgrow & _ & (new & E1 & E2 & _)). simpl in E1. subst new.
  destruct Hf as (Hw & _).
  assert (H1 : ways_refer_to_nodes s1) by (eapply ways_refer_grow; eassumption).
  destruct rn as [|n rn]; [intros [= <-]; exact H1|].
  intros H.
  apply (foldM_inv (fun t => global_nodes t = global_nodes s1 /\ ways_refer_to_nodes t)
                   _ _) with (s := s1) (s' := s') in H;
    [apply H| |split; [reflexivity|exact H1]].
  - intros ls t t' _ Ht.
    apply (foldM_inv (fun u => global_nodes u = global_nodes s1 /\ ways_refer_to_nodes u));
      [|exact Ht].
    intros l u u' _ [Hu1 Hu2] E. split.
    + rewrite (lane_step_nodes hash _ _ _ _ E). exact Hu1.
    + apply (lane_step_refers (n :: rn) u l u'); [discriminate|rewrite Hu1; exact E2|exact Hu2|exact E].
Qed.

Lemma run_refers docs s s' :
  node_table_ok s -> ways_refer_to_nodes s -> run hash docs s = Some s' ->
  ways_refer_to_nodes s'.
Proof.
  intros Hok Hs H. unfold run in H.
  apply (foldM_inv (fun t => node_table_ok t /\ ways_refer_to_nodes t) _ _)
    with (s := s) (s' := s') in H; [apply H| |auto].
  intros doc t t' _ Ht. unfold document_step.
  apply (foldM_inv (fun u => node_table_ok u /\ ways_refer_to_nodes u)); [|exact Ht].
  intros r u u' _ [Hu1 Hu2] E. split.
  - apply (road_step_table hash _ _ _ Hu1 E).
  - apply (road_step_refers _ _ _ Hu1 Hu2 E).
Qed.

End MultiWays.

Lemma foldM_count {A S : Type} (m : S -> nat) (cost : A -> nat)
      (f : S -> A -> option S) (l : list A) :
  (forall a s s', f s a = Some s' -> (m s' <= m s + cost a)%nat) ->
  forall s s', foldM f l s = Some s' -> (m s' <= m s + list_sum (map cost l))%nat.
Proof.
  intros Hf. induction l as [|a l IH]; intros s s'; simpl.
  - intros [= <-]. lia.
  - destruct (f s a) as [s1|] eqn:E; [|discriminate].
    intros H. specialize (IH _ _ H). specialize (Hf _ _ _ E). lia.
Qed.

Section MultiSound.
Import LanidMulti.
Variable hash : lane_key -> Z.
Variable docs : list document.

Lemma lane_step_from r ls l rn s s' :
  In ls (r_laneSections r) -> In l (ls_lanes ls) ->
  (exists doc, In doc docs /\ In r doc) ->
  r_geometry r <> [] -> coords_of rn = rounded_coords (r_geometry r) ->
  ways_from docs s -> lane_step hash rn s l = Some s' -> ways_from docs s'.
Proof.
  intros Hls Hl (doc & Hd & Hr) Hne Hc Hs. unfold lane_step.
  destruct (ways_find _ _); [intros [= <-]; exact Hs|].
  destruct (generate_unique_lane_id _ _) as [[[id d] e]|]; [|discriminate].
  intros [= <-] h w Hin. simpl in Hin. apply in_app_or in Hin.
  destruct Hin as [Hin|[[= <- <-]|[]]]; [apply (Hs h w Hin)|].
  exists r, l. split; [exists doc, ls; auto|]. split; [exact Hne|].
  unfold way_key, lane_key_of. simpl. rewrite Hc. reflexivity.
Qed.

Lemma road_step_from doc r s s' :
  In doc docs -> In r doc ->
  multi_inv hash s -> ways_from docs s -> road_step hash s r = Some s' ->
  ways_from docs s'.
Proof.
  intros Hd Hr Hinv Hs. unfold road_step.
  pose proof (multi_geometry_fold hash (r_geometry r) [] s Hinv) as Hg.
  destruct (fold_left geometry_step (r_geometry r) ([], s)) as [rn s1].
  destruct Hg as (Hc & _ & Hw & _). simpl in Hc.
  assert (H1 : ways_from docs s1) by (unfold ways_from; rewrite Hw; exact Hs).
  destruct rn as [|n rn]; [intros [= <-]; exact H1|].
  assert (Hne : r_geometry r <> []).
  { intros E. rewrite E in Hc. discriminate. }
  apply (foldM_inv (ways_from docs)); [|exact H1].
  intros ls t t' Hls Ht.
  apply (foldM_inv (ways_from docs)); [|exact Ht].
  intros l u u' Hl Hu E.
  apply (lane_step_from r ls l (n :: rn) u u'); try assumption.
  exists doc. auto.
Qed.

Lemma run_from : forall docs0 s s',
  incl docs0 docs -> multi_inv hash s -> ways_from docs s ->
  run hash docs0 s = Some s' -> ways_from docs s'.
Proof.
  intros docs0 s s' Hincl Hinv Hs H. unfold run in H.
  apply (foldM_inv (fun t => multi_inv hash t /\ ways_from docs t) _ _)
    with (s := s) (s' := s') in H; [apply H| |auto].
  intros doc t t' Hd Ht. unfold document_step. intros E.
  apply (foldM_inv (fun u => multi_inv hash u /\ ways_from docs u) _ _)
    with (s := t) (s' := t') in E; [exact E| |exact Ht].
  intros r u u' Hr [Hu1 Hu2] Er. split.
  - apply (good_road hash _ _ _ Er Hu1).
  - apply (road_step_from doc r u u'); try assumption. apply Hincl, Hd.
Qed.

Lemma lane_step_mapping rn s l s' :
  mapping_ok s -> lane_step hash rn s l = Some s' ->
  mapping_ok s' /\ (List.length (global_ways s') <= List.length (global_ways s) + 1)%nat.
Proof.
  intros [Hd Hl]. unfold lane_step.
  destruct (ways_find _ _); [intros [= <-]; split; [split; assumption|lia]|].
  destruct (generate_unique_lane_id _ _) as [[[id d] e]|]; [|discriminate].
  intros [= <-]. unfold mapping_ok. simpl. rewrite !length_app. simpl.
  split; [split; [apply dense_snoc, Hd|lia]|lia].
Qed.

Lemma road_step_mapping s r s' :
  mapping_ok s -> road_step hash s r = Some s' ->
  mapping_ok s'
  /\ (List.length (global_ways s') <= List.length (global_ways s)
                                      + List.length (road_lanes r))%nat.
Proof.
  intros Hs. unfold road_step.
  pose proof (geometry_fold_rest (r_geometry r) [] s) as Hf.
  destruct (fold_left geometry_step (r_geometry r) ([], s)) as [rn s1].
  destruct Hf as (Hw & Hm & _ & Hi & _).
  assert (H1 : mapping_ok s1) by (unfold mapping_ok; rewrite Hw, Hm, Hi; exact Hs).
  rewrite <- Hw.
  destruct rn as [|n rn]; [intros [= <-]; split; [exact H1|lia]|].
  intros H. split.
  - revert H. apply (foldM_inv mapping_ok); [|exact H1].
    intros ls t t' _ Ht. apply (foldM_inv mapping_ok); [|exact Ht].
    intros l u u' _ Hu E. apply (lane_step_mapping _ _ _ _ Hu E).
  - rewrite road_lanes_length.
    assert (Hgen : forall lss t t',
               mapping_ok t ->
               foldM (fun s ls => foldM (lane_step hash (n :: rn)) (ls_lanes ls) s) lss t
               = Some t' ->
               mapping_ok t'
               /\ (List.length (global_ways t')
                   <= List.length (global_ways t)
                      + list_sum (map (fun ls => List.length (ls_lanes ls)) lss))%nat).
    { induction lss as [|ls lss IH]; intros t t' Ht; simpl.
      - intros [= <-]. split; [exact Ht|lia].
      - destruct (foldM (lane_step hash (n :: rn)) (ls_lanes ls) t) as [t1|] eqn:E;
          [|discriminate].
        assert (H2 : mapping_ok t1
                     /\ (List.length (global_ways t1)
                         <= List.length (global_ways t) + List.length (ls_lanes ls))%nat).
        { revert t t1 Ht E. clear. induction (ls_lanes ls) as [|l ls' IHl]; intros t t1 Ht; simpl.
          - intros [= <-]. split; [exact Ht|lia].
          - destruct (lane_step hash (n :: rn) t l) as [t2|] eqn:E2; [|discriminate].
            destruct (lane_step_mapping _ _ _ _ Ht E2) as [Ht2 Hb].
            intros E. destruct (IHl _ _ Ht2 E) as [Hok Hb']. split; [exact Hok|lia]. }
        destruct H2 as [Ht1 Hb1]. intros E'.
        destruct (IH _ _ Ht1 E') as [Hok Hb]. split; [exact Hok|lia]. }
    apply (Hgen _ _ _ H1 H).
Qed.

Lemma run_mapping docs0 : forall s s',
  mapping_ok s -> run hash docs0 s = Some s' ->
  mapping_ok s'
  /\ (List.length (global_ways s') <= List.length (global_ways s)
                                      + list_sum (map lane_count docs0))%nat.
Proof.
  unfold run. induction docs0 as [|doc docs0 IH]; intros s s' Hs; simpl.
  - intros [= <-]. split; [exact Hs|lia].
  - destruct (document_step hash s doc) as [s1|] eqn:E; [|discriminate].
    assert (H1 : mapping_ok s1
                 /\ (List.length (global_ways s1)
                     <= List.length (global_ways s) + lane_count doc)%nat).
    { revert s s1 Hs E. clear. unfold document_step, lane_count.
      induction doc as [|r doc IHd]; intros s s1 Hs; simpl.
      - intros [= <-]. split; [exact Hs|lia].
      - destruct (road_step hash s r) as [s2|] eqn:E2; [|discriminate].
        destruct (road_step_mapping _ _ _ Hs E2) as [Hs2 Hb].
        intros E. destruct (IHd _ _ Hs2 E) as [Hok Hb']. split; [exact Hok|lia]. }
    destruct H1 as [Hs1 Hb1]. intros E'.
    destruct (IH _ _ Hs1 E') as [Hok Hb]. split; [exact Hok|lia].
Qed.

End MultiSound.

(** Every lane record of the merged graph is the record of a lane of the
    input: it carries the rounded coordinates of the primitives of that
    lane's road, which has geometry, and the lane's type and width strings;
    its node references are not empty and all point into the node table. *)
Theorem multi_ways_sound (hash : LanidMulti.lane_key -> Z) (docs : list document)
        (draws : list Z) (st : LanidMulti.gstate) (w : way) :
  LanidMulti.run hash docs (LanidMulti.init draws) = Some st ->
  In w (map snd (LanidMulti.global_ways st)) ->
  (exists r l, lane_in docs r l /\ r_geometry r <> [] /\ way_key w = lane_key_of r l)
  /\ w_geometry w <> []
  /\ incl (w_geometry w) (map snd (LanidMulti.global_nodes st)).
Proof.
  intros H Hin. apply in_map_iff in Hin. destruct Hin as ([h w'] & <- & Hin). simpl.
  split.
  - apply (run_from hash docs docs _ _ (incl_refl _) (multi_inv_init hash draws)) in H.
    + apply (H h w' Hin).
    + intros h0 w0 [].
  - apply (run_refers hash docs _ _ (node_table_init draws)) in H.
    + apply (H h w' Hin).
    + intros h0 w0 [].
Qed.

Lemma multi_ways_sound_witness :
  exists st w,
    LanidMulti.run toy_hash [doc_AB; straight_road] (LanidMulti.init [1000001]%Z) = Some st
    /\ map snd (LanidMulti.global_ways st) = [w]
    /\ way_key w = lane_key_of (mkRoad [mkGeometry 0 0 0 10 None]
                                       [mkLaneSection None [driving_lane (35 # 10)]] None None)
                               (driving_lane (35 # 10))
    /\ w_geometry w <> []
    /\ incl (w_geometry w) (map snd (LanidMulti.global_nodes st)).
Proof.
  destruct (LanidMulti.run toy_hash [doc_AB; straight_road]
                           (LanidMulti.init [1000001]%Z)) as [st|] eqn:E;
    [|vm_compute in E; discriminate].
  destruct (map snd (LanidMulti.global_ways st)) as [|w [|w' ws]] eqn:Ew;
    [vm_compute in E; injection E as <-; discriminate
    | |vm_compute in E; injection E as <-; discriminate].
  exists st, w. split; [reflexivity|]. split; [exact Ew|].
  assert (Hin : In w (map snd (LanidMulti.global_ways st))) by (rewrite Ew; left; reflexivity).
  destruct (multi_ways_sound _ _ _ _ w E Hin) as (_ & H2 & H3).
  split; [|split; assumption].
  vm_compute in E. injection E as <-. injection Ew as <-. reflexivity.
Defined.

(** The table-index map of the merged graph has the keys 0, 1, 2, ... in
    order, one per lane record, and gives the identifiers of the records in
    table order; the merged graph never has more records than the
    documents have lanes. *)
Theorem multi_mapping_dense (hash : LanidMulti.lane_key -> Z) (docs : list document)
        (draws : list Z) (st : LanidMulti.gstate) :
  LanidMulti.run hash docs (LanidMulti.init draws) = Some st ->
  LanidMulti.global_mapping st
  = combine (Py.range (Z.of_nat (List.length (LanidMulti.global_ways st))))
            (way_ids (map snd (LanidMulti.global_ways st)))
  /\ LanidMulti.table_idx_counter st = Z.of_nat (List.length (LanidMulti.global_ways st))
  /\ (List.length (LanidMulti.global_ways st) <= list_sum (map lane_count docs))%nat.
Proof.
  intros H.
  destruct (good_run hash docs _ _ H (multi_inv_init hash draws)) as ((_ & _ & _ & Hm) & _).
  destruct (run_mapping hash docs (LanidMulti.init draws) st) as [[[Hk Hc] Hl] Hb];
    [split; [split; reflexivity|reflexivity]|exact H|].
  simpl in Hb. split; [|split; [rewrite Hc, Hl; reflexivity|exact Hb]].
  rewrite <- Hm, <- Hl, <- Hc, <- Hk. clear.
  induction (LanidMulti.global_mapping st) as [|[k v] m IH]; simpl; [reflexivity|].
  rewrite <- IH. reflexivity.
Qed.

Lemma multi_mapping_dense_witness :
  exists st,
    LanidMulti.run toy_hash [straight_road; doc_AB; straight_road]
                   (LanidMulti.init [1000001; 1000002]%Z) = Some st
    /\ LanidMulti.global_mapping st = [(0, 1000001)]%Z
    /\ LanidMulti.table_idx_counter st = 1%Z.
Proof.
  destruct (LanidMulti.run toy_hash [straight_road; doc_AB; straight_road]
                           (LanidMulti.init [1000001; 1000002]%Z)) as [st|] eqn:E;
    [|vm_compute in E; discriminate].
  exists st. split; [reflexivity|].
  destruct (multi_mapping_dense _ _ _ _ E) as (H1 & H2 & _).
  rewrite H1, H2. vm_compute in E. injection E as <-. split; reflexivity.
Defined.

Lemma foldM_fix {A S : Type} (f : S -> A -> option S) (l : list A) (s : S) :
  (forall a, In a l -> f s a = Some s) -> foldM f l s = Some s.
Proof.
  induction l as [|a l IH]; intros H; simpl; [reflexivity|].
  rewrite (H a (or_introl eq_refl)). apply IH. intros b Hb. apply H. right. exact Hb.
Qed.

Section MultiAgain.
Import LanidMulti.
Variable hash : lane_key -> Z.

(** When the rounded coordinates of the primitives are all in the node
    table, the geometry loop changes nothing. *)
Lemma geometry_fold_again gs : forall rn st,
  incl (rounded_coords gs) (map fst (global_nodes st)) ->
  snd (fold_left geometry_step gs (rn, st)) = st.
Proof.
  induction gs as [|g gs IH]; intros rn st Hin; [reflexivity|].
  cbn [fold_left]. unfold geometry_step at 2.
  destruct (nodes_find_in (round4 (g_x g), round4 (g_y g)) (global_nodes st)) as [n0 E].
  { apply Hin. left. reflexivity. }
  rewrite E, E.
  assert (Est : mkG (global_nodes st) (global_ways st) (global_mapping st)
                    (existing_lane_ids st) (table_idx_counter st) (g_draws st) = st)
    by (destruct st; reflexivity).
  rewrite Est. apply IH. intros k Hk. apply Hin. right. exact Hk.
Qed.

(** A road whose nodes and lanes are all known changes nothing. *)
Lemma road_step_again s r :
  multi_inv hash s ->
  incl (rounded_coords (r_geometry r)) (map fst (global_nodes s)) ->
  (forall ls l, In ls (r_laneSections r) -> In l (ls_lanes ls) ->
     r_geometry r <> [] -> filed (hash (lane_key_of r l)) s) ->
  road_step hash s r = Some s.
Proof.
  intros Hinv Hin Hfiled. unfold road_step.
  pose proof (multi_geometry_fold hash (r_geometry r) [] s Hinv) as Hg.
  pose proof (geometry_fold_again (r_geometry r) [] s Hin) as Hs.
  destruct (fold_left geometry_step (r_geometry r) ([], s)) as [rn s1].
  simpl in Hs. subst s1. destruct Hg as (Hc & _). simpl in Hc.
  destruct rn as [|n rn]; [reflexivity|].
  assert (Hne : r_geometry r <> []) by (intros E; rewrite E in Hc; discriminate).
  apply foldM_fix. intros ls Hls. apply foldM_fix. intros l Hl.
  unfold lane_step.
  assert (Hk : key_of (n :: rn) l = lane_key_of r l).
  { unfold key_of, lane_key_of. fold (coords_of (n :: rn)). rewrite Hc. reflexivity. }
  rewrite Hk.
  destruct (ways_find_filed _ _ (Hfiled ls l Hls Hl Hne)) as [w ->]. reflexivity.
Qed.

Lemma run_again docs docs' s st :
  multi_inv hash s -> node_table_ok s ->
  run hash docs s = Some st -> incl docs' docs ->
  run hash docs' st = Some st.
Proof.
  intros Hinv Hok H Hincl.
  assert (Hinv' : multi_inv hash st) by (apply (good_run hash docs _ _ H Hinv)).
  unfold run. apply foldM_fix. intros doc Hd. unfold document_step.
  apply foldM_fix. intros r Hr. apply road_step_again; [exact Hinv'| |].
  - apply (run_covers hash docs doc r s st); [apply Hincl, Hd|exact Hr|exact Hok|exact H].
  - intros ls l Hls Hl Hne.
    apply (reach_run hash docs r l s st); [|exact Hne|exact Hinv|exact H].
    exists doc, ls. split; [apply Hincl, Hd|auto].
Qed.

End MultiAgain.

(** Documents that have already been processed in the walk add nothing when
    they are met again: the tables, the counter and the random draws left
    are those of the walk without the repetitions, and so is the output. *)
Theorem multi_run_repeat (hash : LanidMulti.lane_key -> Z) (docs docs' : list document)
        (draws : list Z) :
  incl docs' docs ->
  LanidMulti.run hash (docs ++ docs') (LanidMulti.init draws)
  = LanidMulti.run hash docs (LanidMulti.init draws)
  /\ LanidMulti.batch_convert_xodr_to_vector_map_and_json hash (docs ++ docs') draws
     = LanidMulti.batch_convert_xodr_to_vector_map_and_json hash docs draws.
Proof.
  intros Hincl.
  assert (H : LanidMulti.run hash (docs ++ docs') (LanidMulti.init draws)
              = LanidMulti.run hash docs (LanidMulti.init draws)).
  { unfold LanidMulti.run. rewrite foldM_app.
    destruct (foldM (LanidMulti.document_step hash) docs (LanidMulti.init draws))
      as [st|] eqn:E; [|reflexivity].
    apply (run_again hash docs docs' (LanidMulti.init draws) st);
      [apply multi_inv_init|apply node_table_init|exact E|exact Hincl]. }
  split; [exact H|]. unfold LanidMulti.batch_convert_xodr_to_vector_map_and_json.
  rewrite H. reflexivity.
Qed.

Lemma multi_run_repeat_witness :
  LanidMulti.run toy_hash ([straight_road; doc_AB] ++ [doc_AB; straight_road])
                 (LanidMulti.init [1000001; 1000002]%Z)
  = LanidMulti.run toy_hash [straight_road; doc_AB] (LanidMulti.init [1000001; 1000002]%Z).
Proof.
  apply (multi_run_repeat toy_hash [straight_road; doc_AB] [doc_AB; straight_road]).
  intros d [<-|[<-|[]]]; simpl; auto.
Defined.

(** ** The XML writer and the reader of the per-document script *)

Section XmlFacts.
Import Xml LanidXml.

Lemma sub_elements {A} (f : A -> element) (l : list A) : forall e,
  fold_left (fun e a => SubElement e (f a)) l e
  = Element (tag e) (attrib e) (children e ++ map f l).
Proof.
  induction l as [|a l IH]; intros [t at_ cs]; simpl.
  - rewrite app_nil_r. reflexivity.
  - rewrite IH. simpl. rewrite <- app_assoc. reflexivity.
Qed.

Lemma descendants_leaves (t : string) (a : list (string * string)) (cs : list element) :
  (forall c, In c cs -> children c = []) ->
  descendants (Element t a cs) = cs.
Proof.
  intros H. simpl. induction cs as [|c cs IH]; [reflexivity|].
  assert (Hc : descendants c = []).
  { specialize (H c (or_introl eq_refl)). destruct c as [tc ac ccs]. simpl in H.
    subst ccs. reflexivity. }
  rewrite Hc. simpl. f_equal. apply IH. intros c' Hc'. apply H. right. exact Hc'.
Qed.

Lemma descendants_children (t : string) (a : list (string * string)) (cs : list element) :
  descendants (Element t a cs) = flat_map (fun c => c :: descendants c) cs.
Proof.
  simpl. induction cs as [|c cs IH]; [reflexivity|].
  simpl. rewrite IH. reflexivity.
Qed.

Variable str_int : Z -> string.
Variable str_float : Q -> string.

Lemma way_element_eq (w : way) :
  way_element str_int w
  = Element "way" [("lane_id"%string, str_int (w_lane_id w))]
            ([tag_element "has_traffic_control" "False";
              tag_element "turn_direction" "NONE";
              tag_element "is_intersection" "False";
              tag_element "l_neighbor_id" (t_l_neighbor_id (w_tags w));
              tag_element "r_neighbor_id" (t_r_neighbor_id (w_tags w))]
             ++ map (nd_element str_int) (w_geometry w)
             ++ map (tag_element "predecessor") (t_predecessor (w_tags w))
             ++ map (tag_element "successor") (t_successor (w_tags w))).
Proof.
  unfold way_element. rewrite !sub_elements. simpl. rewrite <- !app_assoc. reflexivity.
Qed.

Lemma way_element_descendants (w : way) :
  descendants (way_element str_int w) = children (way_element str_int w).
Proof.
  rewrite way_element_eq. apply descendants_leaves.
  intros c Hc. simpl in Hc.
  repeat (destruct Hc as [<-|Hc]; [reflexivity|]).
  apply in_app_or in Hc. destruct Hc as [Hc|Hc];
    [apply in_map_iff in Hc; destruct Hc as (x & <- & _); reflexivity|].
  apply in_app_or in Hc. destruct Hc as [Hc|Hc];
    apply in_map_iff in Hc; destruct Hc as (x & <- & _); reflexivity.
Qed.

Lemma filter_none {A} (f : A -> bool) (l : list A) :
  (forall x, In x l -> f x = false) -> filter f l = [].
Proof.
  induction l as [|a l IH]; intros H; simpl; [reflexivity|].
  rewrite (H a (or_introl eq_refl)). apply IH. intros x Hx. apply H. right. exact Hx.
Qed.

Lemma filter_all {A} (f : A -> bool) (l : list A) :
  (forall x, In x l -> f x = true) -> filter f l = l.
Proof.
  induction l as [|a l IH]; intros H; simpl; [reflexivity|].
  rewrite (H a (or_introl eq_refl)). f_equal. apply IH. intros x Hx. apply H. right. exact Hx.
Qed.

Lemma way_element_findall (t : string) (w : way) :
  findall t (way_element str_int w)
  = filter (fun c => String.eqb (tag c) t) (children (way_element str_int w)).
Proof. unfold findall. rewrite way_element_descendants. reflexivity. Qed.

Lemma root_findall (t : string) (nodes : list node) (ways : list way) :
  findall t (save_vector_map_to_xml str_int str_float nodes ways)
  = filter (fun c => String.eqb (tag c) t) (map (node_element str_int str_float) nodes)
    ++ flat_map (fun w => filter (fun c => String.eqb (tag c) t)
                                 (way_element str_int w :: children (way_element str_int w)))
                ways.
Proof.
  unfold findall, save_vector_map_to_xml. rewrite !sub_elements. cbn [tag attrib children app].
  rewrite descendants_children, flat_map_app, filter_app. f_equal.
  - f_equal. induction nodes as [|n nodes IH]; [reflexivity|].
    cbn [map flat_map]. rewrite IH. reflexivity.
  - induction ways as [|w ways IH]; [reflexivity|].
    cbn [map flat_map]. rewrite filter_app, IH, way_element_descendants. reflexivity.
Qed.

Lemma way_child_tag (w : way) (c : element) :
  In c (children (way_element str_int w)) -> tag c = "tag"%string \/ tag c = "nd"%string.
Proof.
  rewrite way_element_eq. intros Hc. simpl in Hc.
  repeat (destruct Hc as [<-|Hc]; [left; reflexivity|]).
  apply in_app_or in Hc. destruct Hc as [Hc|Hc];
    [apply in_map_iff in Hc; destruct Hc as (x & <- & _); right; reflexivity|].
  apply in_app_or in Hc. destruct Hc as [Hc|Hc];
    apply in_map_iff in Hc; destruct Hc as (x & <- & _); left; reflexivity.
Qed.

Lemma way_children_other (t : string) (w : way) :
  String.eqb "tag" t = false -> String.eqb "nd" t = false ->
  filter (fun c => String.eqb (tag c) t) (children (way_element str_int w)) = [].
Proof.
  intros H1 H2. apply filter_none. intros c Hc.
  destruct (way_child_tag w c Hc) as [-> | ->]; assumption.
Qed.

Lemma root_findall_node (nodes : list node) (ways : list way) :
  findall "node" (save_vector_map_to_xml str_int str_float nodes ways)
  = map (node_element str_int str_float) nodes.
Proof.
  rewrite root_findall. rewrite filter_all.
  - assert (E : flat_map (fun w => filter (fun c => String.eqb (tag c) "node")
                            (way_element str_int w :: children (way_element str_int w)))
                         ways = []).
    { induction ways as [|w ways IH]; [reflexivity|]. cbn [flat_map]. rewrite IH, app_nil_r.
      cbn [filter].
      assert (Et : String.eqb (tag (way_element str_int w)) "node" = false)
        by (rewrite way_element_eq; reflexivity).
      rewrite Et. apply way_children_other; reflexivity. }
    rewrite E. apply app_nil_r.
  - intros c Hc. apply in_map_iff in Hc. destruct Hc as (n & <- & _). reflexivity.
Qed.

Lemma root_findall_way (nodes : list node) (ways : list way) :
  findall "way" (save_vector_map_to_xml str_int str_float nodes ways)
  = map (way_element str_int) ways.
Proof.
  rewrite root_findall. rewrite filter_none.
  - simpl. induction ways as [|w ways IH]; [reflexivity|]. cbn [flat_map map].
    rewrite IH. cbn [filter].
    assert (Et : String.eqb (tag (way_element str_int w)) "way" = true)
      by (rewrite way_element_eq; reflexivity).
    rewrite Et. rewrite way_children_other; reflexivity.
  - intros c Hc. apply in_map_iff in Hc. destruct Hc as (n & <- & _). reflexivity.
Qed.

End XmlFacts.

(** In the tree the writer builds, the [node] elements are those of the
    node table and the [way] elements those of the lane records, in table
    order; a way element refers to its nodes by [nd] elements, one per node
    of the record and in the record's order, whose [ref] is the node's
    identifier. *)
Theorem save_vector_map_structure (str_int : Z -> string) (str_float : Q -> string)
        (nodes : list node) (ways : list way) :
  let root := LanidXml.save_vector_map_to_xml str_int str_float nodes ways in
  Xml.findall "node" root = map (LanidXml.node_element str_int str_float) nodes
  /\ Xml.findall "way" root = map (LanidXml.way_element str_int) ways
  /\ (forall w,
        map (fun e => Xml.get e "ref") (Xml.findall "nd" (LanidXml.way_element str_int w))
        = map (fun n => Some (str_int (n_id n))) (w_geometry w))
  /\ (forall n, Xml.get (LanidXml.node_element str_int str_float n) "id"
                = Some (str_int (n_id n))).
Proof.
  intros root. unfold root. split; [apply root_findall_node|].
  split; [apply root_findall_way|]. split; [|intros n; reflexivity].
  intros w. rewrite way_element_findall, way_element_eq. cbn [Xml.children].
  rewrite !filter_app.
  rewrite (filter_all _ (map (LanidXml.nd_element str_int) (w_geometry w))).
  - rewrite (filter_none _ (map (LanidXml.tag_element "predecessor") _)).
    + rewrite (filter_none _ (map (LanidXml.tag_element "successor") _)).
      * rewrite !app_nil_r. simpl. rewrite map_map. reflexivity.
      * intros c Hc. apply in_map_iff in Hc. destruct Hc as (x & <- & _). reflexivity.
    + intros c Hc. apply in_map_iff in Hc. destruct Hc as (x & <- & _). reflexivity.
  - intros c Hc. apply in_map_iff in Hc. destruct Hc as (x & <- & _). reflexivity.
Qed.

(** The writer never emits a [point] element, and the reader of the same
    script collects the [point] descendants of each way: read from a tree
    the writer built, every way has no points, so no lane is plotted,
    whatever the lane records are. *)
Theorem visualize_plots_no_lane (str_int : Z -> string) (str_float : Q -> string)
        (int : string -> option Z) (nodes : list node) (ways : list way)
        (read_nodes : list (Z * (Q * Q))) :
  let root := LanidXml.save_vector_map_to_xml str_int str_float nodes ways in
  (forall way_elem, In way_elem (Xml.findall "way" root) ->
     Xml.findall "point" way_elem = []
     /\ LanidXml.way_points int read_nodes way_elem = Some [])
  /\ LanidXml.lanes_drawn int read_nodes root = Some [].
Proof.
  intros root.
  assert (Hp : forall w, Xml.findall "point" (LanidXml.way_element str_int w) = []).
  { intros w. rewrite way_element_findall. apply way_children_other; reflexivity. }
  assert (Hall : forall way_elem, In way_elem (Xml.findall "way" root) ->
            Xml.findall "point" way_elem = []
            /\ LanidXml.way_points int read_nodes way_elem = Some []).
  { intros e He. unfold root in He. rewrite root_findall_way in He.
    apply in_map_iff in He. destruct He as (w & <- & _).
    split; [apply Hp|]. unfold LanidXml.way_points. rewrite Hp. reflexivity. }
  split; [exact Hall|].
  unfold LanidXml.lanes_drawn. apply foldM_fix.
  intros e He. destruct (Hall e He) as [_ ->]. reflexivity.
Qed.

(** ** Identifiers and random draws *)

(** [generate_unique_lane_id] returns the first draw that is not in the set,
    having discarded exactly the draws before it, all of which are in the
    set, and adds the identifier to the set; it fails to return within the
    given draws only if every one of them is in the set. *)
Theorem generate_unique_lane_id_first_fresh (draws existing : list Z) :
  match generate_unique_lane_id draws existing with
  | Some (id, draws', existing') =>
      exists skipped,
        draws = skipped ++ id :: draws'
        /\ (forall d, In d skipped -> In d existing)
        /\ ~ In id existing
        /\ existing' = id :: existing
  | None => forall d, In d draws -> In d existing
  end.
Proof.
  induction draws as [|d draws IH]; simpl; [intros d []|].
  destruct (id_in d existing) eqn:E; simpl.
  - apply id_in_iff in E.
    destruct (generate_unique_lane_id draws existing) as [[[id draws'] existing']|].
    + destruct IH as (skipped & E1 & H1 & H2 & H3).
      exists (d :: skipped). rewrite E1. split; [reflexivity|].
      split; [|auto]. intros x [<-|Hx]; [exact E|apply H1, Hx].
    + intros x [<-|Hx]; [exact E|apply IH, Hx].
  - exists []. split; [reflexivity|]. split; [intros x []|].
    split; [|reflexivity]. intros H. apply id_in_iff in H. congruence.
Qed.

Lemma generate_head draws existing id draws' existing' :
  fresh_draws draws existing ->
  generate_unique_lane_id draws existing = Some (id, draws', existing') ->
  draws = id :: draws' /\ fresh_draws draws' existing'.
Proof.
  intros [Hnd Hf]. destruct draws as [|d draws]; [discriminate|]. simpl.
  destruct (id_in d existing) eqn:E.
  - apply id_in_iff in E. exfalso. apply (Hf d); [left; reflexivity|exact E].
  - simpl. intros [= <- <- <-]. split; [reflexivity|].
    inversion Hnd as [|? ? Hnot Hnd']; subst.
    split; [exact Hnd'|]. intros x Hx [->|Hin]; [contradiction|].
    apply (Hf x); [right; exact Hx|exact Hin].
Qed.

Lemma split_at_length {A} (ids rest : list A) :
  firstn (List.length ids) (ids ++ rest) = ids /\ skipn (List.length ids) (ids ++ rest) = rest.
Proof.
  induction ids as [|a ids [IH1 IH2]]; simpl; [auto|]. rewrite IH1. auto.
Qed.

Lemma lanid_ways_length doc draws existing st :
  Lanid.parse_xodr_to_vector_map doc draws existing = Some st ->
  List.length (Lanid.p_ways st) = lane_count doc.
Proof.
  intros H. pose proof (lanid_parse_links doc draws existing st H) as E.
  apply (f_equal (@List.length _)) in E. rewrite length_map in E. rewrite E.
  unfold lane_count. clear. induction doc as [|r doc IH]; simpl; [reflexivity|].
  rewrite length_app, length_map, IH. reflexivity.
Qed.

(** When the draws are pairwise distinct and none is in the set passed in,
    the per-document compiler uses one draw per lane: the identifiers of
    the lane records are the first draws in order, and the draws left are
    the others. *)
Theorem lanid_ids_are_first_draws doc draws existing st :
  fresh_draws draws existing ->
  Lanid.parse_xodr_to_vector_map doc draws existing = Some st ->
  way_ids (Lanid.p_ways st) = firstn (lane_count doc) draws
  /\ Lanid.p_draws st = skipn (lane_count doc) draws.
Proof.
  intros Hf H.
  assert (Hs : draws_split draws (way_ids (Lanid.p_ways st)) (Lanid.p_draws st)
                           (Lanid.p_existing st)).
  { revert H. unfold Lanid.parse_xodr_to_vector_map.
    apply (foldM_inv (fun t => draws_split draws (way_ids (Lanid.p_ways t)) (Lanid.p_draws t)
                                           (Lanid.p_existing t)));
      [|split; [exact Hf|reflexivity]].
    intros r s s' _ Hs. unfold Lanid.road_step.
    pose proof (lanid_geometry_fold (r_geometry r) [] s) as Hg.
    destruct (fold_left Lanid.geometry_step (r_geometry r) ([], s)) as [rg s1].
    destruct Hg as (Hw & _ & _ & Hd & He).
    apply (foldM_inv (fun t => draws_split draws (way_ids (Lanid.p_ways t)) (Lanid.p_draws t)
                                           (Lanid.p_existing t)));
      [|rewrite Hw, Hd, He; exact Hs].
    intros ls t t' _ Ht.
    apply (foldM_inv (fun t => draws_split draws (way_ids (Lanid.p_ways t)) (Lanid.p_draws t)
                                           (Lanid.p_existing t))); [|exact Ht].
    intros l u u' _ [Hu1 Hu2]. unfold Lanid.lane_step.
    destruct (generate_unique_lane_id _ _) as [[[id dr] ex]|] eqn:E; [|discriminate].
    destruct (generate_head _ _ _ _ _ Hu1 E) as [Ed Hf'].
    intros [= <-]. simpl. split; [exact Hf'|].
    unfold way_ids. rewrite map_app. simpl. rewrite <- app_assoc. simpl.
    rewrite <- Ed. exact Hu2. }
  destruct Hs as [_ Hs]. rewrite <- (lanid_ways_length _ _ _ _ H).
  replace (List.length (Lanid.p_ways st)) with (List.length (way_ids (Lanid.p_ways st)))
    by (unfold way_ids; apply length_map).
  rewrite Hs. split; symmetry; apply split_at_length.
Qed.

Lemma lanid_ids_are_first_draws_witness :
  exists st,
    Lanid.parse_xodr_to_vector_map (straight_road ++ doc_AB ++ linked_road)
                                   [1000003; 1000001; 1000002]%Z [] = Some st
    /\ way_ids (Lanid.p_ways st) = [1000003; 1000001]%Z
    /\ Lanid.p_draws st = [1000002]%Z.
Proof.
  assert (Hf : fresh_draws [1000003; 1000001; 1000002]%Z []).
  { split; [repeat constructor; simpl; intuition discriminate|intros d _ []]. }
  destruct (Lanid.parse_xodr_to_vector_map (straight_road ++ doc_AB ++ linked_road)
                                           [1000003; 1000001; 1000002]%Z [])
    as [st|] eqn:E; [|vm_compute in E; discriminate].
  exists st. split; [reflexivity|].
  apply (lanid_ids_are_first_draws _ _ _ _ Hf E).
Defined.

Section MultiDraws.
Import LanidMulti.
Variable hash : lane_key -> Z.

Lemma multi_run_split docs draws s s' :
  draws_split draws (way_ids (map snd (global_ways s))) (g_draws s) (existing_lane_ids s) ->
  run hash docs s = Some s' ->
  draws_split draws (way_ids (map snd (global_ways s'))) (g_draws s') (existing_lane_ids s').
Proof.
  set (P := fun t => draws_split draws (way_ids (map snd (global_ways t))) (g_draws t)
                                 (existing_lane_ids t)).
  unfold run. apply (foldM_inv P). intros doc t t' _. unfold document_step.
  apply (foldM_inv P). intros r u u' _ Hu. unfold road_step.
  pose proof (geometry_fold_rest (r_geometry r) [] u) as Hg.
  destruct (fold_left geometry_step (r_geometry r) ([], u)) as [rn u1].
  destruct Hg as (Hw & _ & He & _ & Hd).
  assert (H1 : P u1) by (unfold P; rewrite Hw, Hd, He; exact Hu).
  destruct rn as [|n rn]; [intros [= <-]; exact H1|].
  apply (foldM_inv P); [|exact H1]. intros ls v v' _ Hv.
  apply (foldM_inv P); [|exact Hv]. intros l x x' _ [Hx1 Hx2]. unfold lane_step.
  destruct (ways_find _ _); [intros [= <-]; split; assumption|].
  destruct (generate_unique_lane_id _ _) as [[[id dr] ex]|] eqn:E; [|discriminate].
  destruct (generate_head _ _ _ _ _ Hx1 E) as [Ed Hf'].
  intros [= <-]. unfold P. simpl. split; [exact Hf'|].
  unfold way_ids. rewrite !map_app. simpl. rewrite <- app_assoc. simpl.
  rewrite <- Ed. exact Hx2.
Qed.

End MultiDraws.

(** When the draws are pairwise distinct, the batch compiler uses one draw
    per lane record of the merged graph, not one per lane: the identifiers
    of the records are the first draws in order, and the draws left are the
    others. *)
Theorem multi_ids_are_first_draws (hash : LanidMulti.lane_key -> Z) (docs : list document)
        (draws : list Z) (st : LanidMulti.gstate) :
  NoDup draws ->
  LanidMulti.run hash docs (LanidMulti.init draws) = Some st ->
  let records := List.length (LanidMulti.global_ways st) in
  way_ids (map snd (LanidMulti.global_ways st)) = firstn records draws
  /\ LanidMulti.g_draws st = skipn records draws.
Proof.
  intros Hnd H records.
  assert (Hinit : draws_split draws
                    (way_ids (map snd (LanidMulti.global_ways (LanidMulti.init draws))))
                    (LanidMulti.g_draws (LanidMulti.init draws))
                    (LanidMulti.existing_lane_ids (LanidMulti.init draws))).
  { split; [split; [exact Hnd|intros d _ []]|reflexivity]. }
  destruct (multi_run_split hash docs draws _ _ Hinit H) as [_ Hs].
  unfold records.
  replace (List.length (LanidMulti.global_ways st))
    with (List.length (way_ids (map snd (LanidMulti.global_ways st))))
    by (unfold way_ids; rewrite !length_map; reflexivity).
  rewrite Hs. split; symmetry; apply split_at_length.
Qed.

Lemma multi_ids_are_first_draws_witness :
  exists st,
    LanidMulti.run toy_hash [straight_road; linked_road; doc_AB]
                   (LanidMulti.init [1000003; 1000001; 1000002]%Z) = Some st
    /\ way_ids (map snd (LanidMulti.global_ways st)) = [1000003]%Z
    /\ LanidMulti.g_draws st = [1000001; 1000002]%Z.
Proof.
  assert (Hnd : NoDup [1000003; 1000001; 1000002]%Z)
    by (repeat constructor; simpl; intuition discriminate).
  destruct (LanidMulti.run toy_hash [straight_road; linked_road; doc_AB]
                           (LanidMulti.init [1000003; 1000001; 1000002]%Z))
    as [st|] eqn:E; [|vm_compute in E; discriminate].
  exists st. split; [reflexivity|].
  destruct (multi_ids_are_first_draws _ _ _ _ Hnd E) as [H1 H2].
  rewrite H1, H2. vm_compute in E. injection E as <-. split; reflexivity.
Defined.

(** ** Track identifiers *)

Lemma str_digits (n : N) : forallb is_digit (Xosc.str n) = true.
Proof.
  unfold Xosc.str. induction (N.to_uint n) as [|d IH|d IH|d IH|d IH|d IH|d IH|d IH|d IH|d IH|d IH];
    simpl; [reflexivity|exact IH..].
Qed.

Lemma digit_not_sign (c : ascii) :
  is_digit c = true ->
  Ascii.eqb c "+" = false /\ Ascii.eqb c "-" = false.
Proof.
  unfold is_digit. simpl. intros H.
  repeat (apply orb_true_iff in H; destruct H as [H|H];
          [apply Ascii.eqb_eq in H; subst c; split; reflexivity|]).
  discriminate.
Qed.

Lemma zfill_digits (s : list ascii) (width : nat) :
  forallb is_digit s = true ->
  Xosc.zfill s width = repeat "0"%char (width - List.length s) ++ s.
Proof.
  intros H. unfold Xosc.zfill. destruct (width <=? List.length s)%nat eqn:E.
  - apply Nat.leb_le in E. replace (width - List.length s)%nat with 0%nat by lia. reflexivity.
  - destruct s as [|c rest]; [rewrite app_nil_r; reflexivity|].
    simpl in H. apply andb_true_iff in H. destruct H as [Hc _].
    destruct (digit_not_sign c Hc) as [-> ->]. reflexivity.
Qed.

Lemma zeros_digits (k : nat) (s : list ascii) :
  forallb is_digit s = true -> forallb is_digit (repeat "0"%char k ++ s) = true.
Proof. intros H. induction k as [|k IH]; simpl; [exact H|exact IH]. Qed.

Lemma zeros_uint (k : nat) (u : Decimal.uint) :
  repeat "0"%char k ++ list_ascii_of_string (DecimalString.NilEmpty.string_of_uint u)
  = list_ascii_of_string
      (DecimalString.NilEmpty.string_of_uint (Nat.iter k Decimal.D0 u)).
Proof. induction k as [|k IH]; simpl; [reflexivity|]. rewrite IH. reflexivity. Qed.

Lemma of_uint_zeros (k : nat) (u : Decimal.uint) :
  N.of_uint (Nat.iter k Decimal.D0 u) = N.of_uint u.
Proof. induction k as [|k IH]; simpl; [reflexivity|exact IH]. Qed.

(** The zero-filled string determines the number. *)
Lemma zfill_injective (n m : N) :
  Xosc.zfill (Xosc.str n) 32 = Xosc.zfill (Xosc.str m) 32 -> n = m.
Proof.
  rewrite !zfill_digits by apply str_digits. unfold Xosc.str. rewrite !zeros_uint.
  intros H. apply (f_equal string_of_list_ascii) in H.
  rewrite !string_of_list_ascii_of_string in H.
  apply (f_equal DecimalString.NilEmpty.uint_of_string) in H.
  rewrite !DecimalString.NilEmpty.usu in H. injection H as H.
  apply (f_equal N.of_uint) in H. rewrite !of_uint_zeros in H.
  rewrite !DecimalN.Unsigned.of_to in H. exact H.
Qed.

Lemma groups_concat (s : list ascii) : List.concat (track_id_groups s) = s.
Proof.
  unfold track_id_groups, Xosc.slice. cbn [List.concat]. rewrite app_nil_r.
  change (12 - 8)%nat with 4%nat. change (16 - 12)%nat with 4%nat.
  change (20 - 16)%nat with 4%nat.
  replace (skipn 20 s) with (skipn 4 (skipn 16 s)) by (rewrite skipn_skipn; reflexivity).
  rewrite firstn_skipn.
  replace (skipn 16 s) with (skipn 4 (skipn 12 s)) by (rewrite skipn_skipn; reflexivity).
  rewrite firstn_skipn.
  replace (skipn 12 s) with (skipn 4 (skipn 8 s)) by (rewrite skipn_skipn; reflexivity).
  rewrite firstn_skipn. apply firstn_skipn.
Qed.

Lemma filter_digits (s : list ascii) :
  forallb is_digit s = true -> filter is_digit s = s.
Proof.
  induction s as [|c s IH]; simpl; [reflexivity|].
  intros H. apply andb_true_iff in H. destruct H as [Hc Hs]. rewrite Hc, IH; auto.
Qed.

Lemma forallb_firstn {A} (f : A -> bool) (k : nat) (l : list A) :
  forallb f l = true -> forallb f (firstn k l) = true.
Proof.
  revert l. induction k as [|k IH]; intros [|a l]; simpl; auto.
  intros H. apply andb_true_iff in H. destruct H as [-> H]. apply IH, H.
Qed.

Lemma forallb_skipn {A} (f : A -> bool) (k : nat) (l : list A) :
  forallb f l = true -> forallb f (skipn k l) = true.
Proof.
  revert l. induction k as [|k IH]; intros [|a l]; simpl; auto.
  intros H. apply andb_true_iff in H. destruct H as [_ H]. apply IH, H.
Qed.

(** Dropping the hyphens from a formatted identifier gives back the
    zero-filled string when it holds digits only. *)
Lemma format_digits (n : N) :
  filter is_digit (Xosc.format_track_id n) = Xosc.zfill (Xosc.str n) 32.
Proof.
  unfold Xosc.format_track_id.
  assert (Hz : forallb is_digit (Xosc.zfill (Xosc.str n) 32) = true).
  { rewrite zfill_digits by apply str_digits. apply zeros_digits, str_digits. }
  set (s := Xosc.zfill (Xosc.str n) 32) in *.
  rewrite !filter_app. cbn [filter is_digit existsb Ascii.eqb Bool.eqb orb app].
  unfold Xosc.slice.
  rewrite !filter_digits
    by (try apply forallb_firstn; try apply forallb_skipn; exact Hz).
  pose proof (groups_concat s) as H. unfold track_id_groups, Xosc.slice in H.
  cbn [List.concat] in H. rewrite app_nil_r in H. exact H.
Qed.

(** [format_track_id] separates the track identifiers: two integers are
    given the same formatted identifier only if they are equal, so the
    rows of two trajectories whose hashes differ in absolute value never
    share a [TRACK_ID]. *)
Theorem format_track_id_injective (n m : N) :
  Xosc.format_track_id n = Xosc.format_track_id m <-> n = m.
Proof.
  split; [|intros ->; reflexivity].
  intros H. apply zfill_injective. rewrite <- !format_digits, H. reflexivity.
Qed.

(** For an integer of at most 32 decimal digits, the formatted identifier
    is five groups of 8, 4, 4, 4 and 12 decimal digits separated by
    hyphens, 36 characters in all, and the groups together are the digits of
    the integer after the zeros that fill them to 32; for 0, the value
    given to the ego vehicle, it is the identifier of the rows that are
    added for the ego vehicle. *)
Theorem format_track_id_layout (n : N) :
  (List.length (Xosc.str n) <= 32)%nat ->
  let groups := track_id_groups (Xosc.zfill (Xosc.str n) 32) in
  Xosc.format_track_id n
  = nth 0 groups [] ++ ["-"%char] ++ nth 1 groups [] ++ ["-"%char] ++ nth 2 groups []
    ++ ["-"%char] ++ nth 3 groups [] ++ ["-"%char] ++ nth 4 groups []
  /\ map (@List.length ascii) groups = [8; 4; 4; 4; 12]%nat
  /\ forallb (forallb is_digit) groups = true
  /\ List.concat groups = repeat "0"%char (32 - List.length (Xosc.str n)) ++ Xosc.str n
  /\ List.length (Xosc.format_track_id n) = 36%nat
  /\ Xosc.format_track_id 0 = Xosc.ego_track_id.
Proof.
  intros Hlen groups.
  assert (Hz : Xosc.zfill (Xosc.str n) 32
               = repeat "0"%char (32 - List.length (Xosc.str n)) ++ Xosc.str n)
    by (apply zfill_digits, str_digits).
  assert (Hd : forallb is_digit (Xosc.zfill (Xosc.str n) 32) = true)
    by (rewrite Hz; apply zeros_digits, str_digits).
  assert (Hl : List.length (Xosc.zfill (Xosc.str n) 32) = 32%nat).
  { rewrite Hz, length_app, repeat_length. lia. }
  assert (Hg : map (@List.length ascii) groups = [8; 4; 4; 4; 12]%nat).
  { unfold groups, track_id_groups, Xosc.slice. cbn [map].
    rewrite !length_firstn, !length_skipn, Hl. reflexivity. }
  split; [reflexivity|]. split; [exact Hg|]. split; [|split; [|split]].
  - unfold groups, track_id_groups, Xosc.slice. cbn [forallb].
    rewrite !forallb_firstn, !forallb_skipn
      by (try apply forallb_skipn; exact Hd).
    reflexivity.
  - unfold groups. rewrite groups_concat. exact Hz.
  - unfold Xosc.format_track_id. fold (track_id_groups (Xosc.zfill (Xosc.str n) 32)).
    unfold track_id_groups, Xosc.slice.
    rewrite !length_app, !length_firstn, !length_skipn, Hl. reflexivity.
  - reflexivity.
Qed.

Lemma format_track_id_layout_witness :
  List.length (Xosc.format_track_id 9223372036854775807) = 36%nat
  /\ Xosc.format_track_id 9223372036854775807
     = list_ascii_of_string "00000000-0000-0922-3372-036854775807".
Proof.
  assert (H : (List.length (Xosc.str 9223372036854775807) <= 32)%nat)
    by (vm_compute; lia).
  destruct (format_track_id_layout 9223372036854775807 H) as (_ & _ & _ & _ & Hl & _).
  split; [exact Hl|vm_compute; reflexivity].
Defined.

(** ** Instances on the example documents *)

Lemma bbox_batch_is_table_of_all_roads_witness :
  exists table,
    BBoxMulti.batch_convert_xodr_to_bbox_table cos_approx sin_approx
                                               [straight_road; []; doc_AB] = Some table
    /\ table = map (BBox.bbox_row cos_approx sin_approx)
                   (batch_geometry [straight_road; []; doc_AB])
    /\ List.length table = 3%nat.
Proof.
  destruct (BBoxMulti.batch_convert_xodr_to_bbox_table cos_approx sin_approx
                                                       [straight_road; []; doc_AB])
    as [table|] eqn:E; [|vm_compute in E; discriminate].
  exists table. split; [reflexivity|].
  destruct (bbox_batch_is_table_of_all_roads cos_approx sin_approx
                                             [straight_road; []; doc_AB]) as [H _].
  destruct (H table E) as (_ & H2 & _). split; [exact H2|].
  rewrite H2, length_map. reflexivity.
Defined.

Lemma visualize_plots_no_lane_witness :
  LanidXml.lanes_drawn
    (fun _ => Some 0%Z) [(0%Z, (0, 0))]
    (LanidXml.save_vector_map_to_xml
       (fun z => if Z.eqb z 0 then "0"%string else "1000001"%string)
       (fun _ => "0.0"%string)
       [mkNode 0 0 0]
       [mkWay 1000001 "driving" "3.5" [mkNode 0 0 0] (mkTags [] [] "None" "None")])
  = Some [].
Proof.
  apply (visualize_plots_no_lane
           (fun z => if Z.eqb z 0 then "0"%string else "1000001"%string)
           (fun _ => "0.0"%string) (fun _ => Some 0%Z)
           [mkNode 0 0 0]
           [mkWay 1000001 "driving" "3.5" [mkNode 0 0 0] (mkTags [] [] "None" "None")]
           [(0%Z, (0, 0))]).
Defined.

Lemma generate_unique_lane_id_first_fresh_witness :
  exists skipped,
    [1000001; 1000002; 1000001; 1000003]%Z = skipped ++ [1000003]%Z
    /\ (forall d, In d skipped -> In d [1000002; 1000001]%Z)
    /\ ~ In 1000003%Z [1000002; 1000001]%Z.
Proof.
  pose proof (generate_unique_lane_id_first_fresh
                [1000001; 1000002; 1000001; 1000003]%Z [1000002; 1000001]%Z) as H.
  simpl in H. destruct H as (skipped & H1 & H2 & H3 & _).
  exists skipped. auto.
Defined.

(** ** The rows of a scenario *)

Section XoscRows.
Import Xosc.

Lemma rows_at_insert (time : Q) (r : row) (l : list row) :
  rows_at time (insert r l) = rows_at time (r :: l).
Proof.
  unfold rows_at. induction l as [|r' l IH]; [reflexivity|].
  cbn [insert]. destruct (Qle_bool (TIMESTAMP r) (TIMESTAMP r')) eqn:E; [reflexivity|].
  cbn [filter] in *. rewrite IH.
  destruct (Qeq_bool (TIMESTAMP r) time) eqn:E1; [|reflexivity].
  destruct (Qeq_bool (TIMESTAMP r') time) eqn:E2; [|reflexivity].
  exfalso. apply Qeq_bool_iff in E1, E2.
  assert (H : Qle_bool (TIMESTAMP r) (TIMESTAMP r') = true)
    by (apply Qle_bool_iff; rewrite E1, E2; apply Qle_refl).
  congruence.
Qed.

(** The stable sort keeps, for every time stamp, the rows in their order. *)
Lemma rows_at_sort (time : Q) (l : list row) :
  rows_at time (sort_by_timestamp l) = rows_at time l.
Proof.
  induction l as [|r l IH]; [reflexivity|].
  cbn [sort_by_timestamp fold_right]. fold (sort_by_timestamp l).
  rewrite rows_at_insert. unfold rows_at in *. cbn [filter]. rewrite IH. reflexivity.
Qed.

Lemma insert_Forall (P : row -> Prop) (r : row) (l : list row) :
  P r -> Forall P l -> Forall P (insert r l).
Proof.
  intros Hr Hl. induction Hl as [|r' l Hr' Hl IH]; cbn [insert]; [auto|].
  destruct (Qle_bool _ _); auto.
Qed.

Lemma sort_Forall (P : row -> Prop) (l : list row) :
  Forall P l -> Forall P (sort_by_timestamp l).
Proof.
  intros H. induction H as [|r l Hr Hl IH]; [constructor|].
  cbn [sort_by_timestamp fold_right]. apply insert_Forall; assumption.
Qed.

Lemma insert_sorted (r : row) (l : list row) :
  by_timestamp l -> by_timestamp (insert r l).
Proof.
  unfold by_timestamp. intros H. induction H as [|r' l Hs IH Hall]; cbn [insert].
  - repeat constructor.
  - destruct (Qle_bool (TIMESTAMP r) (TIMESTAMP r')) eqn:E.
    + apply Qle_bool_iff in E. constructor; [constructor; assumption|].
      constructor; [exact E|]. revert Hall. apply Forall_impl. intros a Ha.
      eapply Qle_trans; eassumption.
    + constructor; [exact IH|]. apply insert_Forall; [|exact Hall].
      destruct (Qlt_le_dec (TIMESTAMP r') (TIMESTAMP r)) as [Hlt|Hle].
      * apply Qlt_le_weak, Hlt.
      * apply Qle_bool_iff in Hle. congruence.
Qed.

Lemma sort_sorted (l : list row) : by_timestamp (sort_by_timestamp l).
Proof.
  induction l as [|r l IH]; [constructor|].
  cbn [sort_by_timestamp fold_right]. apply insert_sorted, IH.
Qed.

Lemma head_earliest (a b : row) (l : list row) :
  by_timestamp (a :: l) -> In b (a :: l) -> TIMESTAMP a <= TIMESTAMP b.
Proof.
  intros Hs Hin. inversion Hs as [|? ? _ Hall]; subst.
  destruct Hin as [->|Hin]; [apply Qle_refl|].
  rewrite Forall_forall in Hall. apply Hall, Hin.
Qed.

Lemma head_in_rows_at (b : row) (l : list row) : In b (rows_at (TIMESTAMP b) (b :: l)).
Proof. unfold rows_at. cbn [filter]. rewrite Qeq_bool_refl. left. reflexivity. Qed.

Lemma rows_at_In (time : Q) (b : row) (l : list row) : In b (rows_at time l) -> In b l.
Proof. unfold rows_at. intros H. apply filter_In in H. apply H. Qed.

(** A table in the order of its time stamps is determined by its rows at
    each time stamp. *)
Lemma by_timestamp_unique (l1 : list row) : forall l2,
  by_timestamp l1 -> by_timestamp l2 ->
  (forall time, rows_at time l1 = rows_at time l2) -> l1 = l2.
Proof.
  induction l1 as [|a l IH]; intros [|b l'] H1 H2 H.
  - reflexivity.
  - exfalso. pose proof (head_in_rows_at b l') as Hin. rewrite <- H in Hin. exact Hin.
  - exfalso. pose proof (head_in_rows_at a l) as Hin. rewrite H in Hin. exact Hin.
  - assert (Hab : TIMESTAMP a <= TIMESTAMP b).
    { apply (head_earliest a b l H1). apply (rows_at_In (TIMESTAMP b)).
      rewrite H. apply head_in_rows_at. }
    assert (Hba : TIMESTAMP b <= TIMESTAMP a).
    { apply (head_earliest b a l' H2). apply (rows_at_In (TIMESTAMP a)).
      rewrite <- H. apply head_in_rows_at. }
    assert (Heq : Qeq_bool (TIMESTAMP b) (TIMESTAMP a) = true)
      by (apply Qeq_bool_iff, Qle_antisym; assumption).
    assert (Ea : a = b).
    { pose proof (H (TIMESTAMP a)) as E. unfold rows_at in E. cbn [filter] in E.
      rewrite Qeq_bool_refl, Heq in E. congruence. }
    subst b. f_equal. apply IH.
    + inversion H1; assumption.
    + inversion H2; assumption.
    + intros time. specialize (H time). unfold rows_at in *. cbn [filter] in H.
      destruct (Qeq_bool (TIMESTAMP a) time); congruence.
Qed.

Lemma float_canonical (q : Q) : canonical (float q).
Proof. unfold canonical, float. apply Qred_complete, Qred_correct. Qed.

Lemma set_add_spec (s : list Q) (time : Q) :
  Forall canonical s -> canonical time -> NoDup s ->
  Forall canonical (set_add s time) /\ NoDup (set_add s time)
  /\ (forall u, In u (set_add s time) <-> In u s \/ u = time).
Proof.
  intros Hs Ht Hnd. unfold set_add. destruct (existsb (Qeq_bool time) s) eqn:E.
  - split; [exact Hs|]. split; [exact Hnd|]. intros u. split; [auto|].
    intros [H| ->]; [exact H|]. apply existsb_exists in E. destruct E as (v & Hv & Ev).
    apply Qeq_bool_iff in Ev. rewrite Forall_forall in Hs.
    rewrite (canonical_eq time v Ht (Hs v Hv) Ev). exact Hv.
  - split; [apply Forall_app; auto|]. split.
    + apply NoDup_app; [exact Hnd|repeat constructor; intros []|].
      intros u Hu [<-|[]].
      assert (F : existsb (Qeq_bool time) s = true)
        by (apply existsb_exists; exists time; split; [exact Hu|apply Qeq_bool_refl]).
      congruence.
    + intros u. rewrite in_app_iff. simpl. intuition.
Qed.

Lemma set_fold_spec (times : list Q) : forall s,
  Forall canonical s -> Forall canonical times -> NoDup s ->
  Forall canonical (fold_left set_add times s) /\ NoDup (fold_left set_add times s)
  /\ (forall u, In u (fold_left set_add times s) <-> In u s \/ In u times).
Proof.
  induction times as [|time times IH]; intros s Hs Ht Hnd; simpl.
  - split; [exact Hs|]. split; [exact Hnd|]. intros u. tauto.
  - inversion Ht as [|? ? Hc Ht']; subst.
    destruct (set_add_spec s time Hs Hc Hnd) as (H1 & H2 & H3).
    destruct (IH (set_add s time) H1 Ht' H2) as (H4 & H5 & H6).
    split; [exact H4|]. split; [exact H5|]. intros u. rewrite H6, H3. simpl. intuition (subst; auto).
Qed.

Variable hash : string -> Z.

Lemma trajectory_rows_canonical (scenario : list trajectory) :
  Forall canonical (map TIMESTAMP (trajectory_rows hash scenario)).
Proof.
  rewrite Forall_forall. intros u Hu. apply in_map_iff in Hu. destruct Hu as (r & <- & Hr).
  unfold trajectory_rows in Hr. apply in_flat_map in Hr. destruct Hr as (t & _ & Hr).
  apply in_flat_map in Hr. destruct Hr as (v & _ & Hr). unfold vertex_rows in Hr.
  destruct (v_position v) as [[x y]|]; [|contradiction].
  destruct Hr as [<-|[]]. apply float_canonical.
Qed.

Lemma all_timestamps_spec (scenario : list trajectory) :
  Forall canonical (all_timestamps hash scenario)
  /\ NoDup (all_timestamps hash scenario)
  /\ (forall u, In u (all_timestamps hash scenario)
                <-> In u (map TIMESTAMP (trajectory_rows hash scenario))).
Proof.
  destruct (set_fold_spec (map TIMESTAMP (trajectory_rows hash scenario)) [])
    as (H1 & H2 & H3); [constructor|apply trajectory_rows_canonical|constructor|].
  split; [exact H1|]. split; [exact H2|]. intros u. rewrite H3. simpl. tauto.
Qed.

Lemma filter_single {A} (f : A -> bool) (l : list A) (u : A) :
  NoDup l -> In u l -> f u = true -> (forall v, In v l -> f v = true -> v = u) ->
  filter f l = [u].
Proof.
  induction l as [|a l IH]; intros Hnd Hin Hu Huniq; [contradiction|].
  inversion Hnd as [|? ? Hnot Hnd']; subst. simpl.
  destruct Hin as [->|Hin].
  - rewrite Hu. f_equal. apply filter_none. intros x Hx.
    destruct (f x) eqn:E; [|reflexivity].
    exfalso. apply Hnot. rewrite <- (Huniq x (or_intror Hx) E). exact Hx.
  - destruct (f a) eqn:E.
    + exfalso. apply Hnot. rewrite (Huniq a (or_introl eq_refl) E). exact Hin.
    + apply IH; auto. intros v Hv. apply Huniq. right. exact Hv.
Qed.

(** The rows added for the ego vehicle: one for every time stamp of a row
    of the trajectories, whatever the order of the iteration. *)
Lemma rows_at_ego (iteration : list Q -> list Q) (scenario : list trajectory)
      (x_init y_init time : Q) :
  iterates hash iteration scenario ->
  rows_at time (map (ego_row x_init y_init) (iteration (all_timestamps hash scenario)))
  = if existsb (fun r => Qeq_bool (TIMESTAMP r) time) (trajectory_rows hash scenario)
    then [ego_row x_init y_init (Qred time)]
    else [].
Proof.
  intros Hp. destruct (all_timestamps_spec scenario) as (Hc & Hnd & Hin).
  set (order := iteration (all_timestamps hash scenario)) in *.
  assert (Hnd' : NoDup order)
    by (apply (Permutation_NoDup (Permutation_sym Hp)), Hnd).
  assert (Hin' : forall u, In u order
                           <-> In u (map TIMESTAMP (trajectory_rows hash scenario))).
  { intros u. rewrite <- Hin. split; apply Permutation_in;
      [exact Hp|apply Permutation_sym, Hp]. }
  assert (Hc' : forall u, In u order -> canonical u).
  { intros u Hu. rewrite Forall_forall in Hc. apply Hc. apply (Permutation_in _ Hp Hu). }
  assert (Hmap : rows_at time (map (ego_row x_init y_init) order)
                 = map (ego_row x_init y_init) (filter (fun u => Qeq_bool u time) order)).
  { unfold rows_at. clear. induction order as [|u order IH]; [reflexivity|].
    simpl. destruct (Qeq_bool u time); simpl; rewrite IH; reflexivity. }
  rewrite Hmap.
  destruct (existsb _ (trajectory_rows hash scenario)) eqn:E.
  - apply existsb_exists in E. destruct E as (r & Hr & Er).
    assert (Hu : In (TIMESTAMP r) order) by (apply Hin', in_map, Hr).
    assert (Eq : TIMESTAMP r = Qred time).
    { apply canonical_eq; [apply Hc', Hu|apply float_canonical|].
      apply Qeq_bool_iff in Er. rewrite Er. symmetry. apply Qred_correct. }
    rewrite (filter_single _ order (Qred time)); [reflexivity|exact Hnd'| | |].
    + rewrite <- Eq. exact Hu.
    + apply Qeq_bool_iff, Qred_correct.
    + intros v Hv Ev. apply canonical_eq; [apply Hc', Hv|apply float_canonical|].
      apply Qeq_bool_iff in Ev. rewrite Ev. symmetry. apply Qred_correct.
  - rewrite filter_none; [reflexivity|]. intros u Hu.
    destruct (Qeq_bool u time) eqn:Eu; [|reflexivity].
    apply Hin' in Hu. apply in_map_iff in Hu. destruct Hu as (r & <- & Hr).
    assert (F : existsb (fun r => Qeq_bool (TIMESTAMP r) time) (trajectory_rows hash scenario)
                = true) by (apply existsb_exists; exists r; auto).
    congruence.
Qed.

End XoscRows.

(** The rows of the table at one time stamp. *)
Lemma parse_rows_at (hash : string -> Z) (iteration : list Q -> list Q)
      (ego_position : option (Q * Q)) (city_name : string)
      (scenario : list Xosc.trajectory) (time : Q) :
  iterates hash iteration scenario ->
  rows_at time (Xosc.parse_xosc_trajectory hash iteration ego_position city_name scenario)
  = rows_at time (Xosc.trajectory_rows hash scenario)
    ++ (if existsb (fun r => Qeq_bool (Xosc.TIMESTAMP r) time)
                   (Xosc.trajectory_rows hash scenario)
        then [Xosc.ego_row (fst (get_default ego_position (0, 0)))
                           (snd (get_default ego_position (0, 0))) (Qred time)]
        else []).
Proof.
  intros Hp. unfold Xosc.parse_xosc_trajectory.
  destruct (get_default ego_position (0, 0)) as [x_init y_init]. cbv beta iota zeta.
  cbn [fst snd]. rewrite rows_at_sort.
  rewrite <- (rows_at_ego hash iteration scenario x_init y_init time Hp).
  unfold rows_at. apply filter_app.
Qed.

Lemma iterates_any_order (hash : string -> Z) (scenario : list Xosc.trajectory) :
  iterates hash (fun s => s) scenario /\ iterates hash (@rev Q) scenario.
Proof.
  split; [apply Permutation_refl|apply Permutation_sym, Permutation_rev].
Qed.

(** The table [parse_xosc_trajectory] returns is in the order of the time
    stamps; at every time stamp it holds the rows of the trajectories with
    that time stamp, in document order, followed by exactly one row for the
    ego vehicle at the initial position when there is such a row of a
    trajectory, and nothing otherwise; every row has the city name MIA,
    whatever city name is passed. *)
Theorem xosc_rows_sorted_stable (hash : string -> Z) (iteration : list Q -> list Q)
        (ego_position : option (Q * Q)) (city_name : string)
        (scenario : list Xosc.trajectory) :
  iterates hash iteration scenario ->
  let table := Xosc.parse_xosc_trajectory hash iteration ego_position city_name scenario in
  by_timestamp table
  /\ (forall time,
        rows_at time table
        = rows_at time (Xosc.trajectory_rows hash scenario)
          ++ (if existsb (fun r => Qeq_bool (Xosc.TIMESTAMP r) time)
                         (Xosc.trajectory_rows hash scenario)
              then [Xosc.ego_row (fst (get_default ego_position (0, 0)))
                                 (snd (get_default ego_position (0, 0))) (Qred time)]
              else []))
  /\ Forall (fun r => Xosc.CITY_NAME r = "MIA"%string) table.
Proof.
  intros Hp table. split; [|split].
  - unfold table, Xosc.parse_xosc_trajectory.
    destruct (get_default ego_position (0, 0)) as [x_init y_init]. apply sort_sorted.
  - intros time. apply parse_rows_at, Hp.
  - unfold table, Xosc.parse_xosc_trajectory.
    destruct (get_default ego_position (0, 0)) as [x_init y_init].
    apply sort_Forall, Forall_app. split.
    + rewrite Forall_forall. intros r Hr. unfold Xosc.trajectory_rows in Hr.
      apply in_flat_map in Hr. destruct Hr as (t & _ & Hr).
      apply in_flat_map in Hr. destruct Hr as (v & _ & Hr). unfold Xosc.vertex_rows in Hr.
      destruct (Xosc.v_position v) as [[x y]|]; [|contradiction].
      destruct Hr as [<-|[]]. reflexivity.
    + rewrite Forall_forall. intros r Hr. apply in_map_iff in Hr.
      destruct Hr as (u & <- & _). reflexivity.
Qed.

Lemma xosc_rows_sorted_stable_witness :
  by_timestamp (Xosc.parse_xosc_trajectory string_length_hash (@rev Q) None "PIT"
                                           two_vehicles)
  /\ map Xosc.TIMESTAMP
         (Xosc.parse_xosc_trajectory string_length_hash (@rev Q) None "PIT" two_vehicles)
     = [0; 0; 0; 1 # 2; 1 # 2; 1 # 2].
Proof.
  destruct (xosc_rows_sorted_stable string_length_hash (@rev Q) None "PIT" two_vehicles)
    as (H & _ & _); [apply iterates_any_order|].
  split; [exact H|vm_compute; reflexivity].
Defined.

(** The table does not depend on the order in which the set of time stamps
    is iterated. *)
Theorem xosc_rows_iteration_independent (hash : string -> Z)
        (iteration1 iteration2 : list Q -> list Q)
        (ego_position : option (Q * Q)) (city_name : string)
        (scenario : list Xosc.trajectory) :
  iterates hash iteration1 scenario -> iterates hash iteration2 scenario ->
  Xosc.parse_xosc_trajectory hash iteration1 ego_position city_name scenario
  = Xosc.parse_xosc_trajectory hash iteration2 ego_position city_name scenario.
Proof.
  intros H1 H2. apply by_timestamp_unique.
  - unfold Xosc.parse_xosc_trajectory.
    destruct (get_default ego_position (0, 0)) as [x_init y_init]. apply sort_sorted.
  - unfold Xosc.parse_xosc_trajectory.
    destruct (get_default ego_position (0, 0)) as [x_init y_init]. apply sort_sorted.
  - intros time. rewrite !parse_rows_at by assumption. reflexivity.
Qed.

Lemma xosc_rows_iteration_independent_witness :
  Xosc.parse_xosc_trajectory string_length_hash (fun s => s) (Some (9, 9)) "MIA" two_vehicles
  = Xosc.parse_xosc_trajectory string_length_hash (@rev Q) (Some (9, 9)) "MIA" two_vehicles.
Proof.
  apply xosc_rows_iteration_independent; apply iterates_any_order.
Defined.

(** When the scenario has a trajectory whose name contains Ego, the ego
    vehicle gets two rows at every time stamp of a positioned vertex of that
    trajectory, both of type AV and with the all-zero track identifier: the
    one of the vertex, and after it the one at the initial position. *)
Theorem xosc_ego_rows_doubled (hash : string -> Z) (iteration : list Q -> list Q)
        (ego_position : option (Q * Q)) (city_name : string)
        (scenario : list Xosc.trajectory) (t : Xosc.trajectory) (v : Xosc.vertex)
        (x y : Q) :
  iterates hash iteration scenario ->
  In t scenario -> Xosc.contains "Ego" (Xosc.tr_name t) = true ->
  In v (Xosc.tr_vertices t) -> Xosc.v_position v = Some (x, y) ->
  exists before between,
    rows_at (Xosc.v_time v)
            (Xosc.parse_xosc_trajectory hash iteration ego_position city_name scenario)
    = before
      ++ Xosc.mkRow (Qred (Xosc.v_time v)) Xosc.ego_track_id "AV" x y "MIA"
      :: between
      ++ [Xosc.mkRow (Qred (Xosc.v_time v)) Xosc.ego_track_id "AV"
                     (fst (get_default ego_position (0, 0)))
                     (snd (get_default ego_position (0, 0))) "MIA"].
Proof.
  intros Hp Ht He Hv Hpos.
  set (r := Xosc.mkRow (Qred (Xosc.v_time v)) Xosc.ego_track_id "AV" x y "MIA").
  assert (Hr : In r (Xosc.trajectory_rows hash scenario)).
  { unfold Xosc.trajectory_rows. apply in_flat_map. exists t. split; [exact Ht|].
    apply in_flat_map. exists v. split; [exact Hv|]. unfold Xosc.vertex_rows.
    rewrite Hpos, He. left. reflexivity. }
  assert (Hq : Qeq_bool (Xosc.TIMESTAMP r) (Xosc.v_time v) = true)
    by (apply Qeq_bool_iff, Qred_correct).
  assert (Hin : In r (rows_at (Xosc.v_time v) (Xosc.trajectory_rows hash scenario)))
    by (unfold rows_at; apply filter_In; auto).
  apply in_split in Hin. destruct Hin as (before & between & E).
  exists before, between. rewrite (parse_rows_at _ _ _ _ _ _ Hp), E.
  assert (Hex : existsb (fun r => Qeq_bool (Xosc.TIMESTAMP r) (Xosc.v_time v))
                        (Xosc.trajectory_rows hash scenario) = true)
    by (apply existsb_exists; exists r; auto).
  rewrite Hex, <- app_assoc. reflexivity.
Qed.

Lemma xosc_ego_rows_doubled_witness :
  exists before between,
    rows_at (1 # 2) (Xosc.parse_xosc_trajectory string_length_hash (@rev Q) None "PIT"
                                                two_vehicles)
    = before
      ++ Xosc.mkRow (1 # 2) Xosc.ego_track_id "AV" 3 4 "MIA"
      :: between
      ++ [Xosc.mkRow (1 # 2) Xosc.ego_track_id "AV" 0 0 "MIA"].
Proof.
  apply (xosc_ego_rows_doubled string_length_hash (@rev Q) None "PIT" two_vehicles
           (Xosc.mkTrajectory "Ego_trajectory"
              [Xosc.mkVertex 0 (Some (1, 2)); Xosc.mkVertex (1 # 2) (Some (3, 4))])
           (Xosc.mkVertex (1 # 2) (Some (3, 4))) 3 4).
  - apply iterates_any_order.
  - left. reflexivity.
  - reflexivity.
  - right. left. reflexivity.
  - reflexivity.
Defined.
